(** * SmartParkingPro: a shallow embedding of [ds.c] and its properties

    The C program keeps its whole state in global arrays and counters.
    The embedding threads that state explicitly.  Every C [int] is a [Z];
    arrays are lists read and written through bounds-checked accessors,
    so that an out-of-range access (undefined behaviour in C) shows up as
    [None].  Loops are bounded by their own variant; running out of that
    bound would also give [None].  The theorems on reachable states
    therefore establish, besides the functional properties, that the
    program never leaves its arrays and that every loop terminates. *)

From stdpp Require Import base option list.
From Stdlib Require Import ZArith Lia.

Local Open Scope Z_scope.

Ltac Zify.zify_post_hook ::= Z.to_euclidean_division_equations.

(** ** Configuration constants ([#define]s of ds.c, lines 14-17) *)

Definition MAX_SLOTS : Z := 10.
Definition MAX_CARS : Z := 100.
Definition WAIT_CAP : Z := 10.
Definition FEE_PER_HOUR : Z := 50.

(** ** C integers

    Counters and indices of the program stay within a few units of the
    array bounds (see [Inv] below), so their arithmetic is written
    without reduction.  Money and durations are not bounded by the
    program; for them the 32-bit two's-complement reduction of [int] is
    written out. *)

Definition INT_MAX : Z := 2147483647.
Definition INT_MIN : Z := -2147483648.

Definition wrap32 (x : Z) : Z := (x + 2147483648) mod 4294967296 - 2147483648.

(** ** Arrays *)

Definition rd (a : list Z) (i : Z) : option Z :=
  if i <? 0 then None else a !! Z.to_nat i.

Definition wr (a : list Z) (i v : Z) : option (list Z) :=
  if (0 <=? i) && (i <? Z.of_nat (length a))
  then Some (<[Z.to_nat i := v]> a) else None.

(** Total reading, for specifications only. *)
Definition get (a : list Z) (i : Z) : Z := default 0 (rd a i).

(** ** Min-heap of free slots (ds.c, lines 19-57) *)

Record Heap := mkHeap { heapArr : list Z; heapSize : Z }.

Definition heapSwap (i j : Z) (arr : list Z) : option (list Z) :=
  t ← rd arr i;
  x ← rd arr j;
  a1 ← wr arr i x;
  wr a1 j t.

(** The [while (i > 1)] loop of [heapInsert]. *)
Fixpoint sift_up (fuel : nat) (arr : list Z) (i : Z) : option (list Z) :=
  match fuel with
  | O => None
  | S f =>
      if 1 <? i then
        let parent := i ÷ 2 in
        p ← rd arr parent;
        c ← rd arr i;
        if p <=? c then Some arr
        else a' ← heapSwap parent i arr; sift_up f a' parent
      else Some arr
  end.

Definition heapInsert (val : Z) (h : Heap) : option Heap :=
  if MAX_SLOTS <=? heapSize h then Some h
  else
    let sz := heapSize h + 1 in
    a1 ← wr (heapArr h) sz val;
    a2 ← sift_up (S (Z.to_nat sz)) a1 sz;
    Some (mkHeap a2 sz).

(** The [while (1)] loop of [heapRemoveMin]; [n] is [heapSize]. *)
Fixpoint sift_down (fuel : nat) (arr : list Z) (n i : Z) : option (list Z) :=
  match fuel with
  | O => None
  | S f =>
      let l := 2 * i in
      let r := l + 1 in
      s1 ← (if l <=? n then
              al ← rd arr l; ai ← rd arr i;
              Some (if al <? ai then l else i)
            else Some i);
      s2 ← (if r <=? n then
              ar ← rd arr r; am ← rd arr s1;
              Some (if ar <? am then r else s1)
            else Some s1);
      if s2 =? i then Some arr
      else a' ← heapSwap i s2 arr; sift_down f a' n s2
  end.

Definition heapRemoveMin (h : Heap) : option (Z * Heap) :=
  if heapSize h =? 0 then Some (-1, h)
  else
    ret ← rd (heapArr h) 1;
    last ← rd (heapArr h) (heapSize h);
    a1 ← wr (heapArr h) 1 last;
    let n := heapSize h - 1 in
    a2 ← sift_down (S (Z.to_nat n)) a1 n 1;
    Some (ret, mkHeap a2 n).

(** The slots held by the heap: cells [1..heapSize] of the array. *)
Definition seg (arr : list Z) (n : Z) : list Z := take (Z.to_nat n) (drop 1 arr).
Definition heap_elems (h : Heap) : list Z := seg (heapArr h) (heapSize h).

(** ** Waiting queue: circular buffer (ds.c, lines 59-79)

    C's [%] truncates towards zero: [Z.rem]. *)

Record WaitQueue := mkWQ
  { waitQ : list Z; waitFront : Z; waitRear : Z; waitCount : Z }.

Definition enqueueWait (c : Z) (q : WaitQueue) : option (Z * WaitQueue) :=
  if waitCount q =? WAIT_CAP then Some (0, q)
  else
    let rear := Z.rem (waitRear q + 1) WAIT_CAP in
    a ← wr (waitQ q) rear c;
    let front := if waitCount q =? 0 then rear else waitFront q in
    Some (1, mkWQ a front rear (waitCount q + 1)).

Definition dequeueWait (q : WaitQueue) : option (Z * WaitQueue) :=
  if waitCount q =? 0 then Some (-1, q)
  else
    c ← rd (waitQ q) (waitFront q);
    let front := Z.rem (waitFront q + 1) WAIT_CAP in
    let cnt := waitCount q - 1 in
    Some (c, if cnt =? 0 then mkWQ (waitQ q) 0 (-1) 0
             else mkWQ (waitQ q) front (waitRear q) cnt).

(** ** Ledger, history and the global state (ds.c, lines 81-97) *)

Record Node := mkNode
  { car : Z; slot : Z; entryTime : Z; exitTime : Z (* 0 if still parked *) }.

Record State := mkState
  { heap : Heap;
    wq : WaitQueue;
    slotOfCar : list Z;       (* car -> slot (1..MAX_SLOTS), -1 absent, -2 waiting *)
    entryTimeOfCar : list Z;
    passUser : list Z;        (* 1 if monthly pass *)
    slotToCar : list Z;       (* slot -> car, -1 if empty *)
    history : list Node;      (* newest first *)
    totalRevenue : Z }.

(** What an operation reports to the operator (the [printf]s of ds.c). *)
Inductive Status := Absent | Waiting | ParkedAt (s entry : Z).

Inductive Promotion :=
| NoPromotion
| Promoted (c s t : Z)     (* "Allocated Slot s to waiting Car c" *)
| Requeued (c : Z)         (* heapRemoveMin gave -1: car put back in the queue *)
| Skipped (c : Z).         (* dequeued value outside 0..MAX_CARS-1 *)

Inductive Outcome :=
| InvalidVehicleId
| DuplicateParked (c : Z)
| DuplicateWaiting (c : Z)
| FacilityFull
| UnableToJoin
| Queued (c pos : Z)
| Parked (c s t : Z)
| NotParked (c : Z)
| RemovedFromQueue (c : Z)
| NotInQueue (c : Z)
| Exited (c s fee secs : Z) (p : Promotion)
| PassRegistered (c : Z)
| EmergencyCleared
| Found (c : Z) (s : Status)
| FreeSlots (l : list Z)
| WaitingList (l : list Z).

(** [malloc] may fail; [mem] tells whether it succeeded. *)
Definition addHistoryNode (mem : bool) (c s entry exitT : Z)
    (hist : list Node) : list Node :=
  if mem then mkNode c s entry exitT :: hist else hist.

(** [for (i = lo; i < lo + n; i++) body] with a constant trip count. *)
Fixpoint for_loop {S : Type} (n : nat) (i : Z) (body : Z → S → option S)
    (s : S) : option S :=
  match n with
  | O => Some s
  | S k => s' ← body i s; for_loop k (i + 1) body s'
  end.

Definition fill_heap (arr : list Z) : option Heap :=
  for_loop (Z.to_nat MAX_SLOTS) 1 heapInsert (mkHeap arr 0).

(** A loop that stores [v] in cells [lo .. lo + n - 1] of one array. *)
Definition fill (n : Z) (lo v : Z) (a : list Z) : option (list Z) :=
  for_loop (Z.to_nat n) lo (λ i a, wr a i v) a.

Definition emptyQueue (q : WaitQueue) : WaitQueue := mkWQ (waitQ q) 0 (-1) 0.

Definition initSystem (st : State) : option State :=
  h ← fill_heap (heapArr (heap st));
  '(soc, et, pu) ←
     for_loop (Z.to_nat MAX_CARS) 0
       (λ i '(soc, et, pu),
          soc' ← wr soc i (-1); et' ← wr et i 0; pu' ← wr pu i 0;
          Some (soc', et', pu'))
       (slotOfCar st, entryTimeOfCar st, passUser st);
  stc ← fill (MAX_SLOTS + 1) 0 (-1) (slotToCar st);
  Some (mkState h (emptyQueue (wq st)) soc et pu stc [] 0).

(** The globals as the C runtime hands them to [main]. *)
Definition boot : State :=
  mkState (mkHeap (replicate 11 0) 0)
          (mkWQ (replicate 10 0) 0 (-1) 0)
          (replicate 100 0) (replicate 100 0) (replicate 100 0)
          (replicate 11 0) [] 0.

Definition emergencyMode (st : State) : option (State * Outcome) :=
  '(soc, et) ←
     for_loop (Z.to_nat MAX_CARS) 0
       (λ c '(soc, et),
          soc' ← wr soc c (-1); et' ← wr et c 0; Some (soc', et'))
       (slotOfCar st, entryTimeOfCar st);
  stc ← fill MAX_SLOTS 1 (-1) (slotToCar st);
  h ← fill_heap (heapArr (heap st));
  Some (mkState h (emptyQueue (wq st)) soc et (passUser st) stc
                (history st) (totalRevenue st), EmergencyCleared).

Definition in_range (c : Z) : bool := (0 <=? c) && (c <? MAX_CARS).

Definition addMonthlyPass (c : Z) (st : State) : option (State * Outcome) :=
  if negb (in_range c) then Some (st, InvalidVehicleId)
  else
    pu ← wr (passUser st) c 1;
    Some (mkState (heap st) (wq st) (slotOfCar st) (entryTimeOfCar st) pu
                  (slotToCar st) (history st) (totalRevenue st),
          PassRegistered c).

(** [canEnter] returns 1 ([CanEnter]) or prints why not and returns 0. *)
Inductive EntryCheck := CanEnter | Rejected (why : Outcome).

Definition canEnter (c : Z) (st : State) : option EntryCheck :=
  if negb (in_range c) then Some (Rejected InvalidVehicleId)
  else
    s ← rd (slotOfCar st) c;
    if 1 <=? s then Some (Rejected (DuplicateParked c))
    else if s =? -2 then Some (Rejected (DuplicateWaiting c))
    else Some CanEnter.

(** [c] is the id read from the operator, [now] the value of
    [time(NULL)]. *)
Definition vehicleEntry (c now : Z) (mem : bool) (st : State)
    : option (State * Outcome) :=
  chk ← canEnter c st;
  match chk with
  | Rejected why => Some (st, why)
  | CanEnter =>
      '(s, h) ← heapRemoveMin (heap st);
      if s =? -1 then
        if waitCount (wq st) =? WAIT_CAP then
          Some (mkState h (wq st) (slotOfCar st) (entryTimeOfCar st)
                        (passUser st) (slotToCar st) (history st)
                        (totalRevenue st), FacilityFull)
        else
          '(ok, q) ← enqueueWait c (wq st);
          if ok =? 0 then
            Some (mkState h q (slotOfCar st) (entryTimeOfCar st)
                          (passUser st) (slotToCar st) (history st)
                          (totalRevenue st), UnableToJoin)
          else
            soc ← wr (slotOfCar st) c (-2);
            Some (mkState h q soc (entryTimeOfCar st) (passUser st)
                          (slotToCar st) (history st) (totalRevenue st),
                  Queued c (waitCount q))
      else
        soc ← wr (slotOfCar st) c s;
        et ← wr (entryTimeOfCar st) c now;
        stc ← wr (slotToCar st) s c;
        Some (mkState h (wq st) soc et (passUser st) stc
                      (addHistoryNode mem c s now 0 (history st))
                      (totalRevenue st),
              Parked c s now)
  end.

(** First loop of the waiting branch of [vehicleExit]: the queue is
    emptied into the local array [tmp], dropping [c]. *)
Fixpoint drain (n : nat) (c : Z) (q : WaitQueue) (soc tmp : list Z)
    (removed : bool) : option (WaitQueue * list Z * list Z * bool) :=
  match n with
  | O => Some (q, soc, tmp, removed)
  | S k =>
      '(w, q') ← dequeueWait q;
      if w =? c then
        soc' ← wr soc w (-1);
        drain k c q' soc' tmp true
      else if Z.of_nat (length tmp) <? WAIT_CAP
           then drain k c q' soc (tmp ++ [w]) removed
           else None
  end.

(** Second loop: [tmp[0..idx-1]] goes back into the queue. *)
Fixpoint refill (tmp : list Z) (q : WaitQueue) : option WaitQueue :=
  match tmp with
  | [] => Some q
  | w :: rest => '(_, q') ← enqueueWait w q; refill rest q'
  end.

(** The history walk of [vehicleExit]: the first record of the list that
    matches and is open gets its exit time; the walk stops there. *)
Fixpoint closeHistory (c s now : Z) (hist : list Node) : list Node :=
  match hist with
  | [] => []
  | t :: rest =>
      if (car t =? c) && (slot t =? s) && (exitTime t =? 0)
      then mkNode (car t) (slot t) (entryTime t) now :: rest
      else t :: closeHistory c s now rest
  end.


(** [difftime] on [time_t] values.  It returns a [double]: the
    difference is exact, and so is the [long] it is converted to, as
    long as it is at most [DBL_EXACT]; a larger one is rounded by the C
    library, which this definition does not follow.  A negative
    difference stays negative whatever the rounding.  Statements that
    give the billed duration as [now - entry] carry
    [now - entry ≤ DBL_EXACT]. *)
Definition difftime (t1 t0 : Z) : Z := t1 - t0.

Definition elapsed (now entry : Z) : Z :=
  let diff := difftime now entry in
  if diff <? 0 then 0 else diff.

Definition charged_hours (secs : Z) : Z :=
  let h := wrap32 ((secs + 3599) ÷ 3600) in     (* long to int *)
  if h <? 0 then 0 else h.

Definition fee_of (pass secs : Z) : Z :=
  if pass =? 0 then wrap32 (charged_hours secs * FEE_PER_HOUR) else 0.

(** [now] and [now2] are the two values of [time(NULL)]. *)
Definition vehicleExit (c now now2 : Z) (mem : bool) (st : State)
    : option (State * Outcome) :=
  if negb (in_range c) then Some (st, InvalidVehicleId)
  else
    s ← rd (slotOfCar st) c;
    if s =? -1 then Some (st, NotParked c)
    else if s =? -2 then
      '(q, soc, tmp, removed) ←
         drain (Z.to_nat (waitCount (wq st))) c (wq st) (slotOfCar st) [] false;
      q' ← refill tmp q;
      Some (mkState (heap st) q' soc (entryTimeOfCar st) (passUser st)
                    (slotToCar st) (history st) (totalRevenue st),
            if (removed : bool) then RemovedFromQueue c else NotInQueue c)
    else
      entry ← rd (entryTimeOfCar st) c;
      let secs := elapsed now entry in
      pu ← rd (passUser st) c;
      let fee := fee_of pu secs in
      let rev := wrap32 (totalRevenue st + fee) in
      let hist := closeHistory c s now (history st) in
      soc ← wr (slotOfCar st) c (-1);
      et ← wr (entryTimeOfCar st) c 0;
      stc ← wr (slotToCar st) s (-1);
      h ← heapInsert s (heap st);
      if 0 <? waitCount (wq st) then
        '(next, q) ← dequeueWait (wq st);
        if in_range next then
          '(newSlot, h') ← heapRemoveMin h;
          if newSlot =? -1 then
            '(_, q') ← enqueueWait next q;
            Some (mkState h' q' soc et (passUser st) stc hist rev,
                  Exited c s fee secs (Requeued next))
          else
            soc' ← wr soc next newSlot;
            et' ← wr et next now2;
            stc' ← wr stc newSlot next;
            Some (mkState h' q soc' et' (passUser st) stc'
                          (addHistoryNode mem next newSlot now2 0 hist) rev,
                  Exited c s fee secs (Promoted next newSlot now2))
        else
          Some (mkState h q soc et (passUser st) stc hist rev,
                Exited c s fee secs (Skipped next))
      else
        Some (mkState h (wq st) soc et (passUser st) stc hist rev,
              Exited c s fee secs NoPromotion).

(** Read-only queries. *)
Definition searchCar (c : Z) (st : State) : option Outcome :=
  if negb (in_range c) then Some InvalidVehicleId
  else
    s ← rd (slotOfCar st) c;
    if 1 <=? s then
      e ← rd (entryTimeOfCar st) c; Some (Found c (ParkedAt s e))
    else if s =? -2 then Some (Found c Waiting)
    else Some (Found c Absent).

Fixpoint freeFrom (n : nat) (s : Z) (stc : list Z) : option (list Z) :=
  match n with
  | O => Some []
  | S k =>
      x ← rd stc s;
      rest ← freeFrom k (s + 1) stc;
      Some (if x =? -1 then s :: rest else rest)
  end.

Definition showFreeSlots (st : State) : option Outcome :=
  l ← freeFrom (Z.to_nat MAX_SLOTS) 1 (slotToCar st); Some (FreeSlots l).

Fixpoint listFrom (n : nat) (idx : Z) (a : list Z) : option (list Z) :=
  match n with
  | O => Some []
  | S k =>
      x ← rd a idx;
      rest ← listFrom k (Z.rem (idx + 1) WAIT_CAP) a;
      Some (x :: rest)
  end.

Definition showWaitingQueue (st : State) : option Outcome :=
  l ← listFrom (Z.to_nat (waitCount (wq st))) (waitFront (wq st))
               (waitQ (wq st));
  Some (WaitingList l).

(** ** The menu loop of [main] as a transition system *)

Inductive Op :=
| OpEntry (c now : Z) (mem : bool)
| OpExit (c now now2 : Z) (mem : bool)
| OpPass (c : Z)
| OpEmergency
| OpSearch (c : Z)
| OpFreeSlots
| OpWaiting.

Definition query (f : State → option Outcome) (st : State)
    : option (State * Outcome) :=
  o ← f st; Some (st, o).

Definition step (op : Op) (st : State) : option (State * Outcome) :=
  match op with
  | OpEntry c now mem => vehicleEntry c now mem st
  | OpExit c now now2 mem => vehicleExit c now now2 mem st
  | OpPass c => addMonthlyPass c st
  | OpEmergency => emergencyMode st
  | OpSearch c => query (searchCar c) st
  | OpFreeSlots => query showFreeSlots st
  | OpWaiting => query showWaitingQueue st
  end.

Fixpoint run (ops : list Op) (st : State) : option State :=
  match ops with
  | [] => Some st
  | op :: rest => '(st', _) ← step op st; run rest st'
  end.

Inductive reachable : State → Prop :=
| reach_init st : initSystem boot = Some st → reachable st
| reach_step st op st' out :
    reachable st → step op st = Some (st', out) → reachable st'.

(** ** Specification vocabulary *)

(** The array after [heapSwap i j]. *)
Definition swap (a : list Z) (i j : Z) : list Z :=
  <[Z.to_nat j := get a i]> (<[Z.to_nat i := get a j]> a).

(** Heap order on cells [1..n]: no cell is smaller than its parent. *)
Definition ordered (arr : list Z) (n : Z) : Prop :=
  ∀ i, 2 ≤ i ≤ n → get arr (i ÷ 2) ≤ get arr i.

(** Heap order with one possible violation, between [i] and its parent
    (the state of the array inside the loop of [heapInsert]). *)
Definition up_inv (arr : list Z) (n i : Z) : Prop :=
  (∀ j, 2 ≤ j ≤ n → j ≠ i → get arr (j ÷ 2) ≤ get arr j) ∧
  (∀ j, 2 ≤ j ≤ n → j ÷ 2 = i → 2 ≤ i → get arr (i ÷ 2) ≤ get arr j).

(** Heap order with possible violations between [i] and its children
    (the state of the array inside the loop of [heapRemoveMin]). *)
Definition down_inv (arr : list Z) (n i : Z) : Prop :=
  (∀ j, 2 ≤ j ≤ n → j ÷ 2 ≠ i → get arr (j ÷ 2) ≤ get arr j) ∧
  (∀ j, 2 ≤ j ≤ n → j ÷ 2 = i → 2 ≤ i → get arr (i ÷ 2) ≤ get arr j).

Definition heap_inv (h : Heap) : Prop :=
  length (heapArr h) = 11%nat ∧
  0 ≤ heapSize h ≤ MAX_SLOTS ∧
  ordered (heapArr h) (heapSize h).

(** Heap states: what [initSystem] and [emergencyMode] establish, closed
    under [heapInsert] and [heapRemoveMin]. *)
Inductive heap_reach : Heap → Prop :=
| hr_fill arr h :
    length arr = 11%nat → fill_heap arr = Some h → heap_reach h
| hr_insert v h h' :
    heap_reach h → heapInsert v h = Some h' → heap_reach h'
| hr_remove h m h' :
    heap_reach h → heapRemoveMin h = Some (m, h') → heap_reach h'.

(** The queue from front to rear. *)
Fixpoint contents (a : list Z) (front : Z) (n : nat) : list Z :=
  match n with
  | O => []
  | S k => get a front :: contents a (Z.rem (front + 1) WAIT_CAP) k
  end.

Definition queue_list (q : WaitQueue) : list Z :=
  contents (waitQ q) (waitFront q) (Z.to_nat (waitCount q)).

Definition wq_inv (q : WaitQueue) : Prop :=
  length (waitQ q) = 10%nat ∧
  0 ≤ waitCount q ≤ WAIT_CAP ∧
  0 ≤ waitFront q < WAIT_CAP ∧
  (waitCount q = 0 → waitFront q = 0 ∧ waitRear q = -1) ∧
  (0 < waitCount q →
   waitRear q = Z.rem (waitFront q + waitCount q - 1) WAIT_CAP).

Definition is_slot (s : Z) : Prop := 1 ≤ s ≤ MAX_SLOTS.
Definition is_car (c : Z) : Prop := 0 ≤ c < MAX_CARS.

(** Agreement of the free-slot heap, the waiting queue and the two
    occupancy maps. *)
Record ledger_ok (h : Heap) (q : WaitQueue) (soc stc : list Z) : Prop :=
  mkLedgerOk
  { ok_heap : heap_inv h;
    ok_wq : wq_inv q;
    ok_len_soc : length soc = 100%nat;
    ok_len_stc : length stc = 11%nat;
    ok_status : ∀ c, is_car c →
      get soc c = -1 ∨ get soc c = -2 ∨ is_slot (get soc c);
    ok_occ : ∀ s, is_slot s → get stc s = -1 ∨ is_car (get stc s);
    ok_bij : ∀ s c, is_slot s → is_car c → (get stc s = c ↔ get soc c = s);
    ok_free : ∀ s, s ∈ heap_elems h ↔ is_slot s ∧ get stc s = -1;
    ok_free_nodup : NoDup (heap_elems h);
    ok_wait : ∀ c, c ∈ queue_list q ↔ is_car c ∧ get soc c = -2;
    ok_wait_nodup : NoDup (queue_list q) }.

(** The invariant of the menu loop. *)
Definition Inv (st : State) : Prop :=
  ledger_ok (heap st) (wq st) (slotOfCar st) (slotToCar st) ∧
  length (entryTimeOfCar st) = 100%nat ∧
  length (passUser st) = 100%nat ∧
  (0 < waitCount (wq st) → heapSize (heap st) = 0).

(** Spec-side reading of a ledger entry. *)
Definition status_of (st : State) (c : Z) : Status :=
  let s := get (slotOfCar st) c in
  if s =? -1 then Absent
  else if s =? -2 then Waiting
  else ParkedAt s (get (entryTimeOfCar st) c).


(** How one operation can move the heap. *)
Definition heap_moves (h h' : Heap) : Prop :=
  h' = h ∨ (∃ m, heapRemoveMin h = Some (m, h')) ∨
  (∃ s, heapInsert s h = Some h') ∨
  (∃ s h1 m, heapInsert s h = Some h1 ∧ heapRemoveMin h1 = Some (m, h')) ∨
  fill_heap (heapArr h) = Some h'.

(** Outcomes that report a rejected request. *)
Definition rejected (o : Outcome) : bool :=
  match o with
  | InvalidVehicleId | DuplicateParked _ | DuplicateWaiting _
  | FacilityFull | NotParked _ => true
  | _ => false
  end.


(** A slot is free in the ledger. *)
Definition free_slot (st : State) (s : Z) : Prop :=
  is_slot s ∧ get (slotToCar st) s = -1.

(** ** Sample runs *)

Definition from_boot (ops : list Op) : option State :=
  st ← initSystem boot; run ops st.

(** One slot per car 0..9, then cars 10 and 11 wait. *)
Definition ops_full : list Op :=
  [OpPass 3;
   OpEntry 0 1000 true; OpEntry 1 1000 true; OpEntry 2 1000 true;
   OpEntry 3 1000 true; OpEntry 4 1000 true; OpEntry 5 1000 true;
   OpEntry 6 1000 true; OpEntry 7 1000 true; OpEntry 8 1000 true;
   OpEntry 9 1000 true; OpEntry 10 1001 true; OpEntry 11 1002 true].

(** Cars 7, 8, 9 take slots 1, 2, 3; then car 8 leaves. *)
Definition ops_three : list Op :=
  [OpEntry 7 500 true; OpEntry 8 500 true; OpEntry 9 500 true;
   OpExit 8 600 600 true].

Definition st_three : State := default boot (from_boot ops_three).
Definition st_full : State := default boot (from_boot ops_full).

(** ** Further listings of the menu (ds.c, lines 156-162, 177-190, 330-345) *)

(** One line of [showSlotMap]. *)
Inductive SlotLine := SlotEmpty (s : Z) | SlotCar (s c : Z).

Fixpoint slotMapFrom (n : nat) (s : Z) (stc : list Z)
    : option (list SlotLine) :=
  match n with
  | O => Some []
  | S k =>
      x ← rd stc s;
      rest ← slotMapFrom k (s + 1) stc;
      Some ((if x =? -1 then SlotEmpty s else SlotCar s x) :: rest)
  end.

Definition showSlotMap (st : State) : option (list SlotLine) :=
  slotMapFrom (Z.to_nat MAX_SLOTS) 1 (slotToCar st).

(** The slot a line of the slot map is about. *)
Definition line_slot (l : SlotLine) : Z :=
  match l with SlotEmpty s => s | SlotCar s _ => s end.

(** [showParkedVehicles]: slot, car and entry time of every occupied
    slot; the entry time is read at the index found in the slot map. *)
Fixpoint parkedFrom (n : nat) (s : Z) (stc et : list Z)
    : option (list (Z * Z * Z)) :=
  match n with
  | O => Some []
  | S k =>
      c ← rd stc s;
      line ← (if c =? -1 then Some []
              else e ← rd et c; Some [(s, c, e)]);
      rest ← parkedFrom k (s + 1) stc et;
      Some (line ++ rest)
  end.

Definition showParkedVehicles (st : State) : option (list (Z * Z * Z)) :=
  parkedFrom (Z.to_nat MAX_SLOTS) 1 (slotToCar st) (entryTimeOfCar st).

(** One line of [showHistory]: a record with exit time 0 is shown as
    still parked. *)
Inductive HistLine :=
| StillParked (c s entry : Z)
| Closed (c s entry exit : Z).

Definition histLine (t : Node) : HistLine :=
  if exitTime t =? 0 then StillParked (car t) (slot t) (entryTime t)
  else Closed (car t) (slot t) (entryTime t) (exitTime t).

Definition showHistory (st : State) : list HistLine :=
  map histLine (history st).

Definition showRevenue (st : State) : Z := totalRevenue st.

(** ** More specification vocabulary *)

(** The arrays have the sizes of their C declarations. *)
Definition well_sized (st : State) : Prop :=
  length (heapArr (heap st)) = 11%nat ∧
  length (waitQ (wq st)) = 10%nat ∧
  length (slotOfCar st) = 100%nat ∧
  length (entryTimeOfCar st) = 100%nat ∧
  length (passUser st) = 100%nat ∧
  length (slotToCar st) = 11%nat.

(** Largest duration whose fee fits an [int]: 42949672 hours. *)
Definition MAX_BILLABLE_SECS : Z := 42949672 * 3600.

(** Outcomes of the two branches the program can never take. *)
Definition dead_outcome (o : Outcome) : bool :=
  match o with
  | UnableToJoin | NotInQueue _ => true
  | _ => false
  end.

(** What an operation may do to one history record: nothing, or set the
    exit time of a record that was open. *)
Definition record_kept (t t' : Node) : Prop :=
  car t' = car t ∧ slot t' = slot t ∧ entryTime t' = entryTime t ∧
  (exitTime t ≠ 0 → exitTime t' = exitTime t).

(** The facility after one slot per car 0..9 and ten more cars waiting. *)
Definition ops_crowded : list Op :=
  map (λ c, OpEntry c 1000 true) (seqZ 0 20).

Definition st_crowded : State := default boot (from_boot ops_crowded).
Definition st_boot : State := default boot (from_boot []).



(** * Arrays *)

Lemma rd_in (a : list Z) i :
  0 ≤ i < Z.of_nat (length a) → rd a i = Some (get a i).
Proof.
  intros Hi. unfold get, rd.
  destruct (Z.ltb_spec i 0); [lia|].
  destruct (lookup_lt_is_Some_2 a (Z.to_nat i)) as [v Hv]; [lia|].
  by rewrite Hv.
Qed.

Lemma rd_Some (a : list Z) i v :
  rd a i = Some v → 0 ≤ i < Z.of_nat (length a) ∧ get a i = v.
Proof.
  unfold get, rd. destruct (Z.ltb_spec i 0); [done|].
  intros Hv. rewrite Hv. split; [|done].
  apply lookup_lt_Some in Hv. lia.
Qed.

Lemma wr_in (a : list Z) i v :
  0 ≤ i < Z.of_nat (length a) → wr a i v = Some (<[Z.to_nat i := v]> a).
Proof.
  intros Hi. unfold wr.
  destruct (Z.leb_spec 0 i), (Z.ltb_spec i (Z.of_nat (length a))); simpl; [done|lia..].
Qed.

Lemma wr_Some (a : list Z) i v a' :
  wr a i v = Some a' →
  0 ≤ i < Z.of_nat (length a) ∧ a' = <[Z.to_nat i := v]> a.
Proof.
  unfold wr.
  destruct (Z.leb_spec 0 i), (Z.ltb_spec i (Z.of_nat (length a)));
    simpl; intros [= <-]; auto with lia.
Qed.

Lemma get_upd (a : list Z) i j v :
  0 ≤ i < Z.of_nat (length a) →
  get (<[Z.to_nat i := v]> a) j = if j =? i then v else get a j.
Proof.
  intros Hi. unfold get, rd.
  destruct (Z.eqb_spec j i) as [->|Hne].
  - destruct (Z.ltb_spec i 0); [lia|].
    rewrite list_lookup_insert_eq; [done|lia].
  - destruct (Z.ltb_spec j 0); [done|].
    rewrite list_lookup_insert_ne; [done|lia].
Qed.

Lemma get_upd_eq (a : list Z) i v :
  0 ≤ i < Z.of_nat (length a) → get (<[Z.to_nat i := v]> a) i = v.
Proof. intros. rewrite get_upd, Z.eqb_refl; auto. Qed.

Lemma seg_length (a : list Z) n :
  0 ≤ n < Z.of_nat (length a) → length (seg a n) = Z.to_nat n.
Proof. intros. unfold seg. rewrite length_take, length_drop. lia. Qed.

Lemma seg_lookup (a : list Z) n k :
  (k < Z.to_nat n)%nat → seg a n !! k = a !! S k.
Proof.
  intros. unfold seg. rewrite lookup_take_lt by done. by rewrite lookup_drop.
Qed.

Lemma elem_of_seg (a : list Z) n x :
  0 ≤ n < Z.of_nat (length a) →
  x ∈ seg a n ↔ ∃ i, 1 ≤ i ≤ n ∧ get a i = x.
Proof.
  intros Hn. rewrite list_elem_of_lookup. split.
  - intros [k Hk]. pose proof (lookup_lt_Some _ _ _ Hk) as Hlt.
    rewrite seg_length in Hlt by done. rewrite seg_lookup in Hk by done.
    exists (Z.of_nat (S k)). split; [lia|].
    unfold get, rd. destruct (Z.ltb_spec (Z.of_nat (S k)) 0); [lia|].
    by rewrite Nat2Z.id, Hk.
  - intros (i & Hi & <-). exists (Z.to_nat (i - 1)).
    rewrite seg_lookup by lia. rewrite <- rd_in by lia. unfold rd.
    destruct (Z.ltb_spec i 0); [lia|]. f_equal. lia.
Qed.

Lemma seg_upd (a : list Z) n i v :
  1 ≤ i ≤ n → seg (<[Z.to_nat i := v]> a) n = <[Z.to_nat (i - 1) := v]> (seg a n).
Proof.
  intros. unfold seg. rewrite drop_insert_ge by lia.
  rewrite take_insert_lt by lia. f_equal. lia.
Qed.

Lemma seg_upd_out (a : list Z) n i v :
  n < i → seg (<[Z.to_nat i := v]> a) n = seg a n.
Proof.
  intros. unfold seg. destruct (decide (0 ≤ n)).
  - rewrite drop_insert_ge by lia. by rewrite take_insert_ge by lia.
  - by replace (Z.to_nat n) with 0%nat by lia.
Qed.

Lemma seg_snoc (a : list Z) n :
  0 ≤ n → n + 1 < Z.of_nat (length a) →
  seg a (n + 1) = seg a n ++ [get a (n + 1)].
Proof.
  intros. unfold seg. replace (Z.to_nat (n + 1)) with (S (Z.to_nat n)) by lia.
  erewrite take_S_r; [done|].
  rewrite lookup_drop. rewrite <- rd_in by lia. unfold rd.
  destruct (Z.ltb_spec (n + 1) 0); [lia|]. f_equal. lia.
Qed.

(** Exchanging two cells of a list permutes it. *)
Lemma insert_head_perm (l : list Z) j x y :
  l !! j = Some y → y :: <[j := x]> l ≡ₚ x :: l.
Proof.
  revert j. induction l as [|z l IH]; intros [|j] Hj; simplify_eq/=.
  - apply perm_swap.
  - rewrite perm_swap. rewrite (IH _ Hj). apply perm_swap.
Qed.

Lemma exchange_perm (l : list Z) i j x y :
  l !! i = Some x → l !! j = Some y → <[j := x]> (<[i := y]> l) ≡ₚ l.
Proof.
  revert i j. induction l as [|z l IH]; intros [|i] [|j] Hi Hj; simplify_eq/=.
  - done.
  - by apply insert_head_perm.
  - by apply insert_head_perm.
  - f_equiv. by apply IH.
Qed.

Lemma length_swap (a : list Z) i j : length (swap a i j) = length a.
Proof. unfold swap. by rewrite !length_insert. Qed.

Lemma get_swap (a : list Z) i j k :
  0 ≤ i < Z.of_nat (length a) → 0 ≤ j < Z.of_nat (length a) →
  get (swap a i j) k =
    if k =? j then get a i else if k =? i then get a j else get a k.
Proof.
  intros. unfold swap. rewrite get_upd by (rewrite length_insert; lia).
  destruct (k =? j); [done|]. by rewrite get_upd.
Qed.

Lemma heapSwap_in (a : list Z) i j :
  0 ≤ i < Z.of_nat (length a) → 0 ≤ j < Z.of_nat (length a) →
  heapSwap i j a = Some (swap a i j).
Proof.
  intros. unfold heapSwap. rewrite !rd_in by done. simpl.
  rewrite wr_in by done. simpl. rewrite wr_in by (rewrite length_insert; lia).
  done.
Qed.

Lemma seg_swap_perm (a : list Z) n i j :
  n < Z.of_nat (length a) → 1 ≤ i ≤ n → 1 ≤ j ≤ n →
  seg (swap a i j) n ≡ₚ seg a n.
Proof.
  intros. unfold swap. rewrite !seg_upd by lia.
  apply exchange_perm.
  - rewrite seg_lookup by lia. rewrite <- rd_in by lia. unfold rd.
    destruct (Z.ltb_spec i 0); [lia|]. f_equal. lia.
  - rewrite seg_lookup by lia. rewrite <- rd_in by lia. unfold rd.
    destruct (Z.ltb_spec j 0); [lia|]. f_equal. lia.
Qed.

Lemma get_upd_ne' (a : list Z) i j v :
  0 ≤ i → j ≠ i → get (<[Z.to_nat i := v]> a) j = get a j.
Proof.
  intros Hi Hne. unfold get, rd.
  destruct (Z.ltb_spec j 0); [done|].
  rewrite list_lookup_insert_ne; [done|lia].
Qed.

(** * The heap *)

Ltac case_eqb :=
  repeat match goal with
  | |- context [?a =? ?b] => destruct (Z.eqb_spec a b); try lia
  end.

Lemma sift_up_spec fuel : ∀ (arr : list Z) n i,
  (Z.to_nat i < fuel)%nat → 1 ≤ i ≤ n → n < Z.of_nat (length arr) →
  up_inv arr n i →
  ∃ arr', sift_up fuel arr i = Some arr' ∧ length arr' = length arr ∧
          ordered arr' n ∧ seg arr' n ≡ₚ seg arr n.
Proof.
  induction fuel as [|fuel IH]; intros arr n i Hf Hi Hn [Hup1 Hup2]; [lia|].
  simpl. destruct (Z.ltb_spec 1 i) as [Hgt|Hle].
  - rewrite !rd_in by lia. simpl.
    destruct (Z.leb_spec (get arr (i ÷ 2)) (get arr i)) as [Hpc|Hpc].
    + exists arr. repeat split; [|done]. intros j Hj.
      destruct (decide (j = i)) as [->|]; [done|]. by apply Hup1.
    + rewrite heapSwap_in by lia. simpl.
      destruct (IH (swap arr (i ÷ 2) i) n (i ÷ 2)) as (arr' & -> & Hlen & Hord & Hperm).
      * lia.
      * lia.
      * rewrite length_swap. lia.
      * split; intros j Hj; [intros Hne|intros Hpar Hp2];
          rewrite !get_swap by lia; case_eqb;
          pose proof (Hup1 j) as Hj1; pose proof (Hup2 j);
          pose proof (Hup1 (i ÷ 2)); pose proof (Hup1 (j ÷ 2));
          try lia;
          match goal with e : j ÷ 2 = _ |- _ => rewrite e in Hj1 end; lia.
      * exists arr'. rewrite Hlen, length_swap, Hperm.
        repeat split; [done|]. apply seg_swap_perm; lia.
  - exists arr. repeat split; [|done]. intros j Hj. apply Hup1; lia.
Qed.

Lemma sift_down_spec fuel : ∀ (arr : list Z) n i,
  (Z.to_nat (n - i) < fuel)%nat → 1 ≤ i → n < Z.of_nat (length arr) →
  down_inv arr n i →
  ∃ arr', sift_down fuel arr n i = Some arr' ∧ length arr' = length arr ∧
          ordered arr' n ∧ seg arr' n ≡ₚ seg arr n.
Proof.
  induction fuel as [|fuel IH]; intros arr n i Hf Hi Hn [Hd1 Hd2]; [lia|].
  cbn [sift_down].
  set (s1 := if 2 * i <=? n
             then (if get arr (2 * i) <? get arr i then 2 * i else i) else i).
  set (s2 := if 2 * i + 1 <=? n
             then (if get arr (2 * i + 1) <? get arr s1 then 2 * i + 1 else s1)
             else s1).
  assert (Hs1 : (if 2 * i <=? n
       then al ← rd arr (2 * i); ai ← rd arr i;
            Some (if al <? ai then 2 * i else i)
       else Some i) = Some s1).
  { subst s1. destruct (Z.leb_spec (2 * i) n); [|done].
    by rewrite !rd_in by lia. }
  rewrite Hs1. cbn [mbind option_bind].
  assert (Hs1r : s1 = i ∨ s1 = 2 * i ∧ 2 * i ≤ n ∧ get arr (2 * i) < get arr i).
  { subst s1. destruct (Z.leb_spec (2 * i) n); [|by left].
    destruct (Z.ltb_spec (get arr (2 * i)) (get arr i)); [right|left]; done. }
  assert (Hs2 : (if 2 * i + 1 <=? n
       then ar ← rd arr (2 * i + 1); am ← rd arr s1;
            Some (if ar <? am then 2 * i + 1 else s1)
       else Some s1) = Some s2).
  { subst s2. destruct (Z.leb_spec (2 * i + 1) n); [|done].
    rewrite !rd_in by lia. done. }
  rewrite Hs2. cbn [mbind option_bind].
  assert (Hmin : (2 * i ≤ n → get arr s2 ≤ get arr (2 * i)) ∧
                 (2 * i + 1 ≤ n → get arr s2 ≤ get arr (2 * i + 1)) ∧
                 get arr s2 ≤ get arr i ∧
                 (s2 = i ∨ (i < s2 ≤ n ∧ s2 ÷ 2 = i ∧ get arr s2 < get arr i))).
  { subst s2 s1. clear Hs1 Hs2 Hs1r.
    destruct (Z.ltb_spec (get arr (2 * i)) (get arr i));
    destruct (Z.leb_spec (2 * i) n), (Z.leb_spec (2 * i + 1) n);
      repeat (cbv iota;
              match goal with
              | |- context [?a <? ?b] => destruct (Z.ltb_spec a b)
              end); cbv iota; lia. }
  clearbody s2. clear Hs1 Hs2 Hs1r. clear s1.
  destruct Hmin as (Hl & Hr & Hle & Hcase).
  destruct (Z.eqb_spec s2 i) as [->|Hne].
  - exists arr. repeat split; [|done]. intros j Hj.
    destruct (decide (j ÷ 2 = i)) as [Hp|Hp]; [|by apply Hd1].
    rewrite Hp. assert (j = 2 * i ∨ j = 2 * i + 1) as [->| ->] by lia;
      [apply Hl|apply Hr]; lia.
  - destruct Hcase as [?|(Hrange & Hpar & Hlt)]; [done|].
    rewrite heapSwap_in by lia. simpl.
    destruct (IH (swap arr i s2) n s2) as (arr' & -> & Hlen & Hord & Hperm).
    + lia.
    + lia.
    + rewrite length_swap. lia.
    + split; intros j Hj; [intros Hnp|intros Hp Hp2];
        rewrite !get_swap by lia; case_eqb;
        pose proof (Hd1 j) as Hj1; pose proof (Hd2 j) as Hj2;
        pose proof (Hd2 s2);
        assert (H0 : j = 2 * i ∨ j = 2 * i + 1 ∨ j ÷ 2 ≠ i) by lia;
        first
          [ lia
          | subst j; lia
          | match goal with e : j ÷ 2 = _ |- _ => rewrite e in Hj1 end; lia
          | destruct H0 as [->|[->|?]]; lia ].
    + exists arr'. rewrite Hlen, length_swap, Hperm.
      repeat split; [done|]. apply seg_swap_perm; lia.
Qed.

Lemma ordered_root_min (arr : list Z) n i :
  ordered arr n → 1 ≤ i ≤ n → get arr 1 ≤ get arr i.
Proof.
  intros Hord. revert i.
  refine (well_founded_induction (Z.lt_wf 0) _ _). intros i IH Hi.
  destruct (decide (i = 1)) as [->|]; [done|].
  etrans; [apply (IH (i ÷ 2)); lia|]. apply Hord. lia.
Qed.

Lemma heapInsert_full v h :
  MAX_SLOTS ≤ heapSize h → heapInsert v h = Some h.
Proof.
  intros. unfold heapInsert. by destruct (Z.leb_spec MAX_SLOTS (heapSize h)); [|lia].
Qed.

Lemma heapInsert_spec v h :
  heap_inv h → heapSize h < MAX_SLOTS →
  ∃ h', heapInsert v h = Some h' ∧ heap_inv h' ∧
        heapSize h' = heapSize h + 1 ∧
        heap_elems h' ≡ₚ v :: heap_elems h.
Proof.
  intros (Hlen & Hsz & Hord) Hlt. unfold heapInsert, MAX_SLOTS in *.
  destruct (Z.leb_spec 10 (heapSize h)); [lia|].
  rewrite wr_in by lia. cbn [mbind option_bind].
  set (n := heapSize h) in *. set (arr := heapArr h) in *.
  destruct (sift_up_spec (S (Z.to_nat (n + 1)))
              (<[Z.to_nat (n + 1) := v]> arr) (n + 1) (n + 1))
    as (arr' & -> & Hlen' & Hord' & Hperm).
  - lia.
  - lia.
  - rewrite length_insert. lia.
  - split; intros j Hj; [intros Hne|intros Hpar; lia].
    rewrite !get_upd_ne' by lia. apply Hord. lia.
  - eexists. split; [done|]. rewrite length_insert in Hlen'.
    split; [|split; [done|]].
    { split; [cbn; congruence|]. split; [cbn; unfold MAX_SLOTS; lia|done]. }
    unfold heap_elems. cbn [heapArr heapSize]. rewrite Hperm.
    rewrite seg_snoc by (rewrite ?length_insert; lia).
    rewrite seg_upd_out by lia. rewrite get_upd_eq by lia.
    symmetry. apply Permutation_cons_append.
Qed.

Lemma heapRemoveMin_empty h :
  heapSize h = 0 → heapRemoveMin h = Some (-1, h).
Proof. intros H. unfold heapRemoveMin. by rewrite H. Qed.

Lemma heapRemoveMin_spec h :
  heap_inv h → 0 < heapSize h →
  ∃ h', heapRemoveMin h = Some (get (heapArr h) 1, h') ∧ heap_inv h' ∧
        heapSize h' = heapSize h - 1 ∧
        heap_elems h ≡ₚ get (heapArr h) 1 :: heap_elems h' ∧
        ∀ x, x ∈ heap_elems h → get (heapArr h) 1 ≤ x.
Proof.
  intros (Hlen & Hsz & Hord) Hpos. unfold heapRemoveMin, MAX_SLOTS in *.
  destruct (Z.eqb_spec (heapSize h) 0) as [|_]; [lia|].
  rewrite !rd_in by lia. cbn [mbind option_bind].
  rewrite wr_in by lia. cbn [mbind option_bind].
  set (n := heapSize h) in *. set (arr := heapArr h) in *.
  destruct (sift_down_spec (S (Z.to_nat (n - 1)))
              (<[Z.to_nat 1 := get arr n]> arr) (n - 1) 1)
    as (arr' & -> & Hlen' & Hord' & Hperm).
  - lia.
  - lia.
  - rewrite length_insert. lia.
  - split; intros j Hj; [intros Hne|intros Hpar; lia].
    rewrite !get_upd_ne' by lia. apply Hord. lia.
  - eexists. split; [done|]. rewrite length_insert in Hlen'.
    split; [|split; [done|split]].
    + split; [cbn; congruence|]. split; [cbn; unfold MAX_SLOTS; lia|done].
    + unfold heap_elems. cbn [heapArr heapSize]. rewrite Hperm. fold n arr.
      replace n with (n - 1 + 1) at 1 by lia.
      rewrite seg_snoc by lia. replace (n - 1 + 1) with n by lia.
      destruct (decide (n = 1)) as [Hn1|Hn1].
      * rewrite Hn1. done.
      * rewrite seg_upd by lia.
        assert (Hhd : seg arr (n - 1) !! 0%nat = Some (get arr 1)).
        { rewrite seg_lookup by lia. rewrite <- rd_in by lia. done. }
        destruct (seg arr (n - 1)) as [|x t]; simplify_eq/=.
        cbn. constructor. symmetry. apply Permutation_cons_append.
    + intros x Hx. apply elem_of_seg in Hx as (i & Hi & <-); [|subst n arr; lia].
      by apply (ordered_root_min arr n).
Qed.

(** Inserting 1, 2, ..., 10 in this order into the emptied heap never
    exchanges cells: each value is larger than its parent. *)
Lemma fill_heap_spec (arr : list Z) :
  length arr = 11%nat →
  fill_heap arr = Some (mkHeap (take 1 arr ++ [1; 2; 3; 4; 5; 6; 7; 8; 9; 10]) 10).
Proof.
  intros Hlen.
  do 12 (destruct arr as [|? arr]; try discriminate Hlen).
  reflexivity.
Qed.

Lemma fill_heap_inv (arr : list Z) h :
  length arr = 11%nat → fill_heap arr = Some h →
  heap_inv h ∧ heap_elems h = [1; 2; 3; 4; 5; 6; 7; 8; 9; 10].
Proof.
  intros Hlen. rewrite fill_heap_spec by done. intros [= <-].
  do 12 (destruct arr as [|? arr]; try discriminate Hlen).
  split; [|done]. repeat split; simpl; try (unfold MAX_SLOTS; lia).
  intros i Hi.
  assert (i = 2 ∨ i = 3 ∨ i = 4 ∨ i = 5 ∨ i = 6 ∨ i = 7 ∨ i = 8 ∨ i = 9 ∨ i = 10)
    as Hc by lia.
  repeat destruct Hc as [->|Hc]; try subst i; vm_compute; discriminate.
Qed.

Lemma heapInsert_inv v h h' :
  heap_inv h → heapInsert v h = Some h' → heap_inv h'.
Proof.
  intros Hinv Hins. destruct (decide (heapSize h < MAX_SLOTS)).
  - destruct (heapInsert_spec v h) as (h2 & ? & ? & _); [done..|]. congruence.
  - rewrite heapInsert_full in Hins by lia. congruence.
Qed.

Lemma heapRemoveMin_inv h m h' :
  heap_inv h → heapRemoveMin h = Some (m, h') → heap_inv h'.
Proof.
  intros Hinv Hrm. destruct (decide (0 < heapSize h)).
  - destruct (heapRemoveMin_spec h) as (h2 & ? & ? & _); [done..|]. congruence.
  - rewrite heapRemoveMin_empty in Hrm by (destruct Hinv as (_ & ? & _); lia).
    congruence.
Qed.

Lemma heap_reach_inv h : heap_reach h → heap_inv h.
Proof.
  induction 1 as [arr h Hlen Hfill|v h h' _ IH Hins|h m h' _ IH Hrm].
  - by apply (fill_heap_inv arr).
  - by apply (heapInsert_inv v h).
  - by apply (heapRemoveMin_inv h m).
Qed.

Lemma heap_elems_nil h :
  heap_inv h → (heap_elems h = [] ↔ heapSize h = 0).
Proof.
  intros (Hlen & Hsz & _). unfold MAX_SLOTS in *.
  pose proof (seg_length (heapArr h) (heapSize h)) as Hl.
  unfold heap_elems. split.
  - intros Hnil. rewrite Hnil in Hl. simpl in Hl. lia.
  - intros H0. apply length_zero_iff_nil. lia.
Qed.

(** * The waiting queue *)

Ltac wq_solve :=
  repeat split; unfold WAIT_CAP in *; intros; cbn in *;
  rewrite ?length_insert; lia || done.

Lemma length_contents (a : list Z) n : ∀ front,
  length (contents a front n) = n.
Proof. induction n as [|n IH]; intros front; simpl; [done|]. by rewrite IH. Qed.

Lemma length_queue_list q :
  length (queue_list q) = Z.to_nat (waitCount q).
Proof. apply length_contents. Qed.

Lemma contents_snoc (a : list Z) n : ∀ front,
  0 ≤ front < 10 →
  contents a front (S n) =
    contents a front n ++ [get a (Z.rem (front + Z.of_nat n) WAIT_CAP)].
Proof.
  unfold WAIT_CAP. induction n as [|n IH]; intros front Hf.
  - cbn [contents app]. do 2 f_equal. lia.
  - change (contents a front (S (S n)))
      with (get a front :: contents a (Z.rem (front + 1) WAIT_CAP) (S n)).
    unfold WAIT_CAP. rewrite IH by lia. cbn [contents app]. unfold WAIT_CAP.
    do 4 f_equal. lia.
Qed.

Lemma contents_upd (a : list Z) p v n : ∀ front,
  0 ≤ p < Z.of_nat (length a) → 0 ≤ front < 10 →
  (∀ k, 0 ≤ k < Z.of_nat n → Z.rem (front + k) 10 ≠ p) →
  contents (<[Z.to_nat p := v]> a) front n = contents a front n.
Proof.
  induction n as [|n IH]; intros front Hp Hf Hout; [done|].
  cbn [contents]. f_equal.
  - apply get_upd_ne'; [lia|]. specialize (Hout 0). lia.
  - unfold WAIT_CAP. apply IH; [done|lia|].
    intros k Hk. specialize (Hout (k + 1)). lia.
Qed.

Lemma enqueueWait_full c q :
  waitCount q = WAIT_CAP → enqueueWait c q = Some (0, q).
Proof. intros H. unfold enqueueWait. by rewrite H. Qed.

Lemma enqueueWait_spec c q :
  wq_inv q → waitCount q < WAIT_CAP →
  ∃ q', enqueueWait c q = Some (1, q') ∧ wq_inv q' ∧
        queue_list q' = queue_list q ++ [c] ∧
        waitCount q' = waitCount q + 1.
Proof.
  intros (Hlen & Hcnt & Hfront & Hempty & Hrear) Hlt.
  unfold enqueueWait, WAIT_CAP in *.
  destruct (Z.eqb_spec (waitCount q) 10) as [|_]; [lia|].
  rewrite wr_in by lia. cbn [mbind option_bind].
  eexists. split; [done|].
  destruct (Z.eqb_spec (waitCount q) 0) as [H0|Hn0].
  - destruct (Hempty H0) as [Hf Hr]. unfold queue_list. cbn.
    rewrite H0, Hf, Hr.
    change ((-1 + 1) `rem` 10) with 0. change (Z.to_nat (0 + 1)) with 1%nat.
    change (contents (waitQ q) 0 (Z.to_nat 0)) with (@nil Z).
    cbn [contents app]. rewrite get_upd_eq by lia.
    wq_solve.
  - split; [|split; [|done]].
    + wq_solve.
    + unfold queue_list. cbn.
      replace (Z.to_nat (waitCount q + 1)) with (S (Z.to_nat (waitCount q))) by lia.
      rewrite contents_snoc by lia. unfold WAIT_CAP.
      rewrite contents_upd by lia. f_equal. f_equal.
      rewrite Hrear by lia.
      replace (Z.rem (waitFront q + Z.of_nat (Z.to_nat (waitCount q))) 10)
        with (Z.rem (Z.rem (waitFront q + waitCount q - 1) 10 + 1) 10) by lia.
      apply get_upd_eq. lia.
Qed.

Lemma dequeueWait_empty q :
  waitCount q = 0 → dequeueWait q = Some (-1, q).
Proof. intros H. unfold dequeueWait. by rewrite H. Qed.

Lemma dequeueWait_spec q :
  wq_inv q → 0 < waitCount q →
  ∃ x xs q', queue_list q = x :: xs ∧ dequeueWait q = Some (x, q') ∧
             wq_inv q' ∧ queue_list q' = xs ∧
             waitCount q' = waitCount q - 1.
Proof.
  intros (Hlen & Hcnt & Hfront & Hempty & Hrear) Hpos.
  unfold dequeueWait, WAIT_CAP in *.
  destruct (Z.eqb_spec (waitCount q) 0) as [|_]; [lia|].
  rewrite rd_in by lia. cbn [mbind option_bind].
  unfold queue_list.
  replace (Z.to_nat (waitCount q)) with (S (Z.to_nat (waitCount q - 1))) by lia.
  cbn [contents]. do 3 eexists. split; [done|]. split; [done|].
  destruct (Z.eqb_spec (waitCount q - 1) 0) as [H0|Hn0].
  - rewrite H0. wq_solve.
  - wq_solve.
Qed.

(** The two loops of the waiting branch of [vehicleExit]. *)
Lemma drain_spec c n : ∀ q (soc tmp : list Z) removed,
  wq_inv q → Z.to_nat (waitCount q) = n →
  (length tmp + n ≤ 10)%nat → 0 ≤ c < Z.of_nat (length soc) →
  ∃ q', drain n c q soc tmp removed =
          Some (q',
                if bool_decide (c ∈ queue_list q)
                then <[Z.to_nat c := -1]> soc else soc,
                tmp ++ filter (λ x, x ≠ c) (queue_list q),
                removed || bool_decide (c ∈ queue_list q)) ∧
        wq_inv q' ∧ waitCount q' = 0.
Proof.
  induction n as [|n IH]; intros q soc tmp removed Hq Hn Htmp Hc.
  - assert (H0 : waitCount q = 0) by (destruct Hq as (_ & ? & _); lia).
    unfold queue_list. rewrite H0. cbn.
    rewrite app_nil_r, orb_false_r. eauto.
  - cbn [drain].
    destruct (dequeueWait_spec q) as (x & xs & q1 & Hql & -> & Hq1 & Hxs & Hcnt);
      [done|lia|].
    cbn [mbind option_bind]. rewrite Hql.
    destruct (Z.eqb_spec x c) as [->|Hne].
    + rewrite wr_in by done. cbn [mbind option_bind].
      destruct (IH q1 (<[Z.to_nat c := -1]> soc) tmp true) as (q' & -> & Hq' & H0);
        [done|lia|lia|by rewrite length_insert|].
      exists q'. split; [|done].
      rewrite Hxs, filter_cons_False by (intros ?; done).
      rewrite (bool_decide_eq_true_2 (c ∈ c :: xs)) by left.
      rewrite orb_true_r, list_insert_insert_eq.
      by destruct (bool_decide (c ∈ xs)).
    + destruct (Z.ltb_spec (Z.of_nat (length tmp)) WAIT_CAP) as [_|Hge];
        [|unfold WAIT_CAP in Hge; lia].
      destruct (IH q1 soc (tmp ++ [x]) removed) as (q' & -> & Hq' & H0);
        [done|lia|rewrite length_app; simpl; lia|done|].
      exists q'. split; [|done].
      rewrite filter_cons_True by done. rewrite <- app_assoc. cbn.
      rewrite Hxs.
      assert (Heq : bool_decide (c ∈ x :: xs) = bool_decide (c ∈ xs)).
      { apply bool_decide_ext. rewrite elem_of_cons.
        split; [intros [?|?]; [congruence|done]|by right]. }
      by rewrite Heq.
Qed.

Lemma refill_spec (tmp : list Z) : ∀ q,
  wq_inv q → (length tmp + Z.to_nat (waitCount q) ≤ 10)%nat →
  ∃ q', refill tmp q = Some q' ∧ wq_inv q' ∧
        queue_list q' = queue_list q ++ tmp ∧
        waitCount q' = waitCount q + Z.of_nat (length tmp).
Proof.
  induction tmp as [|w tmp IH]; intros q Hq Hlen.
  - exists q. cbn [refill length]. rewrite app_nil_r.
    split; [done|]. split; [done|]. split; [done|lia].
  - pose proof Hq as (_ & Hcnt & _). cbn [length] in Hlen.
    destruct (enqueueWait_spec w q) as (q1 & Henq & Hq1 & Hl1 & Hc1);
      [done|unfold WAIT_CAP; lia|].
    cbn [refill]. rewrite Henq. cbn [mbind option_bind].
    destruct (IH q1) as (q' & -> & Hq' & Hl' & Hc'); [done|lia|].
    exists q'. split; [done|]. split; [done|]. split; [|cbn [length]; lia].
    by rewrite Hl', Hl1, <- app_assoc.
Qed.

Lemma emptyQueue_inv q : length (waitQ q) = 10%nat → wq_inv (emptyQueue q).
Proof. intros. repeat split; unfold WAIT_CAP; cbn; lia || done. Qed.

Lemma filter_keep_all (c : Z) (l : list Z) :
  c ∉ l → filter (λ x, x ≠ c) l = l.
Proof.
  induction l as [|y l IH]; intros Hc; [done|].
  apply not_elem_of_cons in Hc as [Hne Hc].
  rewrite filter_cons_True by done. by rewrite IH.
Qed.

Lemma filter_remove_one (c : Z) (l : list Z) :
  NoDup l → c ∈ l →
  ∃ l1 l2, l = l1 ++ c :: l2 ∧ filter (λ x, x ≠ c) l = l1 ++ l2.
Proof.
  intros Hnd Hin. apply list_elem_of_split in Hin as (l1 & l2 & ->).
  exists l1, l2. split; [done|].
  apply NoDup_app in Hnd as (_ & Hdisj & Hnd2).
  apply NoDup_cons in Hnd2 as [Hc2 _].
  rewrite filter_app, filter_cons_False by (intros ?; done).
  f_equal; apply filter_keep_all; [|done].
  intros Hc1. apply (Hdisj c Hc1). left.
Qed.

(** * The ledger *)

Ltac unfold_ids := unfold is_slot, is_car, MAX_SLOTS, MAX_CARS, WAIT_CAP in *.

Ltac upd_simpl :=
  repeat rewrite get_upd by (rewrite ?length_insert; lia);
  repeat match goal with
  | |- context [?a =? ?b] => destruct (Z.eqb_spec a b); try subst
  end.

Lemma occupied_not_free h q soc stc c s :
  ledger_ok h q soc stc → is_car c → is_slot s → get soc c = s →
  s ∉ heap_elems h.
Proof.
  intros L Hc Hs Hsoc Hin. apply (ok_free _ _ _ _ L) in Hin as [_ Hfree].
  apply (ok_bij _ _ _ _ L s c Hs Hc) in Hsoc. unfold_ids. lia.
Qed.

(** A slot is taken by a car: some slot is occupied, so the heap is not
    full. *)
Lemma occupied_heap_room h q soc stc c s :
  ledger_ok h q soc stc → is_car c → is_slot s → get soc c = s →
  heapSize h < MAX_SLOTS.
Proof.
  intros L Hc Hs Hsoc.
  pose proof (occupied_not_free _ _ _ _ _ _ L Hc Hs Hsoc) as Hnot.
  destruct (ok_heap _ _ _ _ L) as (Hlen & Hsz & _).
  pose proof (seg_length (heapArr h) (heapSize h)) as Hl.
  fold (heap_elems h) in Hl.
  set (all := [1; 2; 3; 4; 5; 6; 7; 8; 9; 10]).
  assert (Hsub : heap_elems h ⊆+ filter (λ x, x ≠ s) all).
  { apply NoDup_submseteq; [apply (ok_free_nodup _ _ _ _ L)|].
    intros x Hx. apply list_elem_of_filter. split; [congruence|].
    apply (ok_free _ _ _ _ L) in Hx as [Hx _]. unfold_ids. subst all.
    assert (x = 1 ∨ x = 2 ∨ x = 3 ∨ x = 4 ∨ x = 5 ∨ x = 6 ∨ x = 7 ∨ x = 8
            ∨ x = 9 ∨ x = 10) as Hcase by lia.
    rewrite !elem_of_cons. tauto. }
  apply submseteq_length in Hsub.
  assert (Hlt : (length (filter (λ x, x ≠ s) all) < length all)%nat).
  { apply (length_filter_lt _ _ s); [|by intros ?].
    unfold_ids. subst all.
    assert (s = 1 ∨ s = 2 ∨ s = 3 ∨ s = 4 ∨ s = 5 ∨ s = 6 ∨ s = 7 ∨ s = 8
            ∨ s = 9 ∨ s = 10) as Hcase by lia.
    rewrite !elem_of_cons. tauto. }
  unfold_ids. simpl in Hlt. lia.
Qed.

Lemma release_ok h q soc stc c s h' :
  ledger_ok h q soc stc → is_car c → is_slot s → get soc c = s →
  heap_inv h' → heap_elems h' ≡ₚ s :: heap_elems h →
  ledger_ok h' q (<[Z.to_nat c := -1]> soc) (<[Z.to_nat s := -1]> stc).
Proof.
  intros L Hc Hs Hsoc Hh' Hperm.
  pose proof (occupied_not_free _ _ _ _ _ _ L Hc Hs Hsoc) as Hnot.
  destruct L as [Hh Hq Hlsoc Hlstc Hst Hocc Hbij Hfree Hnd Hwait Hwnd].
  pose proof (Hbij s c Hs Hc) as Hsc.
  split; rewrite ?length_insert; try done.
  - intros c' Hc'. specialize (Hst c' Hc'). unfold_ids. upd_simpl; tauto.
  - intros s' Hs'. specialize (Hocc s' Hs'). unfold_ids. upd_simpl; tauto.
  - intros s' c' Hs' Hc'. pose proof (Hbij s' c' Hs' Hc') as Hb1.
    pose proof (Hbij s c' Hs Hc') as Hb2. pose proof (Hbij s' c Hs' Hc) as Hb3.
    unfold_ids. upd_simpl; lia || tauto.
  - intros x. rewrite Hperm, elem_of_cons, Hfree. unfold_ids.
    upd_simpl; intuition lia.
  - rewrite Hperm. by apply NoDup_cons.
  - intros c'. rewrite Hwait. unfold_ids. upd_simpl; intuition lia.
Qed.

Lemma assign_ok h q soc stc c m h' q' :
  ledger_ok h q soc stc → is_car c → get soc c = -1 ∨ get soc c = -2 →
  wq_inv q' → NoDup (queue_list q') →
  (∀ x, x ∈ queue_list q' ↔ x ∈ queue_list q ∧ x ≠ c) →
  heap_inv h' → heap_elems h ≡ₚ m :: heap_elems h' →
  ledger_ok h' q' (<[Z.to_nat c := m]> soc) (<[Z.to_nat m := c]> stc).
Proof.
  intros L Hc Hsoc Hq' Hnd' Hin' Hh' Hperm.
  destruct L as [Hh Hq Hlsoc Hlstc Hst Hocc Hbij Hfree Hnd Hwait Hwnd].
  assert (Hm : is_slot m ∧ get stc m = -1).
  { apply Hfree. rewrite Hperm. left. }
  destruct Hm as [Hm Hmfree].
  rewrite Hperm in Hnd. apply NoDup_cons in Hnd as [Hmnot Hnd].
  split; rewrite ?length_insert; try done.
  - intros c' Hc'. specialize (Hst c' Hc'). unfold_ids. upd_simpl; tauto.
  - intros s' Hs'. specialize (Hocc s' Hs'). unfold_ids. upd_simpl; tauto.
  - intros s' c' Hs' Hc'. pose proof (Hbij s' c' Hs' Hc') as Hb1.
    pose proof (Hbij m c' Hm Hc') as Hb2. pose proof (Hbij s' c Hs' Hc) as Hb3.
    unfold_ids. upd_simpl; lia || tauto.
  - intros x. pose proof (Hfree x) as Hfx. rewrite Hperm, elem_of_cons in Hfx.
    unfold_ids. upd_simpl; intuition lia.
  - intros c'. rewrite Hin', Hwait. unfold_ids. upd_simpl; intuition lia.
Qed.

Lemma enqueue_ok h q soc stc c q' :
  ledger_ok h q soc stc → is_car c → get soc c = -1 →
  wq_inv q' → queue_list q' = queue_list q ++ [c] →
  ledger_ok h q' (<[Z.to_nat c := -2]> soc) stc.
Proof.
  intros L Hc Hsoc Hq' Hql.
  destruct L as [Hh Hq Hlsoc Hlstc Hst Hocc Hbij Hfree Hnd Hwait Hwnd].
  assert (Hnot : c ∉ queue_list q) by (rewrite Hwait; lia).
  split; rewrite ?length_insert; try done.
  - intros c' Hc'. specialize (Hst c' Hc'). unfold_ids. upd_simpl; tauto.
  - intros s' c' Hs' Hc'. pose proof (Hbij s' c' Hs' Hc') as Hb1.
    unfold_ids. upd_simpl; lia || tauto.
  - intros c'. rewrite Hql, elem_of_app, list_elem_of_singleton, Hwait.
    unfold_ids. upd_simpl; intuition lia.
  - rewrite Hql. apply NoDup_app. split; [done|]. split; [|apply NoDup_singleton].
    intros x Hx ->%list_elem_of_singleton. done.
Qed.

Lemma unqueue_ok h q soc stc c q' :
  ledger_ok h q soc stc → is_car c → get soc c = -2 →
  wq_inv q' → queue_list q' = filter (λ x, x ≠ c) (queue_list q) →
  ledger_ok h q' (<[Z.to_nat c := -1]> soc) stc.
Proof.
  intros L Hc Hsoc Hq' Hql.
  destruct L as [Hh Hq Hlsoc Hlstc Hst Hocc Hbij Hfree Hnd Hwait Hwnd].
  split; rewrite ?length_insert; try done.
  - intros c' Hc'. specialize (Hst c' Hc'). unfold_ids. upd_simpl; tauto.
  - intros s' c' Hs' Hc'. pose proof (Hbij s' c' Hs' Hc') as Hb1.
    unfold_ids. upd_simpl; lia || tauto.
  - intros c'. rewrite Hql, list_elem_of_filter, Hwait.
    unfold_ids. upd_simpl; intuition lia.
  - rewrite Hql. by apply NoDup_filter.
Qed.

(** * The operations of the menu *)

Ltac mstep := cbn [mbind option_bind].

Lemma in_range_true c : is_car c → in_range c = true.
Proof. unfold in_range. unfold_ids. intros. apply andb_true_iff. lia. Qed.

Lemma in_range_false c : ¬ is_car c → in_range c = false.
Proof. unfold in_range. unfold_ids. intros. apply andb_false_iff. lia. Qed.

Lemma in_range_spec c : in_range c = true ↔ is_car c.
Proof. unfold in_range. unfold_ids. rewrite andb_true_iff. lia. Qed.

Lemma fill_spec v n : ∀ lo (a : list Z),
  0 ≤ lo → lo + Z.of_nat n ≤ Z.of_nat (length a) →
  ∃ a', for_loop n lo (λ i a, wr a i v) a = Some a' ∧
        length a' = length a ∧
        ∀ j, get a' j =
             if (lo <=? j) && (j <? lo + Z.of_nat n) then v else get a j.
Proof.
  induction n as [|n IH]; intros lo a Hlo Hhi.
  - exists a. repeat split. intros j.
    destruct (Z.leb_spec lo j), (Z.ltb_spec j (lo + Z.of_nat 0)); simpl; lia || done.
  - cbn [for_loop]. rewrite wr_in by lia. mstep.
    destruct (IH (lo + 1) (<[Z.to_nat lo := v]> a)) as (a' & -> & Hlen & Hget);
      [lia|rewrite length_insert; lia|].
    exists a'. rewrite Hlen, length_insert. repeat split. intros j.
    rewrite Hget, get_upd by lia.
    destruct (Z.leb_spec (lo + 1) j), (Z.ltb_spec j (lo + 1 + Z.of_nat n)),
      (Z.leb_spec lo j), (Z.ltb_spec j (lo + Z.of_nat (S n))),
      (Z.eqb_spec j lo); simpl; lia || done.
Qed.

Lemma fill_all v n lo (a : list Z) :
  0 ≤ lo → 0 ≤ n → lo + n ≤ Z.of_nat (length a) →
  ∃ a', fill n lo v a = Some a' ∧ length a' = length a ∧
        (∀ j, lo ≤ j < lo + n → get a' j = v) ∧
        (∀ j, ¬ lo ≤ j < lo + n → get a' j = get a j).
Proof.
  intros Hlo Hn Hhi. unfold fill.
  destruct (fill_spec v (Z.to_nat n) lo a) as (a' & -> & Hlen & Hget); [lia..|].
  exists a'. repeat split; [done| |]; intros j Hj; rewrite Hget;
    destruct (Z.leb_spec lo j), (Z.ltb_spec j (lo + Z.of_nat (Z.to_nat n)));
    simpl; lia || done.
Qed.

(** The loops of [initSystem] and [emergencyMode] over the cars write
    several arrays in one pass; each array ends up as if filled alone. *)
Lemma reset3_fill n : ∀ lo (a b c : list Z),
  0 ≤ lo → lo + Z.of_nat n ≤ Z.of_nat (length a) →
  lo + Z.of_nat n ≤ Z.of_nat (length b) →
  lo + Z.of_nat n ≤ Z.of_nat (length c) →
  for_loop n lo
    (λ i '(soc, et, pu),
       soc' ← wr soc i (-1); et' ← wr et i 0; pu' ← wr pu i 0;
       Some (soc', et', pu')) (a, b, c) =
  (a' ← for_loop n lo (λ i a, wr a i (-1)) a;
   b' ← for_loop n lo (λ i a, wr a i 0) b;
   c' ← for_loop n lo (λ i a, wr a i 0) c;
   Some (a', b', c')).
Proof.
  induction n as [|n IH]; intros lo a b c Hlo Ha Hb Hc; [done|].
  cbn [for_loop]. rewrite !wr_in by lia. mstep.
  rewrite IH by (rewrite ?length_insert; lia). done.
Qed.

Lemma reset2_fill n : ∀ lo (a b : list Z),
  0 ≤ lo → lo + Z.of_nat n ≤ Z.of_nat (length a) →
  lo + Z.of_nat n ≤ Z.of_nat (length b) →
  for_loop n lo
    (λ i '(soc, et), soc' ← wr soc i (-1); et' ← wr et i 0; Some (soc', et'))
    (a, b) =
  (a' ← for_loop n lo (λ i a, wr a i (-1)) a;
   b' ← for_loop n lo (λ i a, wr a i 0) b;
   Some (a', b')).
Proof.
  induction n as [|n IH]; intros lo a b Hlo Ha Hb; [done|].
  cbn [for_loop]. rewrite !wr_in by lia. mstep.
  rewrite IH by (rewrite ?length_insert; lia). done.
Qed.

Lemma elem_of_slots s :
  s ∈ [1; 2; 3; 4; 5; 6; 7; 8; 9; 10] ↔ is_slot s.
Proof.
  unfold_ids. rewrite !elem_of_cons, elem_of_nil. lia.
Qed.

Lemma reset_ok h q (soc stc : list Z) :
  heap_inv h → heap_elems h = [1; 2; 3; 4; 5; 6; 7; 8; 9; 10] →
  length (waitQ q) = 10%nat →
  length soc = 100%nat → (∀ c, is_car c → get soc c = -1) →
  length stc = 11%nat → (∀ s, is_slot s → get stc s = -1) →
  ledger_ok h (emptyQueue q) soc stc.
Proof.
  intros Hh Hel Hlq Hlsoc Hsoc Hlstc Hstc.
  split; [done|by apply emptyQueue_inv|done|done|..].
  - intros c Hc. left. by apply Hsoc.
  - intros s Hs. left. by apply Hstc.
  - intros s c Hs Hc. rewrite Hsoc, Hstc by done. unfold_ids. lia.
  - intros s. rewrite Hel, elem_of_slots. split; [|tauto].
    intros Hs. split; [done|]. by apply Hstc.
  - rewrite Hel. apply (bool_decide_unpack _). by vm_compute.
  - intros c. unfold queue_list. cbn. rewrite elem_of_nil. split; [done|].
    intros [Hc Hw]. rewrite Hsoc in Hw by done. lia.
  - unfold queue_list. cbn. apply NoDup_nil_2.
Qed.

Lemma initSystem_inv st : initSystem boot = Some st → Inv st.
Proof.
  unfold initSystem, boot.
  cbn [heap wq slotOfCar entryTimeOfCar passUser slotToCar heapArr].
  set (a11 := replicate 11 0). set (a100 := replicate 100 0).
  assert (H11 : length a11 = 11%nat) by apply length_replicate.
  assert (H100 : length a100 = 100%nat) by apply length_replicate.
  destruct (fill_heap_inv a11 _ H11 (fill_heap_spec a11 H11)) as [Hh Hel].
  rewrite (fill_heap_spec a11 H11). mstep.
  rewrite reset3_fill by (rewrite ?H100; unfold MAX_CARS; lia).
  destruct (fill_all (-1) MAX_CARS 0 a100) as (soc & Hfs & Hlsoc & Hsoc & _);
    [lia|unfold MAX_CARS; lia|rewrite H100; unfold MAX_CARS; lia|].
  unfold fill in Hfs. rewrite Hfs. mstep.
  destruct (fill_all 0 MAX_CARS 0 a100) as (et & Hfe & Hlet & _);
    [lia|unfold MAX_CARS; lia|rewrite H100; unfold MAX_CARS; lia|].
  unfold fill in Hfe. rewrite Hfe. mstep.
  destruct (fill_all (-1) (MAX_SLOTS + 1) 0 a11) as (stc & -> & Hlstc & Hstc & _);
    [lia|unfold MAX_SLOTS; lia|rewrite H11; unfold MAX_SLOTS; lia|].
  mstep. intros [= <-].
  rewrite H100 in Hlsoc, Hlet. rewrite H11 in Hlstc.
  split; [|split; [exact Hlet|split; [exact Hlet|cbn; lia]]].
  cbn [heap wq slotOfCar slotToCar].
  apply (reset_ok _ (mkWQ (replicate 10 0) 0 (-1) 0) soc stc Hh Hel
           (length_replicate 10 0) Hlsoc).
  - intros c Hc. apply Hsoc. unfold_ids. lia.
  - exact Hlstc.
  - intros s Hs. apply Hstc. unfold_ids. lia.
Qed.

Lemma initSystem_boot : ∃ st, initSystem boot = Some st.
Proof. by eexists; vm_compute. Qed.

(** ** emergencyMode *)

Lemma emergencyMode_spec st :
  Inv st →
  ∃ h soc et stc,
    emergencyMode st =
      Some (mkState h (emptyQueue (wq st)) soc et (passUser st) stc
                    (history st) (totalRevenue st), EmergencyCleared) ∧
    heap_inv h ∧ heap_elems h = [1; 2; 3; 4; 5; 6; 7; 8; 9; 10] ∧
    length soc = 100%nat ∧ (∀ c, is_car c → get soc c = -1) ∧
    length et = 100%nat ∧ (∀ c, is_car c → get et c = 0) ∧
    length stc = 11%nat ∧ (∀ s, is_slot s → get stc s = -1).
Proof.
  intros (L & Hlet & Hlpu & _).
  destruct L as [Hh Hq Hlsoc Hlstc _ _ _ _ _ _ _].
  destruct Hh as (Hlh & _).
  unfold emergencyMode.
  rewrite reset2_fill by (unfold_ids; lia).
  destruct (fill_all (-1) MAX_CARS 0 (slotOfCar st)) as (soc & Hfs & Hlsoc' & Hsoc & _);
    [done|done|unfold_ids; lia|]. unfold fill in Hfs. rewrite Hfs. mstep.
  destruct (fill_all 0 MAX_CARS 0 (entryTimeOfCar st)) as (et & Hfe & Hlet' & Het & _);
    [done|done|unfold_ids; lia|]. unfold fill in Hfe. rewrite Hfe. mstep.
  destruct (fill_all (-1) MAX_SLOTS 1 (slotToCar st)) as (stc & -> & Hlstc' & Hstc & _);
    [done|done|unfold_ids; lia|]. mstep.
  rewrite fill_heap_spec by done. mstep.
  destruct (fill_heap_inv (heapArr (heap st)) _ Hlh (fill_heap_spec _ Hlh)) as [Hh' Hel].
  do 4 eexists. split; [done|].
  split; [done|]. split; [done|]. split; [congruence|].
  split; [intros c Hc; apply Hsoc; unfold_ids; lia|].
  split; [congruence|].
  split; [intros c Hc; apply Het; unfold_ids; lia|].
  split; [congruence|].
  intros s Hs. apply Hstc. unfold_ids. lia.
Qed.

Lemma emergencyMode_inv st :
  Inv st → ∃ st', emergencyMode st = Some (st', EmergencyCleared) ∧ Inv st'.
Proof.
  intros HI.
  destruct (emergencyMode_spec st HI)
    as (h & soc & et & stc & -> & Hh & Hel & Hlsoc & Hsoc & Hlet & _ & Hlstc & Hstc).
  eexists. split; [done|].
  destruct HI as (L & _ & Hlpu & _).
  split; [|split; [done|split; [done|cbn; lia]]].
  apply reset_ok; try done. apply L.
Qed.

(** ** addMonthlyPass *)

Lemma addMonthlyPass_invalid c st :
  ¬ is_car c → addMonthlyPass c st = Some (st, InvalidVehicleId).
Proof. intros. unfold addMonthlyPass. by rewrite in_range_false. Qed.

Lemma addMonthlyPass_spec c st :
  Inv st → is_car c →
  addMonthlyPass c st =
    Some (mkState (heap st) (wq st) (slotOfCar st) (entryTimeOfCar st)
                  (<[Z.to_nat c := 1]> (passUser st)) (slotToCar st)
                  (history st) (totalRevenue st), PassRegistered c).
Proof.
  intros (_ & _ & Hlpu & _) Hc. unfold addMonthlyPass.
  rewrite in_range_true by done. cbn [negb].
  rewrite wr_in by (unfold_ids; lia). done.
Qed.

Lemma addMonthlyPass_inv c st :
  Inv st → ∃ st' out, addMonthlyPass c st = Some (st', out) ∧ Inv st'.
Proof.
  intros HI. destruct (decide (is_car c)) as [Hc|Hc].
  - rewrite addMonthlyPass_spec by done. do 2 eexists. split; [done|].
    destruct HI as (L & Hlet & Hlpu & Hfull).
    split; [done|]. split; [done|]. split; [|done]. cbn. by rewrite length_insert.
  - rewrite addMonthlyPass_invalid by done. eauto.
Qed.

(** ** vehicleEntry *)

Lemma Inv_lengths st :
  Inv st →
  length (slotOfCar st) = 100%nat ∧ length (entryTimeOfCar st) = 100%nat ∧
  length (passUser st) = 100%nat ∧ length (slotToCar st) = 11%nat.
Proof. intros (L & ? & ? & _). split; [apply L|]. do 2 (split; [done|]). apply L. Qed.

Ltac Inv_split :=
  unfold Inv;
  cbn [heap wq slotOfCar entryTimeOfCar passUser slotToCar history totalRevenue];
  split; [|split; [|split]]; rewrite ?length_insert; try done.

Ltac in_bounds := rewrite ?length_insert; unfold_ids; lia.

Lemma state_eta st :
  mkState (heap st) (wq st) (slotOfCar st) (entryTimeOfCar st) (passUser st)
          (slotToCar st) (history st) (totalRevenue st) = st.
Proof. by destruct st. Qed.

Lemma canEnter_invalid c st :
  ¬ is_car c → canEnter c st = Some (Rejected InvalidVehicleId).
Proof. intros. unfold canEnter. by rewrite in_range_false. Qed.

Lemma canEnter_car c st :
  Inv st → is_car c →
  canEnter c st =
    Some (if 1 <=? get (slotOfCar st) c then Rejected (DuplicateParked c)
          else if get (slotOfCar st) c =? -2 then Rejected (DuplicateWaiting c)
          else CanEnter).
Proof.
  intros (L & _) Hc. unfold canEnter. rewrite in_range_true by done.
  cbn [negb]. rewrite rd_in by (rewrite (ok_len_soc _ _ _ _ L); unfold_ids; lia).
  mstep. by repeat case_match.
Qed.

Lemma vehicleEntry_invalid c now mem st :
  ¬ is_car c → vehicleEntry c now mem st = Some (st, InvalidVehicleId).
Proof. intros. unfold vehicleEntry. by rewrite canEnter_invalid. Qed.

Lemma vehicleEntry_parked_dup c now mem st :
  Inv st → is_car c → is_slot (get (slotOfCar st) c) →
  vehicleEntry c now mem st = Some (st, DuplicateParked c).
Proof.
  intros HI Hc Hs. unfold vehicleEntry. rewrite canEnter_car by done.
  destruct (Z.leb_spec 1 (get (slotOfCar st) c)); [done|unfold_ids; lia].
Qed.

Lemma vehicleEntry_waiting_dup c now mem st :
  Inv st → is_car c → get (slotOfCar st) c = -2 →
  vehicleEntry c now mem st = Some (st, DuplicateWaiting c).
Proof.
  intros HI Hc Hs. unfold vehicleEntry. rewrite canEnter_car by done.
  by rewrite Hs.
Qed.

Lemma vehicleEntry_full c now mem st :
  Inv st → is_car c → get (slotOfCar st) c = -1 →
  heapSize (heap st) = 0 → waitCount (wq st) = WAIT_CAP →
  vehicleEntry c now mem st = Some (st, FacilityFull).
Proof.
  intros HI Hc Hs Hh Hw. unfold vehicleEntry. rewrite canEnter_car by done.
  rewrite Hs. cbn -[heapRemoveMin]. rewrite heapRemoveMin_empty by done. mstep.
  cbn -[enqueueWait]. rewrite Hw. cbn. by rewrite state_eta.
Qed.

Lemma vehicleEntry_queued c now mem st :
  Inv st → is_car c → get (slotOfCar st) c = -1 →
  heapSize (heap st) = 0 → waitCount (wq st) < WAIT_CAP →
  ∃ q, enqueueWait c (wq st) = Some (1, q) ∧ wq_inv q ∧
       queue_list q = queue_list (wq st) ++ [c] ∧
       waitCount q = waitCount (wq st) + 1 ∧
       vehicleEntry c now mem st =
         Some (mkState (heap st) q (<[Z.to_nat c := -2]> (slotOfCar st))
                       (entryTimeOfCar st) (passUser st) (slotToCar st)
                       (history st) (totalRevenue st),
               Queued c (waitCount q)).
Proof.
  intros HI Hc Hs Hh Hw. pose proof HI as (L & _).
  pose proof (Inv_lengths st HI) as (Hlsoc & Hlet & Hlpu & Hlstc).
  destruct (enqueueWait_spec c (wq st)) as (q & Henq & Hq & Hql & Hcnt);
    [apply L|done|].
  exists q. do 4 (split; [done|]).
  unfold vehicleEntry. rewrite canEnter_car by done.
  rewrite Hs. cbn -[heapRemoveMin]. rewrite heapRemoveMin_empty by done. mstep.
  cbn -[enqueueWait]. destruct (Z.eqb_spec (waitCount (wq st)) WAIT_CAP); [lia|].
  rewrite Henq. mstep. cbn -[wr].
  by rewrite wr_in by in_bounds.
Qed.

Lemma vehicleEntry_parked c now mem st :
  Inv st → is_car c → get (slotOfCar st) c = -1 →
  0 < heapSize (heap st) →
  ∃ m h, heapRemoveMin (heap st) = Some (m, h) ∧ heap_inv h ∧
         heap_elems (heap st) ≡ₚ m :: heap_elems h ∧
         (∀ x, x ∈ heap_elems (heap st) → m ≤ x) ∧
         vehicleEntry c now mem st =
           Some (mkState h (wq st) (<[Z.to_nat c := m]> (slotOfCar st))
                         (<[Z.to_nat c := now]> (entryTimeOfCar st))
                         (passUser st)
                         (<[Z.to_nat m := c]> (slotToCar st))
                         (addHistoryNode mem c m now 0 (history st))
                         (totalRevenue st),
                 Parked c m now).
Proof.
  intros HI Hc Hs Hh. pose proof HI as (L & _).
  pose proof (Inv_lengths st HI) as (Hlsoc & Hlet & Hlpu & Hlstc).
  destruct (heapRemoveMin_spec (heap st)) as (h & Hrm & Hh' & Hsz & Hperm & Hmin);
    [apply L|done|].
  set (m := get (heapArr (heap st)) 1) in *. clearbody m.
  assert (Hm : is_slot m ∧ get (slotToCar st) m = -1).
  { apply (ok_free _ _ _ _ L). rewrite Hperm. left. }
  destruct Hm as [Hm _].
  exists m, h. do 4 (split; [done|]).
  unfold vehicleEntry. rewrite canEnter_car by done.
  rewrite Hs. cbn -[heapRemoveMin]. rewrite Hrm. mstep. cbn -[wr].
  destruct (Z.eqb_spec m (-1)); [unfold_ids; lia|].
  by rewrite !wr_in by in_bounds.
Qed.

Lemma queue_same_without (q : WaitQueue) (soc : list Z) c h stc :
  ledger_ok h q soc stc → get soc c = -1 →
  ∀ x, x ∈ queue_list q ↔ x ∈ queue_list q ∧ x ≠ c.
Proof.
  intros L Hs x. split; [|tauto]. intros Hx. split; [done|]. intros ->.
  apply (ok_wait _ _ _ _ L) in Hx. lia.
Qed.

Lemma vehicleEntry_inv c now mem st :
  Inv st → ∃ st' out, vehicleEntry c now mem st = Some (st', out) ∧ Inv st'.
Proof.
  intros HI. pose proof HI as (L & Hlet & Hlpu & Hfull).
  destruct (decide (is_car c)) as [Hc|Hc];
    [|rewrite vehicleEntry_invalid by done; eauto].
  destruct (ok_status _ _ _ _ L c Hc) as [Hs|[Hs|Hs]].
  - pose proof (ok_heap _ _ _ _ L) as (_ & Hhsz & _).
    pose proof (ok_wq _ _ _ _ L) as (_ & Hwsz & _).
    destruct (decide (0 < heapSize (heap st))) as [Hh|Hh].
    + destruct (vehicleEntry_parked c now mem st) as (m & h & _ & Hh' & Hperm & _ & ->);
        [done..|].
      do 2 eexists. split; [done|]. Inv_split.
      * apply (assign_ok (heap st) (wq st) _ _ c m h (wq st) L Hc
                 (or_introl Hs) (ok_wq _ _ _ _ L) (ok_wait_nodup _ _ _ _ L)
                 (queue_same_without _ _ _ _ _ L Hs) Hh' Hperm).
      * intros Hw. specialize (Hfull Hw). lia.
    + destruct (decide (waitCount (wq st) < WAIT_CAP)) as [Hw|Hw].
      * destruct (vehicleEntry_queued c now mem st) as (q & _ & Hq & Hql & _ & ->);
          [done|done|done|lia|done|].
        do 2 eexists. split; [done|]. Inv_split; [|lia].
        by apply (enqueue_ok _ (wq st)).
      * rewrite vehicleEntry_full by (done || lia). eauto.
  - rewrite vehicleEntry_waiting_dup by done. eauto.
  - rewrite vehicleEntry_parked_dup by done. eauto.
Qed.

(** ** vehicleExit *)

Lemma vehicleExit_invalid c now now2 mem st :
  ¬ is_car c → vehicleExit c now now2 mem st = Some (st, InvalidVehicleId).
Proof. intros. unfold vehicleExit. by rewrite in_range_false. Qed.

Lemma vehicleExit_absent c now now2 mem st :
  Inv st → is_car c → get (slotOfCar st) c = -1 →
  vehicleExit c now now2 mem st = Some (st, NotParked c).
Proof.
  intros HI Hc Hs.
  pose proof (Inv_lengths st HI) as (Hlsoc & Hlet & Hlpu & Hlstc).
  unfold vehicleExit. rewrite in_range_true by done. cbn [negb].
  rewrite (rd_in (slotOfCar st)) by in_bounds. mstep. by rewrite Hs.
Qed.

Lemma queue_list_empty q : waitCount q = 0 → queue_list q = [].
Proof. intros H. unfold queue_list. by rewrite H. Qed.

Lemma vehicleExit_waiting c now now2 mem st :
  Inv st → is_car c → get (slotOfCar st) c = -2 →
  ∃ q l1 l2,
    vehicleExit c now now2 mem st =
      Some (mkState (heap st) q (<[Z.to_nat c := -1]> (slotOfCar st))
                    (entryTimeOfCar st) (passUser st) (slotToCar st)
                    (history st) (totalRevenue st),
            RemovedFromQueue c) ∧
    wq_inv q ∧
    queue_list (wq st) = l1 ++ c :: l2 ∧ queue_list q = l1 ++ l2 ∧
    queue_list q = filter (λ x, x ≠ c) (queue_list (wq st)) ∧
    waitCount q = waitCount (wq st) - 1.
Proof.
  intros HI Hc Hs. pose proof HI as (L & _).
  pose proof (Inv_lengths st HI) as (Hlsoc & Hlet & Hlpu & Hlstc).
  pose proof (ok_wq _ _ _ _ L) as Hq. pose proof Hq as (_ & Hcnt & _).
  assert (Hin : c ∈ queue_list (wq st)) by (by apply (ok_wait _ _ _ _ L)).
  destruct (filter_remove_one c (queue_list (wq st)) (ok_wait_nodup _ _ _ _ L) Hin)
    as (l1 & l2 & Hsplit & Hfilter).
  pose proof (length_queue_list (wq st)) as Hlen.
  destruct (drain_spec c (Z.to_nat (waitCount (wq st))) (wq st) (slotOfCar st) [] false)
    as (q0 & Hdrain & Hq0 & Hc0); [done|done|cbn; unfold_ids; lia|in_bounds|].
  rewrite bool_decide_eq_true_2 in Hdrain by done. cbn [app orb] in Hdrain.
  assert (Hfl : (length (filter (λ x, x ≠ c) (queue_list (wq st)))
                 = length (queue_list (wq st)) - 1)%nat).
  { rewrite Hfilter, Hsplit, !length_app. cbn. lia. }
  assert (Hpos : (1 ≤ length (queue_list (wq st)))%nat).
  { rewrite Hsplit, length_app. cbn. lia. }
  destruct (refill_spec (filter (λ x, x ≠ c) (queue_list (wq st))) q0)
    as (q & Hrefill & Hq' & Hql & Hcnt');
    [done|rewrite Hfl, Hlen, Hc0; unfold_ids; clear -Hcnt; lia|].
  rewrite (queue_list_empty q0 Hc0) in Hql. cbn [app] in Hql.
  exists q, l1, l2. split.
  - unfold vehicleExit. rewrite in_range_true by done. cbn [negb].
    rewrite (rd_in (slotOfCar st)) by in_bounds. mstep. rewrite Hs. cbn -[drain refill].
    rewrite Hdrain. mstep. cbn -[refill]. rewrite Hrefill. done.
  - split; [done|]. split; [done|]. split; [congruence|]. split; [done|].
    rewrite Hcnt', Hc0, Hfl, Hlen. rewrite Hlen in Hpos. clear -Hpos. lia.
Qed.

Lemma vehicleExit_parked c now now2 mem st s :
  Inv st → is_car c → get (slotOfCar st) c = s → is_slot s →
  let secs := elapsed now (get (entryTimeOfCar st) c) in
  let fee := fee_of (get (passUser st) c) secs in
  let rev := wrap32 (totalRevenue st + fee) in
  let hist := closeHistory c s now (history st) in
  let soc := <[Z.to_nat c := -1]> (slotOfCar st) in
  let et := <[Z.to_nat c := 0]> (entryTimeOfCar st) in
  let stc := <[Z.to_nat s := -1]> (slotToCar st) in
  ∃ h, heapInsert s (heap st) = Some h ∧ heap_inv h ∧
       heapSize h = heapSize (heap st) + 1 ∧
       heap_elems h ≡ₚ s :: heap_elems (heap st) ∧
       ledger_ok h (wq st) soc stc ∧
       (waitCount (wq st) = 0 →
        vehicleExit c now now2 mem st =
          Some (mkState h (wq st) soc et (passUser st) stc hist rev,
                Exited c s fee secs NoPromotion)) ∧
       (0 < waitCount (wq st) →
        ∃ next rest q m h',
          queue_list (wq st) = next :: rest ∧
          dequeueWait (wq st) = Some (next, q) ∧
          wq_inv q ∧ queue_list q = rest ∧
          waitCount q = waitCount (wq st) - 1 ∧
          is_car next ∧ get soc next = -2 ∧
          heapRemoveMin h = Some (m, h') ∧ m ≠ -1 ∧ heap_inv h' ∧
          heapSize h' = heapSize h - 1 ∧
          heap_elems h ≡ₚ m :: heap_elems h' ∧
          (∀ x, x ∈ heap_elems h → m ≤ x) ∧
          vehicleExit c now now2 mem st =
            Some (mkState h' q (<[Z.to_nat next := m]> soc)
                          (<[Z.to_nat next := now2]> et) (passUser st)
                          (<[Z.to_nat m := next]> stc)
                          (addHistoryNode mem next m now2 0 hist) rev,
                  Exited c s fee secs (Promoted next m now2))).
Proof.
  intros HI Hc Hs Hslot secs fee rev hist soc et stc.
  pose proof HI as (L & _ & _ & Hfull).
  pose proof (Inv_lengths st HI) as (Hlsoc & Hlet & Hlpu & Hlstc).
  pose proof (ok_wq _ _ _ _ L) as Hq. pose proof Hq as (_ & Hcnt & _).
  destruct (heapInsert_spec s (heap st)) as (h & Hins & Hh & Hsz & Hperm);
    [apply L|by apply (occupied_heap_room _ _ _ _ c s L)|].
  pose proof (release_ok _ _ _ _ c s h L Hc Hslot Hs Hh Hperm) as L1.
  fold soc stc in L1.
  assert (Hpre :
            vehicleExit c now now2 mem st =
              (if 0 <? waitCount (wq st) then
                 '(next, q) ← dequeueWait (wq st);
                 if in_range next then
                   '(newSlot, h') ← heapRemoveMin h;
                   if newSlot =? -1 then
                     '(_, q') ← enqueueWait next q;
                     Some (mkState h' q' soc et (passUser st) stc hist rev,
                           Exited c s fee secs (Requeued next))
                   else
                     soc' ← wr soc next newSlot;
                     et' ← wr et next now2;
                     stc' ← wr stc newSlot next;
                     Some (mkState h' q soc' et' (passUser st) stc'
                                   (addHistoryNode mem next newSlot now2 0 hist) rev,
                           Exited c s fee secs (Promoted next newSlot now2))
                 else
                   Some (mkState h q soc et (passUser st) stc hist rev,
                         Exited c s fee secs (Skipped next))
               else
                 Some (mkState h (wq st) soc et (passUser st) stc hist rev,
                       Exited c s fee secs NoPromotion))).
  { unfold vehicleExit. rewrite in_range_true by done. cbn [negb].
    rewrite (rd_in (slotOfCar st)) by in_bounds. mstep. rewrite Hs.
    destruct (Z.eqb_spec s (-1)); [unfold_ids; lia|].
    destruct (Z.eqb_spec s (-2)); [unfold_ids; lia|].
    rewrite !rd_in by in_bounds. mstep.
    rewrite !wr_in by in_bounds. mstep. rewrite Hins. mstep. done. }
  exists h. do 5 (split; [done|]). split.
  - intros H0. rewrite Hpre. by destruct (Z.ltb_spec 0 (waitCount (wq st))); [lia|].
  - intros Hpos.
    destruct (dequeueWait_spec (wq st)) as (next & rest & q & Hql & Hdq & Hq1 & Hrest & Hcnt1);
      [done..|].
    assert (Hnext : is_car next ∧ get (slotOfCar st) next = -2).
    { apply (ok_wait _ _ _ _ L). rewrite Hql. left. }
    destruct Hnext as [Hnext Hnw].
    assert (Hnw' : get soc next = -2).
    { subst soc. rewrite get_upd by in_bounds.
      destruct (Z.eqb_spec next c); [subst; unfold_ids; lia|done]. }
    destruct (heapRemoveMin_spec h) as (h' & Hrm & Hh' & Hsz' & Hperm' & Hmin);
      [done|destruct (ok_heap _ _ _ _ L) as (_ & ? & _); lia|].
    set (m := get (heapArr h) 1) in *. clearbody m.
    assert (Hm : is_slot m).
    { apply (ok_free _ _ _ _ L1). rewrite Hperm'. left. }
    exists next, rest, q, m, h'. do 7 (split; [done|]).
    split; [done|]. split; [unfold_ids; lia|]. do 4 (split; [done|]).
    rewrite Hpre. destruct (Z.ltb_spec 0 (waitCount (wq st))); [|lia].
    rewrite Hdq. mstep. cbn -[heapRemoveMin wr in_range].
    rewrite in_range_true by done. rewrite Hrm. mstep. cbn -[wr].
    destruct (Z.eqb_spec m (-1)); [unfold_ids; lia|].
    subst soc et stc. by rewrite !wr_in by in_bounds.
Qed.

Lemma vehicleExit_inv c now now2 mem st :
  Inv st → ∃ st' out, vehicleExit c now now2 mem st = Some (st', out) ∧ Inv st'.
Proof.
  intros HI. pose proof HI as (L & Hlet & Hlpu & Hfull).
  destruct (decide (is_car c)) as [Hc|Hc];
    [|rewrite vehicleExit_invalid by done; eauto].
  destruct (ok_status _ _ _ _ L c Hc) as [Hs|[Hs|Hs]].
  - rewrite vehicleExit_absent by done. eauto.
  - destruct (vehicleExit_waiting c now now2 mem st)
      as (q & l1 & l2 & -> & Hq & _ & _ & Hql & Hcnt); [done..|].
    do 2 eexists. split; [done|]. Inv_split.
    + by apply (unqueue_ok _ (wq st)).
    + intros Hpos. apply Hfull. lia.
  - destruct (vehicleExit_parked c now now2 mem st _ HI Hc eq_refl Hs)
      as (h & _ & Hh & Hsz & Hperm & L1 & Hnone & Hsome).
    destruct (decide (0 < waitCount (wq st))) as [Hpos|Hzero].
    + destruct (Hsome Hpos)
        as (next & rest & q & m & h' & Hql & _ & Hq & Hrest & Hcnt & Hnext & Hnw
            & _ & _ & Hh' & Hsz' & Hperm' & _ & ->).
      do 2 eexists. split; [done|]. Inv_split.
      * pose proof (ok_wait_nodup _ _ _ _ L) as Hnd. rewrite Hql in Hnd.
        apply NoDup_cons in Hnd as [Hnot Hnd].
        apply (assign_ok h (wq st) _ _ next m h' q L1 Hnext (or_intror Hnw) Hq).
        -- by rewrite Hrest.
        -- intros x. rewrite Hrest, Hql, elem_of_cons. split; [|tauto].
           intros Hx. split; [by right|]. by intros ->.
        -- done.
        -- done.
      * intros _. specialize (Hfull Hpos). lia.
    + pose proof (ok_wq _ _ _ _ L) as (_ & ? & _).
      rewrite Hnone by lia. do 2 eexists. split; [done|]. Inv_split; lia.
Qed.

(** ** Queries *)

Lemma searchCar_total c st : Inv st → ∃ o, searchCar c st = Some o.
Proof.
  intros HI. pose proof (Inv_lengths st HI) as (Hlsoc & Hlet & Hlpu & Hlstc).
  unfold searchCar. destruct (decide (is_car c)) as [Hc|Hc].
  - rewrite in_range_true by done. cbn [negb].
    rewrite !rd_in by in_bounds. mstep. repeat case_match; eauto.
  - rewrite in_range_false by done. eauto.
Qed.

Lemma freeFrom_total (stc : list Z) n : ∀ s,
  0 ≤ s → s + Z.of_nat n ≤ Z.of_nat (length stc) →
  ∃ l, freeFrom n s stc = Some l.
Proof.
  induction n as [|n IH]; intros s Hs Hn; [by eexists|].
  cbn [freeFrom]. rewrite rd_in by lia. mstep.
  destruct (IH (s + 1)) as (l & ->); [lia..|]. mstep. eauto.
Qed.

Lemma listFrom_contents (a : list Z) n : ∀ idx,
  length a = 10%nat → 0 ≤ idx < WAIT_CAP →
  listFrom n idx a = Some (contents a idx n).
Proof.
  induction n as [|n IH]; intros idx Hlen Hidx; [done|].
  cbn [listFrom contents]. unfold WAIT_CAP in *. rewrite rd_in by lia. mstep.
  unfold WAIT_CAP. rewrite IH by (done || lia). done.
Qed.

Lemma showWaitingQueue_spec st :
  Inv st → showWaitingQueue st = Some (WaitingList (queue_list (wq st))).
Proof.
  intros (L & _). destruct (ok_wq _ _ _ _ L) as (Hlen & _ & Hfront & _).
  unfold showWaitingQueue. by rewrite listFrom_contents.
Qed.

Lemma step_inv op st :
  Inv st → ∃ st' out, step op st = Some (st', out) ∧ Inv st'.
Proof.
  intros HI. destruct op as [c now mem|c now now2 mem|c| |c| |]; cbn [step].
  - by apply vehicleEntry_inv.
  - by apply vehicleExit_inv.
  - by apply addMonthlyPass_inv.
  - destruct (emergencyMode_inv st HI) as (st' & ? & ?). eauto.
  - destruct (searchCar_total c st HI) as (o & Ho). unfold query.
    rewrite Ho. eauto.
  - pose proof (Inv_lengths st HI) as (_ & _ & _ & Hlstc).
    destruct (freeFrom_total (slotToCar st) (Z.to_nat MAX_SLOTS) 1) as (l & Hl);
      [lia|in_bounds|].
    unfold query, showFreeSlots. rewrite Hl. mstep. eauto.
  - unfold query. rewrite showWaitingQueue_spec by done. eauto.
Qed.

Lemma reachable_Inv st : reachable st → Inv st.
Proof.
  induction 1 as [st Hinit|st op st' out _ IH Hstep].
  - by apply initSystem_inv.
  - destruct (step_inv op st IH) as (st2 & out2 & Hs2 & HI2). congruence.
Qed.

Lemma run_total ops : ∀ st, Inv st → ∃ st', run ops st = Some st' ∧ Inv st'.
Proof.
  induction ops as [|op ops IH]; intros st HI; [by exists st|].
  destruct (step_inv op st HI) as (st1 & out & Hstep & HI1).
  cbn [run]. rewrite Hstep. mstep. by apply IH.
Qed.

(** * Reachable states *)

Ltac inv_opt :=
  repeat match goal with
  | H : Some _ = Some _ |- _ => injection H as H; subst
  | H : (_, _) = (_, _) |- _ => injection H as H; subst
  | H : None = Some _ |- _ => discriminate H
  | H : (_ ≫= _) = Some _ |- _ => apply bind_Some in H as (? & ? & H)
  | H : (let '(_, _) := ?x in _) = Some _ |- _ => destruct x
  | H : (match ?x with _ => _ end) = Some _ |- _ => destruct x eqn:?
  end.

Lemma step_heap_rev op st st' out :
  step op st = Some (st', out) →
  heap_moves (heap st) (heap st') ∧
  (totalRevenue st' = totalRevenue st ∨
   ∃ fee, totalRevenue st' = wrap32 (totalRevenue st + fee)).
Proof.
  unfold heap_moves.
  destruct op; cbn [step]; intros H.
  - unfold vehicleEntry, canEnter in H. inv_opt; cbn; eauto 10.
  - unfold vehicleExit in H. inv_opt; cbn; eauto 20.
  - unfold addMonthlyPass in H. inv_opt; cbn; eauto 10.
  - unfold emergencyMode in H. inv_opt; cbn; eauto 10.
  - unfold query in H. inv_opt; cbn; eauto.
  - unfold query in H. inv_opt; cbn; eauto.
  - unfold query in H. inv_opt; cbn; eauto.
Qed.

Lemma wrap32_range x : INT_MIN ≤ wrap32 x ≤ INT_MAX.
Proof. unfold wrap32, INT_MIN, INT_MAX. lia. Qed.

Lemma wrap32_id x : INT_MIN ≤ x ≤ INT_MAX → wrap32 x = x.
Proof. unfold wrap32, INT_MIN, INT_MAX. lia. Qed.

Lemma reachable_heap_reach st : reachable st → heap_reach (heap st).
Proof.
  induction 1 as [st Hinit|st op st' out Hreach IH Hstep].
  - unfold initSystem in Hinit. inv_opt. cbn.
    by apply (hr_fill (heapArr (heap boot))).
  - pose proof (reachable_Inv st Hreach) as (L & _).
    destruct (ok_heap _ _ _ _ L) as (Hlen & _).
    destruct (step_heap_rev op st st' out Hstep)
      as [[->|[(m & Hm)|[(s & Hs)|[(s & h1 & m & Hs & Hm)|Hfill]]]] _].
    + done.
    + by apply (hr_remove (heap st) m).
    + by apply (hr_insert s (heap st)).
    + apply (hr_remove h1 m); [|done]. by apply (hr_insert s (heap st)).
    + by apply (hr_fill (heapArr (heap st))).
Qed.

Lemma reachable_revenue st :
  reachable st → INT_MIN ≤ totalRevenue st ≤ INT_MAX.
Proof.
  induction 1 as [st Hinit|st op st' out Hreach IH Hstep].
  - unfold initSystem in Hinit. inv_opt. cbn. unfold INT_MIN, INT_MAX. lia.
  - destruct (step_heap_rev op st st' out Hstep) as [_ [->|(fee & ->)]];
      [done|apply wrap32_range].
Qed.

Lemma reachable_run ops : ∀ st st',
  reachable st → run ops st = Some st' → reachable st'.
Proof.
  induction ops as [|op ops IH]; intros st st' Hreach Hrun.
  - cbn in Hrun. by inv_opt.
  - cbn [run] in Hrun. apply bind_Some in Hrun as ([st1 out] & Hstep & Hrun).
    apply (IH st1); [|done]. by apply (reach_step st op st1 out).
Qed.

Lemma reachable_from_boot ops st : from_boot ops = Some st → reachable st.
Proof.
  unfold from_boot. intros (s0 & Hinit & Hrun)%bind_Some.
  apply (reachable_run ops s0); [|done]. by apply reach_init.
Qed.

(** Every finite sequence of menu operations runs to completion. *)
Lemma from_boot_total ops : ∃ st, from_boot ops = Some st ∧ reachable st.
Proof.
  destruct initSystem_boot as (s0 & Hinit).
  destruct (run_total ops s0) as (st & Hrun & _); [by apply initSystem_inv|].
  assert (Hfb : from_boot ops = Some st).
  { unfold from_boot. rewrite Hinit. done. }
  exists st. split; [done|]. by apply (reachable_from_boot ops).
Qed.

Lemma no_free_heap_empty st :
  Inv st → (∀ s, ¬ free_slot st s) → heapSize (heap st) = 0.
Proof.
  intros (L & _) Hnone. apply heap_elems_nil; [apply L|].
  apply elem_of_nil_inv. intros x Hx. apply (Hnone x).
  by apply (ok_free _ _ _ _ L).
Qed.

Lemma heap_empty_no_free st :
  Inv st → heapSize (heap st) = 0 → ∀ s, ¬ free_slot st s.
Proof.
  intros (L & _) H0 s Hs. apply (ok_free _ _ _ _ L) in Hs.
  apply heap_elems_nil in H0; [|apply L]. rewrite H0 in Hs.
  by apply elem_of_nil in Hs.
Qed.

(** * The properties of the specification *)

(** C1.  In every heap state built by [initSystem] or [emergencyMode] and
    changed only by [heapInsert] and [heapRemoveMin], [heapRemoveMin]
    returns -1 and changes nothing when the heap holds no slot, and
    otherwise removes and returns the least slot held.  Hence an Entry
    that parks a vehicle assigns it the smallest slot free at that
    moment: the slot reported is the least free one, and in the state
    after the Entry the ledger records the vehicle at that slot with the
    clock reading of the Entry, the slot map records the vehicle in the
    slot, and the heap is the old one without the slot, so that the free
    slots are the old ones except this one; the ledger entries of the
    other vehicles are unchanged.  An Entry of an absent
    vehicle does park it whenever the heap holds a slot. *)
Theorem heapRemoveMin_min (h : Heap) :
  heap_reach h →
  (heap_elems h = [] → heapRemoveMin h = Some (-1, h)) ∧
  (heap_elems h ≠ [] →
   ∃ m h', heapRemoveMin h = Some (m, h') ∧
           m ∈ heap_elems h ∧ (∀ x, x ∈ heap_elems h → m ≤ x) ∧
           heap_elems h ≡ₚ m :: heap_elems h') ∧
  (∀ st c now mem st' s t,
     reachable st → heap st = h →
     vehicleEntry c now mem st = Some (st', Parked c s t) →
     s ∈ heap_elems h ∧ (∀ x, x ∈ heap_elems h → s ≤ x) ∧
     free_slot st s ∧ (∀ x, free_slot st x → s ≤ x) ∧
     t = now ∧ status_of st' c = ParkedAt s now ∧
     get (slotToCar st') s = c ∧
     heapRemoveMin h = Some (s, heap st') ∧
     (s ∉ heap_elems (heap st')) ∧
     heap_elems h ≡ₚ s :: heap_elems (heap st') ∧
     (∀ x, free_slot st' x ↔ free_slot st x ∧ x ≠ s) ∧
     (∀ c', c' ≠ c → status_of st' c' = status_of st c')) ∧
  (∀ st c now mem,
     reachable st → heap st = h → is_car c → status_of st c = Absent →
     heap_elems h ≠ [] →
     ∃ st' s, vehicleEntry c now mem st = Some (st', Parked c s now)).
Proof.
  intros Hreach. pose proof (heap_reach_inv h Hreach) as Hinv.
  assert (Hpos : heap_elems h ≠ [] → 0 < heapSize h).
  { intros Hne. pose proof Hinv as (_ & Hsz & _).
    destruct (decide (heapSize h = 0)) as [H0|]; [|lia].
    exfalso. apply Hne. by apply heap_elems_nil. }
  split; [|split; [|split]].
  - intros Hnil. apply heapRemoveMin_empty. by apply heap_elems_nil.
  - intros Hne.
    destruct (heapRemoveMin_spec h Hinv (Hpos Hne))
      as (h' & Hrm & _ & _ & Hperm & Hmin).
    exists (get (heapArr h) 1), h'. split; [done|]. split; [|done].
    rewrite Hperm. left.
  - intros st c now mem st' s t Hst <- Hentry.
    pose proof (reachable_Inv st Hst) as HI. pose proof HI as (L & _).
    pose proof (Inv_lengths st HI) as (Hlsoc & Hlet & Hlpu & Hlstc).
    assert (Hc : is_car c).
    { destruct (decide (is_car c)) as [|Hc]; [done|].
      rewrite vehicleEntry_invalid in Hentry by done. discriminate. }
    destruct (ok_status _ _ _ _ L c Hc) as [Hs|[Hs|Hs]].
    + destruct (decide (0 < heapSize (heap st))) as [Hh|Hh].
      * destruct (vehicleEntry_parked c now mem st HI Hc Hs Hh)
          as (m & h' & Hrm & _ & Hperm & Hmin & Heq).
        rewrite Heq in Hentry. injection Hentry as <- <- <-.
        assert (Hin : m ∈ heap_elems (heap st)) by (rewrite Hperm; left).
        pose proof (proj1 (ok_free _ _ _ _ L m) Hin) as [Hm Hmf].
        assert (Hnd : NoDup (m :: heap_elems h')).
        { rewrite <- Hperm. apply (ok_free_nodup _ _ _ _ L). }
        apply NoDup_cons in Hnd as [Hnotin _].
        split; [done|]. split; [done|]. split; [done|]. split.
        { intros x Hx. apply Hmin. by apply (ok_free _ _ _ _ L). }
        split; [done|].
        unfold status_of, free_slot.
        cbn [heap slotOfCar entryTimeOfCar slotToCar].
        rewrite !get_upd_eq by in_bounds.
        split.
        { destruct (Z.eqb_spec m (-1)); [unfold_ids; lia|].
          destruct (Z.eqb_spec m (-2)); [unfold_ids; lia|]. done. }
        do 4 (split; [done|]). split.
        -- intros x. destruct (decide (x = m)) as [->|Hne].
           ++ rewrite get_upd_eq by in_bounds. unfold_ids. lia.
           ++ rewrite get_upd_ne' by (unfold_ids; lia || done). tauto.
        -- intros c' Hne.
           by rewrite !get_upd_ne' by (unfold_ids; lia || done).
      * pose proof (ok_heap _ _ _ _ L) as (_ & Hsz & _).
        pose proof (ok_wq _ _ _ _ L) as (_ & Hwsz & _).
        destruct (decide (waitCount (wq st) < WAIT_CAP)) as [Hw|Hw].
        -- destruct (vehicleEntry_queued c now mem st) as (q & _ & _ & _ & _ & Heq);
             [done|done|done|lia|done|].
           rewrite Heq in Hentry. discriminate.
        -- rewrite vehicleEntry_full in Hentry by (done || lia). discriminate.
    + rewrite vehicleEntry_waiting_dup in Hentry by done. discriminate.
    + rewrite vehicleEntry_parked_dup in Hentry by done. discriminate.
  - intros st c now mem Hst <- Hc Habs Hne.
    pose proof (reachable_Inv st Hst) as HI.
    assert (Hs : get (slotOfCar st) c = -1).
    { unfold status_of in Habs.
      destruct (Z.eqb_spec (get (slotOfCar st) c) (-1)); [done|].
      destruct (get (slotOfCar st) c =? -2); discriminate. }
    destruct (vehicleEntry_parked c now mem st HI Hc Hs (Hpos Hne))
      as (m & h' & _ & _ & _ & _ & Heq).
    by eexists _, m.
Qed.

(** Slots 2 and 4..10 are free; the heap gives 2, and car 20 entering at
    700 is recorded at slot 2, which is then no longer free. *)
Lemma heapRemoveMin_min_witness :
  heap_reach (heap st_three) ∧
  heap_elems (heap st_three) ≠ [] ∧
  (∃ m h', heapRemoveMin (heap st_three) = Some (m, h') ∧
           m ∈ heap_elems (heap st_three) ∧
           (∀ x, x ∈ heap_elems (heap st_three) → m ≤ x) ∧
           heap_elems (heap st_three) ≡ₚ m :: heap_elems h') ∧
  reachable st_three ∧ is_car 20 ∧ status_of st_three 20 = Absent ∧
  ∃ st' s,
    vehicleEntry 20 700 true st_three = Some (st', Parked 20 s 700) ∧
    (∀ x, free_slot st_three x → s ≤ x) ∧
    status_of st' 20 = ParkedAt s 700 ∧
    get (slotToCar st') s = 20 ∧
    heapRemoveMin (heap st_three) = Some (s, heap st') ∧
    (∀ x, free_slot st' x ↔ free_slot st_three x ∧ x ≠ s).
Proof.
  assert (Hst : reachable st_three).
  { apply (reachable_from_boot ops_three). vm_compute. reflexivity. }
  assert (Hreach : heap_reach (heap st_three)).
  { by apply reachable_heap_reach. }
  assert (Hne : heap_elems (heap st_three) ≠ []).
  { vm_compute. discriminate. }
  assert (Hcar : is_car 20) by (unfold is_car, MAX_CARS; lia).
  assert (Habs : status_of st_three 20 = Absent) by (vm_compute; reflexivity).
  pose proof (heapRemoveMin_min (heap st_three) Hreach)
    as (_ & Hrm & Hentry & Hparks).
  split; [exact Hreach|]. split; [exact Hne|]. split; [exact (Hrm Hne)|].
  split; [exact Hst|]. split; [exact Hcar|]. split; [exact Habs|].
  destruct (Hparks st_three 20 700 true Hst eq_refl Hcar Habs Hne)
    as (st' & s & Heq).
  destruct (Hentry st_three 20 700 true st' s 700 Hst eq_refl Heq)
    as (_ & _ & _ & Hleast & _ & Hstat & Hstc & Hheap & _ & _ & Hfree & _).
  exists st', s. split; [exact Heq|]. split; [exact Hleast|].
  split; [exact Hstat|]. split; [exact Hstc|]. split; [exact Hheap|].
  exact Hfree.
Defined.

(** After A, B, C entered and B left, the next car gets B's slot 2. *)
Example entry_reuses_lowest_slot :
  from_boot ops_three = Some st_three ∧
  get (slotOfCar st_three) 7 = 1 ∧ get (slotOfCar st_three) 9 = 3 ∧
  ∃ st', vehicleEntry 20 700 true st_three = Some (st', Parked 20 2 700).
Proof. vm_compute. repeat split. by eexists. Qed.

Lemma st_full_reachable : reachable st_full.
Proof. apply (reachable_from_boot ops_full). vm_compute. reflexivity. Qed.

Lemma st_three_reachable : reachable st_three.
Proof.
  apply (reachable_from_boot ops_three). vm_compute. reflexivity.
Qed.

(** C2.  In every state reachable from [initSystem] by the menu
    operations, the two occupancy maps are inverse to each other on
    slots 1..MAX_SLOTS and cars 0..MAX_CARS-1: slot [s] holds car [c]
    exactly when car [c] is recorded at slot [s].  An occupied slot holds
    a valid car, no two cars share a slot and no car holds two slots. *)
Theorem occupancy_bijection (st : State) :
  reachable st →
  (∀ s c, is_slot s → is_car c →
     (get (slotToCar st) s = c ↔ get (slotOfCar st) c = s)) ∧
  (∀ s, is_slot s →
     get (slotToCar st) s = -1 ∨ is_car (get (slotToCar st) s)) ∧
  (∀ c, is_car c →
     get (slotOfCar st) c = -1 ∨ get (slotOfCar st) c = -2 ∨
     is_slot (get (slotOfCar st) c)) ∧
  (∀ s c1 c2, is_slot s → is_car c1 → is_car c2 →
     get (slotOfCar st) c1 = s → get (slotOfCar st) c2 = s → c1 = c2) ∧
  (∀ c s1 s2, is_car c → is_slot s1 → is_slot s2 →
     get (slotToCar st) s1 = c → get (slotToCar st) s2 = c → s1 = s2).
Proof.
  intros Hreach. destruct (reachable_Inv st Hreach) as (L & _).
  pose proof (ok_bij _ _ _ _ L) as Hbij.
  split; [done|]. split; [apply L|]. split; [apply L|]. split.
  - intros s c1 c2 Hs Hc1 Hc2 H1 H2.
    apply (Hbij s c1 Hs Hc1) in H1. apply (Hbij s c2 Hs Hc2) in H2. congruence.
  - intros c s1 s2 Hc Hs1 Hs2 H1 H2.
    apply (Hbij s1 c Hs1 Hc) in H1. apply (Hbij s2 c Hs2 Hc) in H2. congruence.
Qed.

Lemma occupancy_bijection_witness :
  reachable st_full ∧
  (get (slotToCar st_full) 4 = 3 ↔ get (slotOfCar st_full) 3 = 4).
Proof.
  split; [exact st_full_reachable|].
  apply (proj1 (occupancy_bijection st_full st_full_reachable) 4 3);
    unfold is_slot, is_car, MAX_SLOTS, MAX_CARS; lia.
Defined.




(** The two boundary cases of the fee, and the pass holder. *)
Example fee_boundaries :
  fee_of 0 3600 = 50 ∧ fee_of 0 3601 = 100 ∧ fee_of 0 0 = 0 ∧
  fee_of 1 360000 = 0 ∧ elapsed 100 200 = 0.
Proof. by vm_compute. Qed.

(** C4.  When [vehicleExit] releases the slot of a parked car while the
    queue is not empty, the car at the front of the queue is dequeued
    and given the smallest slot then free (the one just released), with
    the second clock reading [now2] as entry time; its ledger entry and
    the slot map record the assignment, and the queue is the old one
    without its front.  A new open history record is put in front of
    the history when [malloc] succeeds; when it fails the promotion
    takes place all the same and the history gets no record. *)
Theorem exit_promotes_front (st : State) (c now now2 : Z) (mem : bool)
    (s next : Z) (rest : list Z) :
  reachable st → is_car c → get (slotOfCar st) c = s → is_slot s →
  queue_list (wq st) = next :: rest →
  ∃ st' fee secs m,
    vehicleExit c now now2 mem st =
      Some (st', Exited c s fee secs (Promoted next m now2)) ∧
    m = s ∧
    (∀ x, is_slot x → x = s ∨ get (slotToCar st) x = -1 → m ≤ x) ∧
    status_of st' next = ParkedAt m now2 ∧
    get (slotToCar st') m = next ∧
    history st' =
      (if mem then [mkNode next m now2 0] else []) ++
      closeHistory c s now (history st) ∧
    queue_list (wq st') = rest ∧
    waitCount (wq st') = waitCount (wq st) - 1.
Proof.
  intros Hreach Hc Hs Hslot Hql.
  pose proof (reachable_Inv st Hreach) as HI. pose proof HI as (L & _ & _ & Hfull).
  pose proof (Inv_lengths st HI) as (Hlsoc & Hlet & Hlpu & Hlstc).
  assert (Hpos : 0 < waitCount (wq st)).
  { pose proof (length_queue_list (wq st)) as Hlen. rewrite Hql in Hlen.
    cbn in Hlen. lia. }
  destruct (vehicleExit_parked c now now2 mem st s HI Hc Hs Hslot)
    as (h & _ & _ & _ & Hperm & L1 & _ & Hsome).
  destruct (Hsome Hpos)
    as (next' & rest' & q & m & h' & Hql' & _ & _ & Hrest & Hcnt & Hnext & _
        & _ & _ & _ & _ & Hperm' & Hmin & ->).
  rewrite Hql in Hql'. injection Hql' as <- <-.
  assert (Hm : m ∈ heap_elems h) by (rewrite Hperm'; left).
  assert (Hempty : heap_elems (heap st) = []).
  { apply heap_elems_nil; [apply L|]. by apply Hfull. }
  assert (Hms : m = s).
  { rewrite Hperm, Hempty in Hm. by apply list_elem_of_singleton in Hm. }
  pose proof (ok_free _ _ _ _ L1 m) as [Hfree _]. specialize (Hfree Hm).
  destruct Hfree as [Hmslot _].
  do 4 eexists. split; [done|]. split; [done|]. split.
  { intros x Hx [->|Hfree]; [lia|].
    assert (Hxin : x ∈ heap_elems (heap st)) by (by apply (ok_free _ _ _ _ L)).
    rewrite Hempty in Hxin. by apply elem_of_nil in Hxin. }
  unfold status_of.
  cbn [slotOfCar entryTimeOfCar slotToCar history wq addHistoryNode].
  rewrite !get_upd_eq by in_bounds.
  destruct (Z.eqb_spec m (-1)); [unfold_ids; lia|].
  destruct (Z.eqb_spec m (-2)); [unfold_ids; lia|]. by destruct mem.
Qed.

(** Slots full, cars 10 and 11 waiting; car 0 leaves slot 1. *)
Lemma exit_promotes_front_witness :
  reachable st_full ∧ is_car 0 ∧ get (slotOfCar st_full) 0 = 1 ∧ is_slot 1 ∧
  queue_list (wq st_full) = [10; 11] ∧
  ∃ st' fee secs m,
    vehicleExit 0 5000 5001 true st_full =
      Some (st', Exited 0 1 fee secs (Promoted 10 m 5001)) ∧
    m = 1 ∧
    (∀ x, is_slot x → x = 1 ∨ get (slotToCar st_full) x = -1 → m ≤ x) ∧
    status_of st' 10 = ParkedAt m 5001 ∧
    get (slotToCar st') m = 10 ∧
    history st' =
      mkNode 10 m 5001 0 :: closeHistory 0 1 5000 (history st_full) ∧
    queue_list (wq st') = [11] ∧
    waitCount (wq st') = waitCount (wq st_full) - 1.
Proof.
  assert (Hcar : is_car 0) by (unfold is_car, MAX_CARS; lia).
  assert (Hslot : is_slot 1) by (unfold is_slot, MAX_SLOTS; lia).
  assert (Hsoc : get (slotOfCar st_full) 0 = 1) by (vm_compute; reflexivity).
  assert (Hql : queue_list (wq st_full) = [10; 11]) by (vm_compute; reflexivity).
  split; [exact st_full_reachable|]. do 4 (split; [done|]).
  exact (exit_promotes_front st_full 0 5000 5001 true 1 10 [11]
           st_full_reachable Hcar Hsoc Hslot Hql).
Defined.

(** The same exit when [malloc] fails for the record of the promoted
    car: car 10 leaves the queue and gets slot 1 at 5001, and the
    history has no record for it; it holds the ten old records, that of
    car 0 now closed. *)
Lemma exit_promotes_without_record :
  reachable st_full ∧ get (slotOfCar st_full) 0 = 1 ∧
  queue_list (wq st_full) = [10; 11] ∧
  ∃ st',
    vehicleExit 0 5000 5001 false st_full =
      Some (st', Exited 0 1 100 4000 (Promoted 10 1 5001)) ∧
    status_of st' 10 = ParkedAt 1 5001 ∧
    get (slotToCar st') 1 = 10 ∧
    queue_list (wq st') = [11] ∧
    history st' = closeHistory 0 1 5000 (history st_full) ∧
    length (history st') = length (history st_full) ∧
    Forall (λ t, car t ≠ 10) (history st').
Proof.
  split; [exact st_full_reachable|].
  vm_compute. split; [reflexivity|]. split; [reflexivity|].
  eexists. split; [reflexivity|]. do 5 (split; [reflexivity|]).
  repeat (constructor; [discriminate|]). constructor.
Qed.

(** C5.  A rejected request changes nothing.  Entry with an id outside
    0..MAX_CARS-1, Entry for a car already parked or already waiting,
    Entry when no slot is free and the queue is full, and Exit for an
    absent car all return the state they were given; and whenever Entry
    or Exit reports one of these rejections, the state is unchanged. *)
Theorem rejected_leaves_state (st : State) (c now now2 : Z) (mem : bool) :
  reachable st →
  (¬ is_car c → vehicleEntry c now mem st = Some (st, InvalidVehicleId)) ∧
  (is_car c → is_slot (get (slotOfCar st) c) →
   vehicleEntry c now mem st = Some (st, DuplicateParked c)) ∧
  (is_car c → get (slotOfCar st) c = -2 →
   vehicleEntry c now mem st = Some (st, DuplicateWaiting c)) ∧
  (is_car c → get (slotOfCar st) c = -1 →
   (∀ s, ¬ free_slot st s) → waitCount (wq st) = WAIT_CAP →
   vehicleEntry c now mem st = Some (st, FacilityFull) ∧
   status_of st c = Absent) ∧
  (is_car c → get (slotOfCar st) c = -1 →
   vehicleExit c now now2 mem st = Some (st, NotParked c)) ∧
  (∀ st' out,
     vehicleEntry c now mem st = Some (st', out) ∨
     vehicleExit c now now2 mem st = Some (st', out) →
     rejected out = true → st' = st).
Proof.
  intros Hreach. pose proof (reachable_Inv st Hreach) as HI.
  pose proof HI as (L & _).
  split; [by apply vehicleEntry_invalid|].
  split; [by apply vehicleEntry_parked_dup|].
  split; [by apply vehicleEntry_waiting_dup|].
  split.
  { intros Hc Hs Hnone Hw. split.
    - apply vehicleEntry_full; try done. by apply no_free_heap_empty.
    - unfold status_of. by rewrite Hs. }
  split; [by apply vehicleExit_absent|].
  intros st' out Hop Hrej.
  destruct (decide (is_car c)) as [Hc|Hc].
  2:{ rewrite vehicleEntry_invalid, vehicleExit_invalid in Hop by done.
      destruct Hop as [[= <- _]|[= <- _]]; done. }
  pose proof (ok_heap _ _ _ _ L) as (_ & Hsz & _).
  pose proof (ok_wq _ _ _ _ L) as (_ & Hwsz & _).
  destruct Hop as [Hop|Hop].
  - destruct (ok_status _ _ _ _ L c Hc) as [Hs|[Hs|Hs]].
    + destruct (decide (0 < heapSize (heap st))) as [Hh|Hh].
      * destruct (vehicleEntry_parked c now mem st HI Hc Hs Hh)
          as (m & h' & _ & _ & _ & _ & Heq).
        rewrite Heq in Hop. injection Hop as _ <-. discriminate.
      * destruct (decide (waitCount (wq st) < WAIT_CAP)) as [Hw|Hw].
        -- destruct (vehicleEntry_queued c now mem st) as (q & _ & _ & _ & _ & Heq);
             [done|done|done|lia|done|].
           rewrite Heq in Hop. injection Hop as _ <-. discriminate.
        -- rewrite vehicleEntry_full in Hop by (done || lia). congruence.
    + rewrite vehicleEntry_waiting_dup in Hop by done. congruence.
    + rewrite vehicleEntry_parked_dup in Hop by done. congruence.
  - destruct (ok_status _ _ _ _ L c Hc) as [Hs|[Hs|Hs]].
    + rewrite vehicleExit_absent in Hop by done. congruence.
    + destruct (vehicleExit_waiting c now now2 mem st HI Hc Hs)
        as (q & l1 & l2 & Heq & _).
      rewrite Heq in Hop. injection Hop as _ <-. discriminate.
    + destruct (vehicleExit_parked c now now2 mem st _ HI Hc eq_refl Hs)
        as (h & _ & _ & _ & _ & _ & Hnone & Hsome).
      destruct (decide (0 < waitCount (wq st))) as [Hpos|Hzero].
      * destruct (Hsome Hpos)
          as (next & rest & q & m & h' & _ & _ & _ & _ & _ & _ & _ & _ & _ & _ & _ & _ & _ & Heq).
        rewrite Heq in Hop. injection Hop as _ <-. discriminate.
      * rewrite Hnone in Hop by lia. injection Hop as _ <-. discriminate.
Qed.

(** Car 3 is parked, so a second Entry for it is refused. *)
Lemma rejected_leaves_state_witness :
  reachable st_full ∧ is_car 3 ∧ is_slot (get (slotOfCar st_full) 3) ∧
  vehicleEntry 3 9000 true st_full = Some (st_full, DuplicateParked 3).
Proof.
  assert (Hcar : is_car 3) by (unfold is_car, MAX_CARS; lia).
  assert (Hslot : is_slot (get (slotOfCar st_full) 3)).
  { vm_compute. split; discriminate. }
  split; [exact st_full_reachable|]. do 2 (split; [done|]).
  exact (proj1 (proj2 (rejected_leaves_state st_full 3 9000 9001 true
                         st_full_reachable)) Hcar Hslot).
Defined.

(** C6.  [emergencyMode] makes every car absent with entry time 0, empties
    every slot of the slot map, refills the heap with exactly the slots
    1..MAX_SLOTS, empties the waiting queue, and leaves [totalRevenue]
    and the history as they were. *)
Theorem emergency_resets (st : State) :
  reachable st →
  ∃ st', emergencyMode st = Some (st', EmergencyCleared) ∧
    (∀ c, is_car c →
       status_of st' c = Absent ∧ get (entryTimeOfCar st') c = 0) ∧
    (∀ s, is_slot s → get (slotToCar st') s = -1) ∧
    heap_elems (heap st') = [1; 2; 3; 4; 5; 6; 7; 8; 9; 10] ∧
    (∀ s, s ∈ heap_elems (heap st') ↔ is_slot s) ∧
    queue_list (wq st') = [] ∧ waitCount (wq st') = 0 ∧
    totalRevenue st' = totalRevenue st ∧
    history st' = history st.
Proof.
  intros Hreach. pose proof (reachable_Inv st Hreach) as HI.
  destruct (emergencyMode_spec st HI)
    as (h & soc & et & stc & -> & _ & Hel & _ & Hsoc & _ & Het & _ & Hstc).
  eexists. split; [done|].
  cbn [heap wq slotOfCar entryTimeOfCar slotToCar history totalRevenue].
  split.
  { intros c Hc. split; [|by apply Het].
    unfold status_of. cbn [slotOfCar]. by rewrite Hsoc. }
  split; [done|]. split; [done|]. split.
  { intros s. rewrite Hel. apply elem_of_slots. }
  done.
Qed.

Lemma emergency_resets_witness :
  reachable st_full ∧
  ∃ st', emergencyMode st_full = Some (st', EmergencyCleared) ∧
    (∀ c, is_car c →
       status_of st' c = Absent ∧ get (entryTimeOfCar st') c = 0) ∧
    (∀ s, is_slot s → get (slotToCar st') s = -1) ∧
    heap_elems (heap st') = [1; 2; 3; 4; 5; 6; 7; 8; 9; 10] ∧
    (∀ s, s ∈ heap_elems (heap st') ↔ is_slot s) ∧
    queue_list (wq st') = [] ∧ waitCount (wq st') = 0 ∧
    totalRevenue st' = totalRevenue st_full ∧
    history st' = history st_full.
Proof.
  split; [exact st_full_reachable|].
  exact (emergency_resets st_full st_full_reachable).
Defined.

(** C7.  When the car given to [vehicleExit] is waiting, it is taken out
    of the queue, the other waiting cars keep their order, the queue is
    one shorter, the car becomes absent, and neither [totalRevenue] nor
    the history changes. *)
Theorem waiting_exit_removes (st : State) (c now now2 : Z) (mem : bool) :
  reachable st → is_car c → get (slotOfCar st) c = -2 →
  ∃ st' l1 l2,
    vehicleExit c now now2 mem st = Some (st', RemovedFromQueue c) ∧
    queue_list (wq st) = l1 ++ c :: l2 ∧
    queue_list (wq st') = l1 ++ l2 ∧
    (c ∉ queue_list (wq st')) ∧
    length (queue_list (wq st')) = (length (queue_list (wq st)) - 1)%nat ∧
    waitCount (wq st') = waitCount (wq st) - 1 ∧
    status_of st' c = Absent ∧
    totalRevenue st' = totalRevenue st ∧
    history st' = history st.
Proof.
  intros Hreach Hc Hs. pose proof (reachable_Inv st Hreach) as HI.
  pose proof (Inv_lengths st HI) as (Hlsoc & _).
  destruct (vehicleExit_waiting c now now2 mem st HI Hc Hs)
    as (q & l1 & l2 & -> & _ & Hsplit & Hq & Hfilter & Hcnt).
  do 3 eexists. split; [done|].
  cbn [wq slotOfCar history totalRevenue].
  split; [done|]. split; [done|]. split.
  { rewrite Hfilter. intros Hin. by apply list_elem_of_filter in Hin as [? _]. }
  split.
  { rewrite Hq, Hsplit, !length_app. cbn. lia. }
  split; [done|]. split; [|done].
  unfold status_of. cbn [slotOfCar]. by rewrite get_upd_eq by in_bounds.
Qed.

(** Car 11 is second of two in the queue and leaves before being served. *)
Lemma waiting_exit_removes_witness :
  reachable st_full ∧ is_car 11 ∧ get (slotOfCar st_full) 11 = -2 ∧
  ∃ st' l1 l2,
    vehicleExit 11 5000 5001 true st_full = Some (st', RemovedFromQueue 11) ∧
    queue_list (wq st_full) = l1 ++ 11 :: l2 ∧
    queue_list (wq st') = l1 ++ l2 ∧
    (11 ∉ queue_list (wq st')) ∧
    length (queue_list (wq st')) = (length (queue_list (wq st_full)) - 1)%nat ∧
    waitCount (wq st') = waitCount (wq st_full) - 1 ∧
    status_of st' 11 = Absent ∧
    totalRevenue st' = totalRevenue st_full ∧
    history st' = history st_full.
Proof.
  assert (Hcar : is_car 11) by (unfold is_car, MAX_CARS; lia).
  assert (Hsoc : get (slotOfCar st_full) 11 = -2) by (vm_compute; reflexivity).
  split; [exact st_full_reachable|]. do 2 (split; [done|]).
  exact (waiting_exit_removes st_full 11 5000 5001 true
           st_full_reachable Hcar Hsoc).
Defined.





(** Newest record first; only car 8's record has been closed (at 600). *)
Example history_after_three :
  history st_three =
    [mkNode 9 3 500 0; mkNode 8 2 500 600; mkNode 7 1 500 0].
Proof. by vm_compute. Qed.

(** C9.  In every reachable state a non-empty queue means an empty heap:
    no slot is free and every slot holds a car.  Consequently, in the
    promotion step of [vehicleExit], [heapRemoveMin] called right after
    [heapInsert] of the released slot returns a slot, never -1, and no
    exit ever reports that the dequeued car was put back in the queue. *)
Theorem waiting_implies_full (st : State) :
  reachable st →
  (0 < waitCount (wq st) →
   heapSize (heap st) = 0 ∧ heap_elems (heap st) = [] ∧
   (∀ s, ¬ free_slot st s) ∧
   (∀ s, is_slot s → is_car (get (slotToCar st) s))) ∧
  (∀ c s, is_car c → get (slotOfCar st) c = s → is_slot s →
     ∃ h m h', heapInsert s (heap st) = Some h ∧
               heapRemoveMin h = Some (m, h') ∧ m ≠ -1) ∧
  (∀ c now now2 mem st' c' s fee secs p,
     vehicleExit c now now2 mem st = Some (st', Exited c' s fee secs p) →
     (∀ x, p ≠ Requeued x) ∧ (∀ x, p ≠ Skipped x) ∧
     (0 < waitCount (wq st) → ∃ next m t, p = Promoted next m t)).
Proof.
  intros Hreach. pose proof (reachable_Inv st Hreach) as HI.
  pose proof HI as (L & _ & _ & Hfull).
  split; [|split].
  - intros Hpos. specialize (Hfull Hpos).
    assert (Hnone : ∀ s, ¬ free_slot st s) by (by apply heap_empty_no_free).
    split; [done|]. split; [by apply heap_elems_nil; [apply L|]|].
    split; [done|]. intros s Hs.
    destruct (ok_occ _ _ _ _ L s Hs) as [Hfree|Hocc]; [|done].
    by destruct (Hnone s).
  - intros c s Hc Hs Hslot.
    destruct (heapInsert_spec s (heap st)) as (h & Hins & Hh & Hsz & Hperm);
      [apply L|by apply (occupied_heap_room _ _ _ _ c s L)|].
    pose proof (release_ok _ _ _ _ c s h L Hc Hslot Hs Hh Hperm) as L1.
    destruct (heapRemoveMin_spec h Hh) as (h' & Hrm & _ & _ & Hperm' & _).
    { destruct (ok_heap _ _ _ _ L) as (_ & ? & _). lia. }
    exists h, (get (heapArr h) 1), h'. split; [done|]. split; [done|].
    assert (Hm : is_slot (get (heapArr h) 1)).
    { apply (ok_free _ _ _ _ L1). rewrite Hperm'. left. }
    unfold is_slot in Hm. lia.
  - intros c now now2 mem st' c' s fee secs p Hexit.
    destruct (decide (is_car c)) as [Hc|Hc];
      [|rewrite vehicleExit_invalid in Hexit by done; discriminate].
    destruct (ok_status _ _ _ _ L c Hc) as [Hs|[Hs|Hs]].
    + rewrite vehicleExit_absent in Hexit by done. discriminate.
    + destruct (vehicleExit_waiting c now now2 mem st HI Hc Hs)
        as (q & l1 & l2 & Heq & _).
      rewrite Heq in Hexit. discriminate.
    + destruct (vehicleExit_parked c now now2 mem st _ HI Hc eq_refl Hs)
        as (h & _ & _ & _ & _ & _ & Hnone & Hsome).
      destruct (decide (0 < waitCount (wq st))) as [Hpos|Hzero].
      * destruct (Hsome Hpos)
          as (next & rest & q & m & h' & _ & _ & _ & _ & _ & _ & _ & _ & _ & _ & _ & _ & _ & Heq).
        rewrite Heq in Hexit. injection Hexit as _ _ _ _ _ <-.
        split; [done|]. split; [done|]. eauto.
      * pose proof (ok_wq _ _ _ _ L) as (_ & ? & _).
        rewrite Hnone in Hexit by lia. injection Hexit as _ _ _ _ _ <-.
        split; [done|]. split; [done|]. lia.
Qed.

Lemma waiting_implies_full_witness :
  reachable st_full ∧ 0 < waitCount (wq st_full) ∧
  heapSize (heap st_full) = 0 ∧ heap_elems (heap st_full) = [] ∧
  (∀ s, ¬ free_slot st_full s) ∧
  (∀ s, is_slot s → is_car (get (slotToCar st_full) s)).
Proof.
  assert (Hpos : 0 < waitCount (wq st_full)) by (vm_compute; reflexivity).
  split; [exact st_full_reachable|]. split; [exact Hpos|].
  exact (proj1 (waiting_implies_full st_full st_full_reachable) Hpos).
Defined.

(** C10.  [emergencyMode] does not touch the pass flags: [passUser] is the
    same array before and after.  A car that held a pass before the reset
    and parks again afterwards therefore still leaves for a fee of 0. *)
Theorem emergency_keeps_pass (st : State) :
  reachable st →
  ∃ st', emergencyMode st = Some (st', EmergencyCleared) ∧
    passUser st' = passUser st ∧
    (∀ c, get (passUser st') c = get (passUser st) c) ∧
    (∀ c t1 mem1 st1 s t2 t3 mem2,
       get (passUser st) c ≠ 0 →
       vehicleEntry c t1 mem1 st' = Some (st1, Parked c s t1) →
       ∃ st2 secs p,
         vehicleExit c t2 t3 mem2 st1 = Some (st2, Exited c s 0 secs p) ∧
         totalRevenue st2 = totalRevenue st).
Proof.
  intros Hreach. pose proof (reachable_Inv st Hreach) as HI.
  destruct (emergencyMode_spec st HI)
    as (h & soc & et & stc & Hem & _ & _ & Hlsoc & Hsoc & _).
  eexists. split; [done|]. cbn [passUser]. split; [done|]. split; [done|].
  set (st' := mkState h (emptyQueue (wq st)) soc et (passUser st) stc
                      (history st) (totalRevenue st)) in *.
  assert (Hreach' : reachable st').
  { by apply (reach_step st OpEmergency st' EmergencyCleared). }
  pose proof (reachable_Inv st' Hreach') as HI'. pose proof HI' as (L' & _).
  intros c t1 mem1 st1 s t2 t3 mem2 Hpass Hentry.
  assert (Hreach1 : reachable st1).
  { by apply (reach_step st' (OpEntry c t1 mem1) st1 (Parked c s t1)). }
  pose proof (reachable_Inv st1 Hreach1) as HI1.
  pose proof (reachable_revenue st Hreach) as Hrange.
  assert (Hc : is_car c).
  { destruct (decide (is_car c)) as [|Hc]; [done|].
    rewrite vehicleEntry_invalid in Hentry by done. discriminate. }
  assert (Hs : get (slotOfCar st') c = -1) by (by apply Hsoc).
  assert (Hh : 0 < heapSize (heap st')).
  { pose proof (ok_heap _ _ _ _ L') as (_ & Hsz & _).
    pose proof (ok_wq _ _ _ _ L') as (_ & Hwsz & _).
    destruct (decide (0 < heapSize (heap st'))) as [|Hh]; [done|].
    destruct (decide (waitCount (wq st') < WAIT_CAP)) as [Hw|Hw].
    - destruct (vehicleEntry_queued c t1 mem1 st') as (q & _ & _ & _ & _ & Heq);
        [done|done|done|lia|done|].
      rewrite Heq in Hentry. discriminate.
    - rewrite vehicleEntry_full in Hentry by (done || lia). discriminate. }
  destruct (vehicleEntry_parked c t1 mem1 st' HI' Hc Hs Hh)
    as (m & h1 & _ & _ & Hperm & _ & Heq).
  rewrite Heq in Hentry. injection Hentry as <- <-.
  assert (Hm : is_slot m).
  { apply (ok_free _ _ _ _ L'). rewrite Hperm. left. }
  match type of HI1 with Inv ?X => set (st1 := X) in * end.
  assert (Hs1 : get (slotOfCar st1) c = m).
  { subst st1. cbn [slotOfCar]. by rewrite get_upd_eq by in_bounds. }
  destruct (vehicleExit_parked c t2 t3 mem2 st1 m HI1 Hc Hs1 Hm)
    as (h2 & _ & _ & _ & _ & _ & Hnone & Hsome).
  assert (Hfee : fee_of (get (passUser st1) c)
                   (elapsed t2 (get (entryTimeOfCar st1) c)) = 0).
  { subst st1. cbn [passUser]. unfold fee_of.
    by destruct (Z.eqb_spec (get (passUser st) c) 0). }
  rewrite Hfee in Hnone, Hsome.
  assert (Hrev : wrap32 (totalRevenue st1 + 0) = totalRevenue st).
  { subst st1. cbn [totalRevenue]. rewrite Z.add_0_r. by apply wrap32_id. }
  rewrite Hrev in Hnone, Hsome.
  destruct (decide (0 < waitCount (wq st1))) as [Hpos|Hzero].
  - destruct (Hsome Hpos)
      as (next & rest & q & m' & h' & _ & _ & _ & _ & _ & _ & _ & _ & _ & _ & _ & _ & _ & ->).
    do 3 eexists. split; done.
  - destruct HI1 as (L1 & _). pose proof (ok_wq _ _ _ _ L1) as (_ & ? & _).
    rewrite Hnone by lia. do 3 eexists. split; done.
Qed.

(** Car 3 registered a pass before the run that filled the facility. *)
Lemma emergency_keeps_pass_witness :
  reachable st_full ∧ get (passUser st_full) 3 = 1 ∧
  ∃ st', emergencyMode st_full = Some (st', EmergencyCleared) ∧
         passUser st' = passUser st_full ∧ get (passUser st') 3 = 1.
Proof.
  assert (Hpass : get (passUser st_full) 3 = 1) by (vm_compute; reflexivity).
  split; [exact st_full_reachable|]. split; [exact Hpass|].
  destruct (emergency_keeps_pass st_full st_full_reachable)
    as (st' & Hem & Heq & Hget & _).
  exists st'. split; [exact Hem|]. split; [exact Heq|].
  rewrite Hget. exact Hpass.
Defined.

(** * Further properties of the program *)

Lemma st_crowded_reachable : reachable st_crowded.
Proof. apply (reachable_from_boot ops_crowded). vm_compute. reflexivity. Qed.

Lemma st_boot_reachable : reachable st_boot.
Proof. apply (reachable_from_boot []). vm_compute. reflexivity. Qed.

(** X1.  On a well-formed queue that is not full, [enqueueWait] returns 1
    and puts the car behind all waiting cars, the circular indices
    staying well formed; on a full queue it returns 0 and changes
    nothing. *)
Theorem enqueueWait_appends (c : Z) (q : WaitQueue) :
  wq_inv q →
  (waitCount q < WAIT_CAP →
   ∃ q', enqueueWait c q = Some (1, q') ∧ wq_inv q' ∧
         queue_list q' = queue_list q ++ [c] ∧
         waitCount q' = waitCount q + 1) ∧
  (waitCount q = WAIT_CAP → enqueueWait c q = Some (0, q)).
Proof.
  intros Hq. split.
  - by apply enqueueWait_spec.
  - apply enqueueWait_full.
Qed.

Lemma enqueueWait_appends_witness :
  wq_inv (wq st_full) ∧ waitCount (wq st_full) < WAIT_CAP ∧
  ∃ q', enqueueWait 42 (wq st_full) = Some (1, q') ∧ wq_inv q' ∧
        queue_list q' = queue_list (wq st_full) ++ [42] ∧
        waitCount q' = waitCount (wq st_full) + 1.
Proof.
  assert (Hq : wq_inv (wq st_full)).
  { apply (reachable_Inv st_full st_full_reachable). }
  assert (Hlt : waitCount (wq st_full) < WAIT_CAP) by (vm_compute; reflexivity).
  split; [exact Hq|]. split; [exact Hlt|].
  exact (proj1 (enqueueWait_appends 42 (wq st_full) Hq) Hlt).
Defined.

(** X2.  On a well-formed queue, [dequeueWait] returns -1 and changes
    nothing when the queue is empty; otherwise it returns the car at the
    front and leaves the other cars in their order, and a queue that
    becomes empty has its indices reset to front 0, rear -1. *)
Theorem dequeueWait_takes_front (q : WaitQueue) :
  wq_inv q →
  (waitCount q = 0 → dequeueWait q = Some (-1, q)) ∧
  (0 < waitCount q →
   ∃ x xs q', queue_list q = x :: xs ∧ dequeueWait q = Some (x, q') ∧
              wq_inv q' ∧ queue_list q' = xs ∧
              waitCount q' = waitCount q - 1 ∧
              (xs = [] → waitFront q' = 0 ∧ waitRear q' = -1)).
Proof.
  intros Hq. split; [apply dequeueWait_empty|].
  intros Hpos.
  destruct (dequeueWait_spec q Hq Hpos) as (x & xs & q' & Hql & Hdq & Hq' & Hxs & Hcnt).
  exists x, xs, q'. do 5 (split; [done|]).
  intros Hnil. destruct Hq' as (_ & _ & _ & Hempty & _). apply Hempty.
  pose proof (length_queue_list q') as Hlen. rewrite Hxs, Hnil in Hlen.
  cbn in Hlen. destruct Hq as (_ & ? & _). lia.
Qed.

Lemma dequeueWait_takes_front_witness :
  wq_inv (wq st_full) ∧ 0 < waitCount (wq st_full) ∧
  ∃ x xs q', queue_list (wq st_full) = x :: xs ∧
             dequeueWait (wq st_full) = Some (x, q') ∧
             wq_inv q' ∧ queue_list q' = xs ∧
             waitCount q' = waitCount (wq st_full) - 1 ∧
             (xs = [] → waitFront q' = 0 ∧ waitRear q' = -1).
Proof.
  assert (Hq : wq_inv (wq st_full)).
  { apply (reachable_Inv st_full st_full_reachable). }
  assert (Hpos : 0 < waitCount (wq st_full)) by (vm_compute; reflexivity).
  split; [exact Hq|]. split; [exact Hpos|].
  exact (proj2 (dequeueWait_takes_front (wq st_full) Hq) Hpos).
Defined.

(** X3.  On a well-formed heap, [heapInsert] of a value into a heap
    holding fewer than MAX_SLOTS values adds exactly that value and keeps
    the heap order; on a heap already holding MAX_SLOTS values it drops
    the value silently and changes nothing. *)
Theorem heapInsert_adds_or_drops (v : Z) (h : Heap) :
  heap_inv h →
  (heapSize h < MAX_SLOTS →
   ∃ h', heapInsert v h = Some h' ∧ heap_inv h' ∧
         heapSize h' = heapSize h + 1 ∧
         heap_elems h' ≡ₚ v :: heap_elems h) ∧
  (heapSize h = MAX_SLOTS → heapInsert v h = Some h).
Proof.
  intros Hh. split.
  - by apply heapInsert_spec.
  - intros Hfull. apply heapInsert_full. lia.
Qed.

Lemma heapInsert_adds_or_drops_witness :
  heap_inv (heap st_boot) ∧ heapSize (heap st_boot) = MAX_SLOTS ∧
  heapInsert 4 (heap st_boot) = Some (heap st_boot).
Proof.
  assert (Hh : heap_inv (heap st_boot)).
  { apply (reachable_Inv st_boot st_boot_reachable). }
  assert (Hfull : heapSize (heap st_boot) = MAX_SLOTS) by (vm_compute; reflexivity).
  split; [exact Hh|]. split; [exact Hfull|].
  exact (proj2 (heapInsert_adds_or_drops 4 (heap st_boot) Hh) Hfull).
Defined.

(** X4.  Inserting a value into a well-formed heap with room and then
    removing the minimum returns the smaller of the value and the old
    minimum, and leaves the heap holding the other values: the value
    itself comes back when it is below everything the heap held. *)
Theorem heapInsert_then_removeMin (v : Z) (h : Heap) :
  heap_inv h → heapSize h < MAX_SLOTS →
  ∃ h1 m h2,
    heapInsert v h = Some h1 ∧ heapRemoveMin h1 = Some (m, h2) ∧
    heap_inv h2 ∧ heapSize h2 = heapSize h ∧
    m ≤ v ∧ (∀ x, x ∈ heap_elems h → m ≤ x) ∧
    (m = v ∨ m ∈ heap_elems h) ∧
    v :: heap_elems h ≡ₚ m :: heap_elems h2 ∧
    ((∀ x, x ∈ heap_elems h → v ≤ x) →
     m = v ∧ heap_elems h2 ≡ₚ heap_elems h).
Proof.
  intros Hh Hlt.
  destruct (heapInsert_spec v h Hh Hlt) as (h1 & Hins & Hh1 & Hsz1 & Hperm1).
  destruct (heapRemoveMin_spec h1 Hh1) as (h2 & Hrm & Hh2 & Hsz2 & Hperm2 & Hmin).
  { destruct Hh as (_ & ? & _). lia. }
  set (m := get (heapArr h1) 1) in *. clearbody m.
  assert (Hm : m ∈ v :: heap_elems h).
  { rewrite <- Hperm1, Hperm2. left. }
  assert (Hle : ∀ x, x ∈ v :: heap_elems h → m ≤ x).
  { intros x Hx. apply Hmin. by rewrite Hperm1. }
  exists h1, m, h2. do 3 (split; [done|]). split; [lia|].
  split; [apply Hle; left|].
  split; [intros x Hx; apply Hle; by right|].
  split; [by apply elem_of_cons in Hm|].
  split; [by rewrite <- Hperm1|].
  intros Hv.
  assert (Hmv : m = v).
  { apply elem_of_cons in Hm as [->|Hin]; [done|].
    specialize (Hv m Hin). specialize (Hle v). 
    assert (m ≤ v) by (apply Hle; left). lia. }
  split; [done|]. subst m.
  rewrite Hperm1 in Hperm2. by apply (inj (cons v)) in Hperm2.
Qed.

Lemma heapInsert_then_removeMin_witness :
  heap_inv (heap st_three) ∧ heapSize (heap st_three) < MAX_SLOTS ∧
  ∃ h1 m h2,
    heapInsert 1 (heap st_three) = Some h1 ∧
    heapRemoveMin h1 = Some (m, h2) ∧ m ≤ 1.
Proof.
  assert (Hh : heap_inv (heap st_three)).
  { apply (reachable_Inv st_three st_three_reachable). }
  assert (Hlt : heapSize (heap st_three) < MAX_SLOTS) by (vm_compute; reflexivity).
  split; [exact Hh|]. split; [exact Hlt|].
  destruct (heapInsert_then_removeMin 1 (heap st_three) Hh Hlt)
    as (h1 & m & h2 & Hins & Hrm & _ & _ & Hle & _).
  exists h1, m, h2. split; [exact Hins|]. split; [exact Hrm|exact Hle].
Defined.

(** X5.  From any state whose arrays have their declared sizes,
    [initSystem] succeeds and gives a state with every car absent with
    entry time 0 and no pass, every slot free, the heap holding exactly
    1..MAX_SLOTS, an empty queue, zero revenue and an empty history; the
    menu invariant holds there.  Unlike [emergencyMode] it also clears
    the pass flags, the revenue and the history. *)
Theorem initSystem_resets_all (st : State) :
  well_sized st →
  ∃ st', initSystem st = Some st' ∧ Inv st' ∧
    (∀ c, is_car c →
       status_of st' c = Absent ∧ get (entryTimeOfCar st') c = 0 ∧
       get (passUser st') c = 0) ∧
    (∀ s, free_slot st' s ↔ is_slot s) ∧
    heap_elems (heap st') = [1; 2; 3; 4; 5; 6; 7; 8; 9; 10] ∧
    queue_list (wq st') = [] ∧ waitCount (wq st') = 0 ∧
    totalRevenue st' = 0 ∧ history st' = [].
Proof.
  intros (Hlh & Hlq & Hlsoc & Hlet & Hlpu & Hlstc).
  unfold initSystem.
  destruct (fill_heap_inv _ _ Hlh (fill_heap_spec _ Hlh)) as [Hh Hel].
  rewrite (fill_heap_spec _ Hlh). mstep.
  rewrite reset3_fill by (rewrite ?Hlsoc, ?Hlet, ?Hlpu; unfold MAX_CARS; lia).
  destruct (fill_all (-1) MAX_CARS 0 (slotOfCar st)) as (soc & Hfs & Hlsoc' & Hsoc & _);
    [lia|unfold MAX_CARS; lia|rewrite Hlsoc; unfold MAX_CARS; lia|].
  unfold fill in Hfs. rewrite Hfs. mstep.
  destruct (fill_all 0 MAX_CARS 0 (entryTimeOfCar st)) as (et & Hfe & Hlet' & Het & _);
    [lia|unfold MAX_CARS; lia|rewrite Hlet; unfold MAX_CARS; lia|].
  unfold fill in Hfe. rewrite Hfe. mstep.
  destruct (fill_all 0 MAX_CARS 0 (passUser st)) as (pu & Hfp & Hlpu' & Hpu & _);
    [lia|unfold MAX_CARS; lia|rewrite Hlpu; unfold MAX_CARS; lia|].
  unfold fill in Hfp. rewrite Hfp. mstep.
  destruct (fill_all (-1) (MAX_SLOTS + 1) 0 (slotToCar st)) as (stc & -> & Hlstc' & Hstc & _);
    [lia|unfold MAX_SLOTS; lia|rewrite Hlstc; unfold MAX_SLOTS; lia|].
  mstep. eexists. split; [done|].
  assert (Hsoc' : ∀ c, is_car c → get soc c = -1).
  { intros c Hc. apply Hsoc. unfold_ids. lia. }
  assert (Hstc' : ∀ s, is_slot s → get stc s = -1).
  { intros s Hs. apply Hstc. unfold_ids. lia. }
  split.
  { unfold Inv.
    cbn [heap wq slotOfCar entryTimeOfCar passUser slotToCar emptyQueue waitCount].
    split; [|split; [congruence|split; [congruence|lia]]].
    apply (reset_ok _ (wq st) soc stc Hh Hel Hlq); [congruence|done|congruence|done]. }
  cbn [heap wq slotOfCar entryTimeOfCar passUser slotToCar history totalRevenue].
  split.
  { intros c Hc. unfold status_of. cbn [slotOfCar]. rewrite Hsoc' by done.
    split; [done|]. split; [apply Het|apply Hpu]; unfold_ids; lia. }
  split.
  { intros s. unfold free_slot. cbn [slotToCar]. split; [tauto|].
    intros Hs. split; [done|by apply Hstc']. }
  done.
Qed.

Lemma initSystem_resets_all_witness :
  well_sized st_full ∧
  ∃ st', initSystem st_full = Some st' ∧ Inv st' ∧
    (∀ c, is_car c →
       status_of st' c = Absent ∧ get (entryTimeOfCar st') c = 0 ∧
       get (passUser st') c = 0) ∧
    (∀ s, free_slot st' s ↔ is_slot s) ∧
    heap_elems (heap st') = [1; 2; 3; 4; 5; 6; 7; 8; 9; 10] ∧
    queue_list (wq st') = [] ∧ waitCount (wq st') = 0 ∧
    totalRevenue st' = 0 ∧ history st' = [].
Proof.
  assert (Hws : well_sized st_full) by (vm_compute; repeat split).
  split; [exact Hws|]. exact (initSystem_resets_all st_full Hws).
Defined.

(** ** The listings *)

Lemma searchCar_spec c st :
  Inv st → is_car c → searchCar c st = Some (Found c (status_of st c)).
Proof.
  intros HI Hc. pose proof HI as (L & _).
  pose proof (Inv_lengths st HI) as (Hlsoc & Hlet & _).
  unfold searchCar, status_of. rewrite in_range_true by done. cbn [negb].
  rewrite !rd_in by in_bounds. mstep.
  destruct (ok_status _ _ _ _ L c Hc) as [Hs|[Hs|Hs]].
  - by rewrite Hs.
  - by rewrite Hs.
  - unfold is_slot, MAX_SLOTS in Hs.
    destruct (Z.leb_spec 1 (get (slotOfCar st) c)); [|lia].
    destruct (Z.eqb_spec (get (slotOfCar st) c) (-1)); [lia|].
    destruct (Z.eqb_spec (get (slotOfCar st) c) (-2)); [lia|]. done.
Qed.

Lemma searchCar_invalid c st :
  ¬ is_car c → searchCar c st = Some InvalidVehicleId.
Proof. intros. unfold searchCar. by rewrite in_range_false. Qed.

Lemma ascending_cons (s : Z) (rest : list Z) :
  (∀ y, y ∈ rest → s < y) →
  (∀ l1 x l2, rest = l1 ++ x :: l2 → ∀ y, y ∈ l2 → x < y) →
  ∀ l1 x l2, s :: rest = l1 ++ x :: l2 → ∀ y, y ∈ l2 → x < y.
Proof.
  intros Hs Hrest [|z l1] x l2 Heq y Hy; simplify_eq/=.
  - by apply Hs.
  - by apply (Hrest l1 x l2).
Qed.

(** The three loops over the slots, read together. *)
Lemma listings_spec (stc et : list Z) n : ∀ s,
  0 ≤ s → s + Z.of_nat n ≤ Z.of_nat (length stc) →
  (∀ x, s ≤ x < s + Z.of_nat n →
        get stc x = -1 ∨ 0 ≤ get stc x < Z.of_nat (length et)) →
  ∃ lf lp lm,
    freeFrom n s stc = Some lf ∧ parkedFrom n s stc et = Some lp ∧
    slotMapFrom n s stc = Some lm ∧
    (∀ x, x ∈ lf ↔ s ≤ x < s + Z.of_nat n ∧ get stc x = -1) ∧
    (∀ l1 x l2, lf = l1 ++ x :: l2 → ∀ y, y ∈ l2 → x < y) ∧
    (∀ x c e, (x, c, e) ∈ lp ↔
       s ≤ x < s + Z.of_nat n ∧ get stc x = c ∧ c ≠ -1 ∧ e = get et c) ∧
    (∀ x, SlotEmpty x ∈ lm ↔ x ∈ lf) ∧
    (∀ x c, SlotCar x c ∈ lm ↔ (x, c, get et c) ∈ lp) ∧
    (length lf + length lp = n)%nat ∧ length lm = n.
Proof.
  induction n as [|n IH]; intros s Hs Hn Hocc.
  - exists [], [], []. cbn [freeFrom parkedFrom slotMapFrom].
    do 3 (split; [done|]).
    split; [intros x; rewrite elem_of_nil; lia|].
    split; [by intros [|??] ???|].
    split; [intros x c e; rewrite elem_of_nil; lia|].
    split; [intros x; by rewrite !elem_of_nil|].
    split; [intros x c; by rewrite !elem_of_nil|]. done.
  - destruct (IH (s + 1)) as (lf & lp & lm & Hf & Hp & Hm & F1 & F2 & P1 & M1 & M2 & Hlen & Hlm);
      [lia|lia|intros x Hx; apply Hocc; lia|].
    cbn [freeFrom parkedFrom slotMapFrom].
    rewrite !rd_in by lia. mstep. rewrite Hf, Hp, Hm. mstep.
    destruct (Z.eqb_spec (get stc s) (-1)) as [Hfree|Hoccupied].
    + mstep. cbn [app]. do 3 eexists. do 3 (split; [done|]).
      split.
      { intros x. rewrite elem_of_cons, F1.
        destruct (decide (x = s)) as [->|]; [intuition lia|lia]. }
      split.
      { apply ascending_cons; [|done]. intros y Hy. apply F1 in Hy. lia. }
      split.
      { intros x c e. rewrite P1.
        destruct (decide (x = s)) as [->|]; [intuition lia|lia]. }
      split.
      { intros x. rewrite !elem_of_cons, M1.
        split; (intros [Heq|?]; [left; congruence|by right]). }
      split.
      { intros x c. rewrite elem_of_cons, M2.
        split; [intros [Heq|?]; [discriminate|done]|by right]. }
      cbn [length]. lia.
    + destruct (Hocc s) as [?|Hin]; [lia|done|].
      rewrite rd_in by lia. mstep. cbn [app].
      do 3 eexists. do 3 (split; [done|]).
      split.
      { intros x. rewrite F1.
        destruct (decide (x = s)) as [->|]; [intuition lia|lia]. }
      split; [done|].
      split.
      { intros x c e. rewrite elem_of_cons, P1. split.
        - intros [[= -> -> ->]|?]; [lia|intuition lia].
        - intros (Hx & Hc & Hne & He).
          destruct (decide (x = s)) as [->|]; [left; congruence|right; lia]. }
      split.
      { intros x. rewrite elem_of_cons, M1.
        split; [intros [Heq|?]; [discriminate|done]|by right]. }
      split.
      { intros x c. rewrite !elem_of_cons, M2. split.
        - intros [[= -> ->]|?]; [by left|by right].
        - intros [[= -> ->]|?]; [by left|by right]. }
      cbn [length]. lia.
Qed.

Lemma listings_of_state st :
  Inv st →
  ∃ lf lp lm,
    showFreeSlots st = Some (FreeSlots lf) ∧
    showParkedVehicles st = Some lp ∧ showSlotMap st = Some lm ∧
    (∀ x, x ∈ lf ↔ free_slot st x) ∧
    (∀ l1 x l2, lf = l1 ++ x :: l2 → ∀ y, y ∈ l2 → x < y) ∧
    (∀ x c e, (x, c, e) ∈ lp ↔
       is_slot x ∧ get (slotToCar st) x = c ∧ c ≠ -1 ∧
       e = get (entryTimeOfCar st) c) ∧
    (∀ x, SlotEmpty x ∈ lm ↔ x ∈ lf) ∧
    (∀ x c, SlotCar x c ∈ lm ↔ (x, c, get (entryTimeOfCar st) c) ∈ lp) ∧
    (length lf + length lp = 10)%nat ∧ length lm = 10%nat.
Proof.
  intros HI. pose proof HI as (L & _).
  pose proof (Inv_lengths st HI) as (Hlsoc & Hlet & Hlpu & Hlstc).
  destruct (listings_spec (slotToCar st) (entryTimeOfCar st) (Z.to_nat MAX_SLOTS) 1)
    as (lf & lp & lm & Hf & Hp & Hm & F1 & F2 & P1 & M1 & M2 & Hlen & Hlm).
  - lia.
  - in_bounds.
  - intros x Hx. destruct (ok_occ _ _ _ _ L x) as [?|Hc]; [unfold_ids; lia|by left|].
    right. unfold_ids. lia.
  - exists lf, lp, lm. unfold showFreeSlots, showParkedVehicles, showSlotMap.
    rewrite Hf, Hp, Hm. mstep. do 3 (split; [done|]).
    split.
    { intros x. rewrite F1. unfold free_slot. unfold_ids. lia. }
    split; [done|]. split.
    { intros x c e. rewrite P1. unfold_ids. lia. }
    done.
Qed.

Lemma status_of_cases st c :
  (status_of st c = Absent ↔ get (slotOfCar st) c = -1) ∧
  (status_of st c = Waiting ↔ get (slotOfCar st) c = -2) ∧
  (∀ s e, status_of st c = ParkedAt s e ↔
     get (slotOfCar st) c = s ∧ s ≠ -1 ∧ s ≠ -2 ∧
     e = get (entryTimeOfCar st) c).
Proof.
  unfold status_of.
  destruct (Z.eqb_spec (get (slotOfCar st) c) (-1)) as [H1|H1];
    [|destruct (Z.eqb_spec (get (slotOfCar st) c) (-2)) as [H2|H2]].
  - split; [done|]. split; [split; [done|lia]|].
    intros s e. split; [done|lia].
  - split; [split; [done|lia]|]. split; [done|].
    intros s e. split; [done|lia].
  - split; [split; [done|lia]|]. split; [split; [done|lia]|].
    intros s e. split.
    + intros [= <- <-]. done.
    + intros (<- & _ & _ & ->). done.
Qed.

Lemma searchCar_parked_iff st c x e :
  Inv st →
  searchCar c st = Some (Found c (ParkedAt x e)) ↔
  is_slot x ∧ get (slotToCar st) x = c ∧ c ≠ -1 ∧
  e = get (entryTimeOfCar st) c.
Proof.
  intros HI. pose proof HI as (L & _).
  destruct (decide (is_car c)) as [Hc|Hc].
  - rewrite searchCar_spec by done.
    destruct (status_of_cases st c) as (_ & _ & Hp).
    split.
    + intros [= Hst]. apply Hp in Hst as (Hs & Hn1 & Hn2 & ->).
      assert (Hx : is_slot x).
      { destruct (ok_status _ _ _ _ L c Hc) as [?|[?|?]]; [lia|lia|congruence]. }
      split; [done|]. split; [by apply (ok_bij _ _ _ _ L)|].
      split; [unfold is_car in Hc; lia|done].
    + intros (Hx & Hstc & _ & ->). f_equal. f_equal. apply Hp.
      apply (ok_bij _ _ _ _ L x c Hx Hc) in Hstc.
      unfold is_slot in Hx. split; [done|]. split; [lia|]. split; [lia|done].
  - rewrite searchCar_invalid by done. split; [done|].
    intros (Hx & Hstc & Hne & _).
    destruct (ok_occ _ _ _ _ L x Hx) as [?|?]; [congruence|]. by subst c.
Qed.

Lemma ascending_NoDup (l : list Z) :
  (∀ l1 x l2, l = l1 ++ x :: l2 → ∀ y, y ∈ l2 → x < y) → NoDup l.
Proof.
  induction l as [|x l IH]; intros Hasc; [apply NoDup_nil_2|].
  apply NoDup_cons. split.
  - intros Hx. specialize (Hasc [] x l eq_refl x Hx). lia.
  - apply IH. intros l1 z l2 -> y Hy. by apply (Hasc (x :: l1) z l2).
Qed.

Lemma free_listing_heap st lf :
  Inv st → (∀ x, x ∈ lf ↔ free_slot st x) →
  (∀ l1 x l2, lf = l1 ++ x :: l2 → ∀ y, y ∈ l2 → x < y) →
  lf ≡ₚ heap_elems (heap st) ∧ Z.of_nat (length lf) = heapSize (heap st).
Proof.
  intros (L & _) Hfree Hasc.
  assert (Hperm : lf ≡ₚ heap_elems (heap st)).
  { apply NoDup_Permutation; [by apply ascending_NoDup|apply L|].
    intros x. rewrite Hfree. symmetry. apply (ok_free _ _ _ _ L). }
  split; [done|]. rewrite Hperm.
  destruct (ok_heap _ _ _ _ L) as (Hlen & Hsz & _). unfold MAX_SLOTS in Hsz.
  unfold heap_elems. rewrite seg_length by lia. lia.
Qed.

Lemma contents_lookup (a : list Z) n : ∀ front (i : nat),
  0 ≤ front < WAIT_CAP → (i < n)%nat →
  contents a front n !! i =
    Some (get a (Z.rem (front + Z.of_nat i) WAIT_CAP)).
Proof.
  unfold WAIT_CAP.
  induction n as [|n IH]; intros front i Hf Hi; [lia|].
  cbn [contents]. destruct i as [|i].
  - cbn. do 2 f_equal. lia.
  - change (contents a (Z.rem (front + 1) 10) n !! i =
            Some (get a (Z.rem (front + Z.of_nat (S i)) 10))).
    rewrite (IH (Z.rem (front + 1) 10) i) by lia. do 2 f_equal. lia.
Qed.

(** X7.  [showWaitingQueue] lists, from front to rear and without
    repetition, exactly the cars that [searchCar] reports as waiting; the
    list has [waitCount] entries, at most WAIT_CAP.  The order is that
    of the queue: the entry at position [i] (counting from 0) is the
    cell [(waitFront + i) % WAIT_CAP], the first car listed is the one
    [dequeueWait] returns next, the listing that remains is the rest in
    the same order, and a car that joins is listed last. *)
Theorem showWaitingQueue_lists_waiting (st : State) :
  reachable st →
  ∃ l, showWaitingQueue st = Some (WaitingList l) ∧ NoDup l ∧
       Z.of_nat (length l) = waitCount (wq st) ∧
       waitCount (wq st) ≤ WAIT_CAP ∧
       (∀ c, c ∈ l ↔ searchCar c st = Some (Found c Waiting)) ∧
       l = queue_list (wq st) ∧
       (∀ i : nat, Z.of_nat i < waitCount (wq st) →
          l !! i = Some (get (waitQ (wq st))
                             (Z.rem (waitFront (wq st) + Z.of_nat i) WAIT_CAP))) ∧
       (∀ x xs, l = x :: xs →
          ∃ q', dequeueWait (wq st) = Some (x, q') ∧ queue_list q' = xs) ∧
       (∀ c, waitCount (wq st) < WAIT_CAP →
          ∃ q', enqueueWait c (wq st) = Some (1, q') ∧
                queue_list q' = l ++ [c]).
Proof.
  intros Hreach. pose proof (reachable_Inv st Hreach) as HI.
  pose proof HI as (L & _).
  exists (queue_list (wq st)). split; [by apply showWaitingQueue_spec|].
  split; [apply L|].
  pose proof (ok_wq _ _ _ _ L) as Hq. pose proof Hq as (_ & Hcnt & Hfront & _).
  split; [rewrite length_queue_list; lia|]. split; [lia|].
  split.
  { intros c. rewrite (ok_wait _ _ _ _ L).
    destruct (decide (is_car c)) as [Hc|Hc].
    - rewrite searchCar_spec by done.
      destruct (status_of_cases st c) as (_ & Hw & _). split.
      + intros [_ Hs]. do 2 f_equal. by apply Hw.
      + intros [= Hst]. split; [done|]. by apply Hw.
    - rewrite searchCar_invalid by done. split; [tauto|done]. }
  split; [done|]. split.
  { intros i Hi. unfold queue_list. apply contents_lookup; [done|lia]. }
  split.
  - intros x xs Hl.
    assert (Hpos : 0 < waitCount (wq st)).
    { pose proof (length_queue_list (wq st)) as Hlen. rewrite Hl in Hlen.
      cbn in Hlen. lia. }
    destruct (dequeueWait_spec (wq st) Hq Hpos)
      as (x' & xs' & q' & Hl' & Hdq & _ & Hrest & _).
    rewrite Hl in Hl'. injection Hl' as <- <-. by exists q'.
  - intros c Hroom.
    destruct (enqueueWait_spec c (wq st) Hq Hroom) as (q' & Henq & _ & Hl & _).
    by exists q'.
Qed.

Lemma showWaitingQueue_lists_waiting_witness :
  reachable st_full ∧
  ∃ l, showWaitingQueue st_full = Some (WaitingList l) ∧ NoDup l ∧
       Z.of_nat (length l) = waitCount (wq st_full) ∧
       waitCount (wq st_full) ≤ WAIT_CAP ∧
       (∀ c, c ∈ l ↔ searchCar c st_full = Some (Found c Waiting)) ∧
       l = queue_list (wq st_full).
Proof.
  split; [exact st_full_reachable|].
  destruct (showWaitingQueue_lists_waiting st_full st_full_reachable)
    as (l & Hshow & Hnd & Hlen & Hcap & Hmem & Hl & _).
  exists l. do 5 (split; [done|]). exact Hl.
Defined.

(** X8.  [showFreeSlots] lists the free slots of the slot map in
    increasing order; they are exactly the slots the heap holds, and the
    first slot listed is the one the next Entry of an absent car gets. *)
Theorem showFreeSlots_matches_heap (st : State) :
  reachable st →
  ∃ l, showFreeSlots st = Some (FreeSlots l) ∧
       (∀ x, x ∈ l ↔ free_slot st x) ∧
       (∀ l1 x l2, l = l1 ++ x :: l2 → ∀ y, y ∈ l2 → x < y) ∧
       l ≡ₚ heap_elems (heap st) ∧
       Z.of_nat (length l) = heapSize (heap st) ∧
       (∀ x rest c now mem,
          l = x :: rest → is_car c → status_of st c = Absent →
          ∃ st', vehicleEntry c now mem st = Some (st', Parked c x now)).
Proof.
  intros Hreach. pose proof (reachable_Inv st Hreach) as HI.
  pose proof HI as (L & _).
  destruct (listings_of_state st HI)
    as (lf & lp & lm & Hf & _ & _ & F1 & F2 & _).
  destruct (free_listing_heap st lf HI F1 F2) as [Hperm Hlen].
  exists lf. do 5 (split; [done|]).
  intros x rest c now mem -> Hc Habs.
  apply (status_of_cases st c) in Habs.
  assert (Hpos : 0 < heapSize (heap st)) by (cbn [length] in Hlen; lia).
  destruct (vehicleEntry_parked c now mem st HI Hc Habs Hpos)
    as (m & h & _ & _ & Hpm & Hmin & ->).
  assert (Hxm : m ≤ x).
  { apply Hmin. rewrite <- Hperm. left. }
  assert (Hmin' : m ∈ x :: rest).
  { rewrite Hperm, Hpm. left. }
  assert (m = x) as ->.
  { apply elem_of_cons in Hmin' as [->|Hin]; [done|].
    specialize (F2 [] x rest eq_refl m Hin). lia. }
  by eexists.
Qed.

Lemma showFreeSlots_matches_heap_witness :
  reachable st_three ∧
  ∃ l, showFreeSlots st_three = Some (FreeSlots l) ∧
       (∀ x, x ∈ l ↔ free_slot st_three x) ∧
       (∀ l1 x l2, l = l1 ++ x :: l2 → ∀ y, y ∈ l2 → x < y) ∧
       l ≡ₚ heap_elems (heap st_three) ∧
       Z.of_nat (length l) = heapSize (heap st_three) ∧
       (∀ x rest c now mem,
          l = x :: rest → is_car c → status_of st_three c = Absent →
          ∃ st', vehicleEntry c now mem st_three =
                   Some (st', Parked c x now)).
Proof.
  split; [exact st_three_reachable|].
  exact (showFreeSlots_matches_heap st_three st_three_reachable).
Defined.

(** X9.  [showParkedVehicles] lists slot, car and entry time of exactly
    the cars that [searchCar] reports as parked, with the same slot and
    entry time; the number of lines plus the number of slots in the heap
    is MAX_SLOTS, and all MAX_SLOTS slots are listed whenever a car is
    waiting. *)
Theorem showParkedVehicles_lists_parked (st : State) :
  reachable st →
  ∃ lp, showParkedVehicles st = Some lp ∧
        (∀ x c e, (x, c, e) ∈ lp ↔
           searchCar c st = Some (Found c (ParkedAt x e))) ∧
        Z.of_nat (length lp) + heapSize (heap st) = MAX_SLOTS ∧
        (0 < waitCount (wq st) → Z.of_nat (length lp) = MAX_SLOTS).
Proof.
  intros Hreach. pose proof (reachable_Inv st Hreach) as HI.
  pose proof HI as (L & _ & _ & Hfull).
  destruct (listings_of_state st HI)
    as (lf & lp & lm & _ & Hp & _ & F1 & F2 & P1 & _ & _ & Hlen & _).
  destruct (free_listing_heap st lf HI F1 F2) as [_ Hlf].
  exists lp. split; [done|]. split.
  { intros x c e. rewrite P1. symmetry. by apply searchCar_parked_iff. }
  split; [unfold MAX_SLOTS; lia|].
  intros Hpos. specialize (Hfull Hpos). unfold MAX_SLOTS. lia.
Qed.

Lemma showParkedVehicles_lists_parked_witness :
  reachable st_full ∧
  ∃ lp, showParkedVehicles st_full = Some lp ∧
        (∀ x c e, (x, c, e) ∈ lp ↔
           searchCar c st_full = Some (Found c (ParkedAt x e))) ∧
        Z.of_nat (length lp) + heapSize (heap st_full) = MAX_SLOTS ∧
        (0 < waitCount (wq st_full) → Z.of_nat (length lp) = MAX_SLOTS).
Proof.
  split; [exact st_full_reachable|].
  exact (showParkedVehicles_lists_parked st_full st_full_reachable).
Defined.

Lemma slotMapFrom_slots (stc : list Z) n : ∀ s lm,
  slotMapFrom n s stc = Some lm →
  map line_slot lm = seqZ s (Z.of_nat n).
Proof.
  induction n as [|n IH]; intros s lm Hm.
  - cbn in Hm. by injection Hm as <-.
  - cbn [slotMapFrom] in Hm.
    destruct (rd stc s) as [x|]; [|done]. cbn [mbind option_bind] in Hm.
    destruct (slotMapFrom n (s + 1) stc) as [rest|] eqn:Hrest; [|done].
    cbn [mbind option_bind] in Hm. injection Hm as <-.
    rewrite seqZ_cons by lia. cbn [map].
    rewrite (IH (s + 1) rest Hrest).
    replace (Z.pred (Z.of_nat (S n))) with (Z.of_nat n) by lia.
    f_equal. by destruct (x =? -1).
Qed.

(** X10.  [showSlotMap] prints one line per slot, for the slots
    1, 2, ..., MAX_SLOTS in this order: a slot is shown empty exactly
    when it is free, and shown with car [c] exactly when [searchCar c]
    reports [c] parked at that slot. *)
Theorem showSlotMap_agrees (st : State) :
  reachable st →
  ∃ lm, showSlotMap st = Some lm ∧ length lm = 10%nat ∧
        (∀ x, SlotEmpty x ∈ lm ↔ free_slot st x) ∧
        (∀ x c, SlotCar x c ∈ lm ↔
           ∃ e, searchCar c st = Some (Found c (ParkedAt x e))) ∧
        map line_slot lm = [1; 2; 3; 4; 5; 6; 7; 8; 9; 10].
Proof.
  intros Hreach. pose proof (reachable_Inv st Hreach) as HI.
  destruct (listings_of_state st HI)
    as (lf & lp & lm & _ & _ & Hm & F1 & _ & P1 & M1 & M2 & _ & Hlm).
  exists lm. do 2 (split; [done|]). split.
  { intros x. by rewrite M1, F1. }
  split.
  { intros x c. rewrite M2, P1. split.
    - intros H. exists (get (entryTimeOfCar st) c). by apply searchCar_parked_iff.
    - intros (e & He). apply searchCar_parked_iff in He; [|done].
      destruct He as (? & ? & ? & _). done. }
  apply (slotMapFrom_slots (slotToCar st) (Z.to_nat MAX_SLOTS) 1 lm Hm).
Qed.

Lemma showSlotMap_agrees_witness :
  reachable st_three ∧
  ∃ lm, showSlotMap st_three = Some lm ∧ length lm = 10%nat ∧
        (∀ x, SlotEmpty x ∈ lm ↔ free_slot st_three x) ∧
        (∀ x c, SlotCar x c ∈ lm ↔
           ∃ e, searchCar c st_three = Some (Found c (ParkedAt x e))) ∧
        map line_slot lm = [1; 2; 3; 4; 5; 6; 7; 8; 9; 10].
Proof.
  split; [exact st_three_reachable|].
  exact (showSlotMap_agrees st_three st_three_reachable).
Defined.

(** X6.  No menu choice leaves an array or loops for ever: in every
    reachable state Entry, Exit, Search, Pass, Emergency and the
    listings of the waiting queue and of the free slots, with any car
    id, clock readings and [malloc] result, and the listings of the slot
    map and of the parked vehicles, keep every index inside its array
    and terminate; the same is true after any finite sequence of
    operations.  ([showHistory] and [showRevenue] touch no array.  The
    statement is about indices and loops only: fees and revenue are
    computed with 32-bit wrap-around.) *)
Theorem menu_stays_in_bounds (st : State) :
  reachable st →
  (∀ op, ∃ st' out, step op st = Some (st', out)) ∧
  (∃ lm, showSlotMap st = Some lm) ∧
  (∃ lp, showParkedVehicles st = Some lp) ∧
  (∀ ops, ∃ st',
     run ops st = Some st' ∧
     (∀ op, ∃ st'' out, step op st' = Some (st'', out)) ∧
     (∃ lm, showSlotMap st' = Some lm) ∧
     (∃ lp, showParkedVehicles st' = Some lp)).
Proof.
  assert (Hone : ∀ st0, Inv st0 →
            (∀ op, ∃ st' out, step op st0 = Some (st', out)) ∧
            (∃ lm, showSlotMap st0 = Some lm) ∧
            (∃ lp, showParkedVehicles st0 = Some lp)).
  { intros st0 HI. split.
    - intros op. destruct (step_inv op st0 HI) as (st' & out & Hstep & _).
      by exists st', out.
    - destruct (listings_of_state st0 HI)
        as (lf & lp & lm & _ & Hp & Hm & _). split; eauto. }
  intros Hreach. pose proof (reachable_Inv st Hreach) as HI.
  destruct (Hone st HI) as (Hstep & Hmap & Hparked).
  do 3 (split; [done|]).
  intros ops. destruct (run_total ops st HI) as (st' & Hrun & HI').
  exists st'. split; [done|]. by apply Hone.
Qed.

Lemma menu_stays_in_bounds_witness :
  reachable st_crowded ∧
  (∃ st' out, step (OpExit 5 (-7) 0 false) st_crowded = Some (st', out)) ∧
  (∃ lp, showParkedVehicles st_crowded = Some lp).
Proof.
  split; [exact st_crowded_reachable|].
  pose proof (menu_stays_in_bounds st_crowded st_crowded_reachable)
    as (Hstep & _ & Hparked & _).
  split; [exact (Hstep (OpExit 5 (-7) 0 false))|exact Hparked].
Defined.

(** ** What Entry and Exit can do *)

Lemma vehicleEntry_cases c now mem st st' out :
  Inv st → vehicleEntry c now mem st = Some (st', out) →
  (st' = st ∧ rejected out = true) ∨
  (∃ q, is_car c ∧ get (slotOfCar st) c = -1 ∧ heapSize (heap st) = 0 ∧
        wq_inv q ∧ queue_list q = queue_list (wq st) ++ [c] ∧
        waitCount q = waitCount (wq st) + 1 ∧
        out = Queued c (waitCount q) ∧
        st' = mkState (heap st) q (<[Z.to_nat c := -2]> (slotOfCar st))
                      (entryTimeOfCar st) (passUser st) (slotToCar st)
                      (history st) (totalRevenue st)) ∨
  (∃ m h, is_car c ∧ get (slotOfCar st) c = -1 ∧ is_slot m ∧
          get (slotToCar st) m = -1 ∧ waitCount (wq st) = 0 ∧
          heap_inv h ∧ heap_elems (heap st) ≡ₚ m :: heap_elems h ∧
          out = Parked c m now ∧
          st' = mkState h (wq st) (<[Z.to_nat c := m]> (slotOfCar st))
                        (<[Z.to_nat c := now]> (entryTimeOfCar st))
                        (passUser st)
                        (<[Z.to_nat m := c]> (slotToCar st))
                        (addHistoryNode mem c m now 0 (history st))
                        (totalRevenue st)).
Proof.
  intros HI Hentry. pose proof HI as (L & _ & _ & Hfull).
  destruct (decide (is_car c)) as [Hc|Hc].
  2:{ rewrite vehicleEntry_invalid in Hentry by done.
      injection Hentry as <- <-. by left. }
  pose proof (ok_heap _ _ _ _ L) as (_ & Hsz & _).
  pose proof (ok_wq _ _ _ _ L) as (_ & Hwsz & _).
  destruct (ok_status _ _ _ _ L c Hc) as [Hs|[Hs|Hs]].
  - destruct (decide (0 < heapSize (heap st))) as [Hh|Hh].
    + destruct (vehicleEntry_parked c now mem st HI Hc Hs Hh)
        as (m & h & _ & Hh' & Hperm & _ & Heq).
      rewrite Heq in Hentry. injection Hentry as <- <-.
      assert (Hm : is_slot m ∧ get (slotToCar st) m = -1).
      { apply (ok_free _ _ _ _ L). rewrite Hperm. left. }
      destruct Hm as [Hm Hmf].
      right. right. exists m, h. do 4 (split; [done|]).
      split; [|done].
      destruct (decide (0 < waitCount (wq st))) as [Hw|]; [|lia].
      specialize (Hfull Hw). lia.
    + destruct (decide (waitCount (wq st) < WAIT_CAP)) as [Hw|Hw].
      * destruct (vehicleEntry_queued c now mem st) as (q & _ & Hq & Hql & Hcnt & Heq);
          [done|done|done|lia|done|].
        rewrite Heq in Hentry. injection Hentry as <- <-.
        right. left. exists q. do 2 (split; [done|]). split; [lia|]. done.
      * rewrite vehicleEntry_full in Hentry by (done || lia).
        injection Hentry as <- <-. by left.
  - rewrite vehicleEntry_waiting_dup in Hentry by done.
    injection Hentry as <- <-. by left.
  - rewrite vehicleEntry_parked_dup in Hentry by done.
    injection Hentry as <- <-. by left.
Qed.

Lemma vehicleExit_cases c now now2 mem st st' out :
  Inv st → vehicleExit c now now2 mem st = Some (st', out) →
  (st' = st ∧ rejected out = true) ∨
  (∃ q, is_car c ∧ get (slotOfCar st) c = -2 ∧ wq_inv q ∧
        queue_list q = filter (λ x, x ≠ c) (queue_list (wq st)) ∧
        waitCount q = waitCount (wq st) - 1 ∧
        out = RemovedFromQueue c ∧
        st' = mkState (heap st) q (<[Z.to_nat c := -1]> (slotOfCar st))
                      (entryTimeOfCar st) (passUser st) (slotToCar st)
                      (history st) (totalRevenue st)) ∨
  (∃ s h p,
     is_car c ∧ get (slotOfCar st) c = s ∧ is_slot s ∧
     heapInsert s (heap st) = Some h ∧
     let secs := elapsed now (get (entryTimeOfCar st) c) in
     let fee := fee_of (get (passUser st) c) secs in
     let rev := wrap32 (totalRevenue st + fee) in
     let hist := closeHistory c s now (history st) in
     let soc := <[Z.to_nat c := -1]> (slotOfCar st) in
     let et := <[Z.to_nat c := 0]> (entryTimeOfCar st) in
     let stc := <[Z.to_nat s := -1]> (slotToCar st) in
     out = Exited c s fee secs p ∧
     ((waitCount (wq st) = 0 ∧ p = NoPromotion ∧
       st' = mkState h (wq st) soc et (passUser st) stc hist rev) ∨
      (∃ next rest q m h',
         queue_list (wq st) = next :: rest ∧ queue_list q = rest ∧
         is_car next ∧ next ≠ c ∧ is_slot m ∧
         heapRemoveMin h = Some (m, h') ∧
         p = Promoted next m now2 ∧
         st' = mkState h' q (<[Z.to_nat next := m]> soc)
                       (<[Z.to_nat next := now2]> et) (passUser st)
                       (<[Z.to_nat m := next]> stc)
                       (addHistoryNode mem next m now2 0 hist) rev))).
Proof.
  intros HI Hexit. pose proof HI as (L & _).
  pose proof (Inv_lengths st HI) as (Hlsoc & _).
  destruct (decide (is_car c)) as [Hc|Hc].
  2:{ rewrite vehicleExit_invalid in Hexit by done.
      injection Hexit as <- <-. by left. }
  destruct (ok_status _ _ _ _ L c Hc) as [Hs|[Hs|Hs]].
  - rewrite vehicleExit_absent in Hexit by done.
    injection Hexit as <- <-. by left.
  - destruct (vehicleExit_waiting c now now2 mem st HI Hc Hs)
      as (q & l1 & l2 & Heq & Hq & _ & _ & Hfilter & Hcnt).
    rewrite Heq in Hexit. injection Hexit as <- <-.
    right. left. by exists q.
  - destruct (vehicleExit_parked c now now2 mem st _ HI Hc eq_refl Hs)
      as (h & Hins & _ & _ & _ & L1 & Hnone & Hsome).
    right. right.
    destruct (decide (0 < waitCount (wq st))) as [Hpos|Hzero].
    + destruct (Hsome Hpos)
        as (next & rest & q & m & h' & Hql & _ & _ & Hrest & _ & Hnext & Hnw
            & Hrm & _ & _ & _ & Hperm' & _ & Heq).
      rewrite Heq in Hexit. injection Hexit as <- <-.
      assert (Hne : next ≠ c).
      { intros ->. revert Hnw. rewrite get_upd_eq by in_bounds. lia. }
      assert (Hm : is_slot m).
      { apply (ok_free _ _ _ _ L1). rewrite Hperm'. left. }
      do 3 eexists. do 4 (split; [done|]). cbv zeta. split; [done|].
      right. exists next, rest, q, m, h'. done.
    + pose proof (ok_wq _ _ _ _ L) as (_ & ? & _).
      rewrite Hnone in Hexit by lia. injection Hexit as <- <-.
      do 3 eexists. do 4 (split; [done|]). cbv zeta. split; [done|].
      left. split; [lia|]. done.
Qed.

Lemma get_of_lookup (a : list Z) i v :
  0 ≤ i < Z.of_nat (length a) → get a i = v → a !! Z.to_nat i = Some v.
Proof.
  intros Hi <-. pose proof (rd_in a i Hi) as Hrd. unfold rd in Hrd.
  by destruct (Z.ltb_spec i 0); [lia|].
Qed.

Lemma upd_same (a : list Z) i :
  0 ≤ i < Z.of_nat (length a) → <[Z.to_nat i := get a i]> a = a.
Proof. intros Hi. apply list_insert_id. by apply get_of_lookup. Qed.

(** X11.  [searchCar] reports what the last operation on a car did: after
    an Entry that parked it, the assigned slot with the clock reading of
    the Entry; after an Entry that queued it, waiting; after its Exit,
    not found, whether it was parked or waiting; and a car promoted by
    that Exit is reported at its new slot with the second clock
    reading. *)
Theorem searchCar_tracks_operations (st : State) (c now now2 : Z)
    (mem : bool) (st' : State) (out : Outcome) :
  reachable st →
  vehicleEntry c now mem st = Some (st', out) ∨
  vehicleExit c now now2 mem st = Some (st', out) →
  match out with
  | Parked c' s t =>
      c' = c ∧ t = now ∧ searchCar c st' = Some (Found c (ParkedAt s now))
  | Queued c' pos =>
      c' = c ∧ pos = waitCount (wq st) + 1 ∧
      searchCar c st' = Some (Found c Waiting)
  | RemovedFromQueue c' =>
      c' = c ∧ searchCar c st' = Some (Found c Absent)
  | Exited c' s fee secs p =>
      c' = c ∧ searchCar c st' = Some (Found c Absent) ∧
      match p with
      | Promoted next m t =>
          t = now2 ∧ searchCar next st' = Some (Found next (ParkedAt m now2))
      | _ => p = NoPromotion
      end
  | _ => st' = st
  end.
Proof.
  intros Hreach Hop. pose proof (reachable_Inv st Hreach) as HI.
  pose proof HI as (L & _).
  pose proof (Inv_lengths st HI) as (Hlsoc & Hlet & Hlpu & Hlstc).
  assert (Hreach' : reachable st').
  { destruct Hop as [Hop|Hop].
    - by apply (reach_step st (OpEntry c now mem) st' out).
    - by apply (reach_step st (OpExit c now now2 mem) st' out). }
  pose proof (reachable_Inv st' Hreach') as HI'.
  destruct Hop as [Hop|Hop].
  - destruct (vehicleEntry_cases c now mem st st' out HI Hop)
      as [[-> Hrej]|[(q & Hc & Hs & _ & _ & _ & Hcnt & -> & Hst)
                    |(m & h & Hc & Hs & Hm & _ & _ & _ & _ & -> & Hst)]].
    + by destruct out.
    + split; [done|]. split; [done|].
      rewrite searchCar_spec by done. do 2 f_equal.
      apply (status_of_cases st' c). rewrite Hst. cbn [slotOfCar].
      by rewrite get_upd_eq by in_bounds.
    + split; [done|]. split; [done|].
      rewrite searchCar_spec by done. do 2 f_equal.
      apply (status_of_cases st' c). rewrite Hst.
      cbn [slotOfCar entryTimeOfCar]. rewrite !get_upd_eq by in_bounds.
      unfold is_slot in Hm. split; [done|]. split; [lia|]. split; [lia|done].
  - destruct (vehicleExit_cases c now now2 mem st st' out HI Hop)
      as [[-> Hrej]|[(q & Hc & Hs & _ & _ & _ & -> & Hst)
                    |(s & h & p & Hc & Hs & Hslot & _ & Hrest)]].
    + by destruct out.
    + split; [done|]. rewrite searchCar_spec by done. do 2 f_equal.
      apply (status_of_cases st' c). rewrite Hst. cbn [slotOfCar].
      by rewrite get_upd_eq by in_bounds.
    + cbv zeta in Hrest. destruct Hrest as [-> Hrest]. split; [done|].
      destruct Hrest as [(_ & -> & Hst)
                        |(next & rest & q & m & h' & _ & _ & Hnext & Hne & Hm & _ & -> & Hst)].
      * split; [|done]. rewrite searchCar_spec by done. do 2 f_equal.
        apply (status_of_cases st' c). rewrite Hst. cbn [slotOfCar].
        by rewrite get_upd_eq by in_bounds.
      * split; [|split; [done|]].
        -- rewrite searchCar_spec by done. do 2 f_equal.
           apply (status_of_cases st' c). rewrite Hst. cbn [slotOfCar].
           rewrite get_upd by in_bounds.
           destruct (Z.eqb_spec c next); [congruence|].
           by rewrite get_upd_eq by in_bounds.
        -- rewrite searchCar_spec by done. do 2 f_equal.
           apply (status_of_cases st' next). rewrite Hst.
           cbn [slotOfCar entryTimeOfCar]. rewrite !get_upd_eq by in_bounds.
           unfold is_slot in Hm. split; [done|]. split; [lia|]. split; [lia|done].
Qed.

Lemma searchCar_tracks_operations_witness :
  reachable st_three ∧
  ∃ st', vehicleEntry 20 700 true st_three = Some (st', Parked 20 2 700) ∧
         searchCar 20 st' = Some (Found 20 (ParkedAt 2 700)).
Proof.
  split; [exact st_three_reachable|].
  assert (Hentry : ∃ st', vehicleEntry 20 700 true st_three =
                            Some (st', Parked 20 2 700)).
  { vm_compute. eexists. reflexivity. }
  destruct Hentry as (st' & Hentry). exists st'. split; [exact Hentry|].
  exact (proj2 (proj2 (searchCar_tracks_operations st_three 20 700 0 true st'
                         (Parked 20 2 700) st_three_reachable
                         (or_introl Hentry)))).
Defined.

Lemma rejected_not_dead o : rejected o = true → dead_outcome o = false.
Proof. by destruct o. Qed.

(** X12.  Two branches of the program are dead: in no reachable state
    does an Entry report "Unable to join waiting", nor an Exit report
    that a waiting car was not found in the queue. *)
Theorem dead_branches (st : State) (op : Op) (st' : State) (out : Outcome) :
  reachable st → step op st = Some (st', out) → dead_outcome out = false.
Proof.
  intros Hreach Hstep. pose proof (reachable_Inv st Hreach) as HI.
  destruct op as [c now mem|c now now2 mem|c| |c| |]; cbn [step] in Hstep.
  - destruct (vehicleEntry_cases c now mem st st' out HI Hstep)
      as [[_ Hrej]|[(q & _ & _ & _ & _ & _ & _ & -> & _)
                   |(m & h & _ & _ & _ & _ & _ & _ & _ & -> & _)]];
      [by apply rejected_not_dead|done|done].
  - destruct (vehicleExit_cases c now now2 mem st st' out HI Hstep)
      as [[_ Hrej]|[(q & _ & _ & _ & _ & _ & -> & _)
                   |(s & h & p & _ & _ & _ & _ & Hrest)]];
      [by apply rejected_not_dead|done|].
    cbv zeta in Hrest. by destruct Hrest as [-> _].
  - unfold addMonthlyPass in Hstep. inv_opt; done.
  - unfold emergencyMode in Hstep. inv_opt; done.
  - unfold query, searchCar in Hstep. inv_opt; done.
  - unfold query, showFreeSlots in Hstep. inv_opt; done.
  - unfold query, showWaitingQueue in Hstep. inv_opt; done.
Qed.

Lemma dead_branches_witness :
  reachable st_crowded ∧
  ∃ st' out, step (OpEntry 33 2000 true) st_crowded = Some (st', out) ∧
             dead_outcome out = false.
Proof.
  split; [exact st_crowded_reachable|].
  assert (Hstep : ∃ st' out, step (OpEntry 33 2000 true) st_crowded =
                               Some (st', out)).
  { vm_compute. do 2 eexists. reflexivity. }
  destruct Hstep as (st' & out & Hstep). exists st', out.
  split; [exact Hstep|].
  exact (dead_branches st_crowded _ st' out st_crowded_reachable Hstep).
Defined.

(** ** The history *)

Lemma record_kept_refl t : record_kept t t.
Proof. by repeat split. Qed.

Lemma Forall2_record_kept_refl (hist : list Node) :
  Forall2 record_kept hist hist.
Proof. induction hist; constructor; [apply record_kept_refl|done]. Qed.

Lemma closeHistory_kept c s now (hist : list Node) :
  Forall2 record_kept hist (closeHistory c s now hist).
Proof.
  induction hist as [|t hist IH]; [constructor|].
  cbn [closeHistory].
  destruct (Z.eqb_spec (car t) c), (Z.eqb_spec (slot t) s),
    (Z.eqb_spec (exitTime t) 0); cbn [andb];
    (constructor; [|done || apply Forall2_record_kept_refl]);
    try apply record_kept_refl.
  by repeat split.
Qed.

Lemma histLine_kept t t' :
  record_kept t t' → exitTime t ≠ 0 → histLine t' = histLine t.
Proof.
  intros (Hc & Hs & He & Hx) Hne. specialize (Hx Hne). unfold histLine.
  rewrite Hc, Hs, He, Hx. done.
Qed.

(** X13.  The history only grows and a closed record never changes: one
    operation puts at most one new record, open, in front of the
    history, and keeps every older record at its place with the same
    car, slot and entry time, its exit time included once it is not 0.
    So a line that [showHistory] prints as closed is printed unchanged
    after any operation, below the new line if there is one. *)
Theorem history_append_only (st : State) (op : Op) (st' : State)
    (out : Outcome) :
  reachable st → step op st = Some (st', out) →
  ∃ new old,
    history st' = new ++ old ∧ (length new ≤ 1)%nat ∧
    (∀ t, t ∈ new → exitTime t = 0) ∧
    Forall2 record_kept (history st) old ∧
    (∀ i c s e x,
       showHistory st !! i = Some (Closed c s e x) →
       showHistory st' !! (length new + i)%nat = Some (Closed c s e x)).
Proof.
  intros Hreach Hstep. pose proof (reachable_Inv st Hreach) as HI.
  assert (Hmain : ∃ new old,
    history st' = new ++ old ∧ (length new ≤ 1)%nat ∧
    (∀ t, t ∈ new → exitTime t = 0) ∧ Forall2 record_kept (history st) old).
  { assert (Hsame : ∀ hist, hist = history st →
              ∃ new old, hist = new ++ old ∧ (length new ≤ 1)%nat ∧
                (∀ t, t ∈ new → exitTime t = 0) ∧
                Forall2 record_kept (history st) old).
    { intros hist ->. exists [], (history st). split; [done|].
      split; [cbn; lia|]. split; [by intros t ?%elem_of_nil|].
      apply Forall2_record_kept_refl. }
    assert (Hadd : ∀ mem c s t old,
              Forall2 record_kept (history st) old →
              ∃ new old', addHistoryNode mem c s t 0 old = new ++ old' ∧
                (length new ≤ 1)%nat ∧ (∀ u, u ∈ new → exitTime u = 0) ∧
                Forall2 record_kept (history st) old').
    { intros mem c s t old Hold. destruct mem; cbn [addHistoryNode].
      - exists [mkNode c s t 0], old. split; [done|]. split; [cbn; lia|].
        split; [|done]. by intros u ->%list_elem_of_singleton.
      - exists [], old. split; [done|]. split; [cbn; lia|].
        split; [|done]. by intros u ?%elem_of_nil. }
    destruct op as [c now mem|c now now2 mem|c| |c| |]; cbn [step] in Hstep.
    - destruct (vehicleEntry_cases c now mem st st' out HI Hstep)
        as [[-> _]|[(q & _ & _ & _ & _ & _ & _ & _ & ->)
                   |(m & h & _ & _ & _ & _ & _ & _ & _ & _ & ->)]];
        cbn [history]; [by apply Hsame..|].
      apply Hadd, Forall2_record_kept_refl.
    - destruct (vehicleExit_cases c now now2 mem st st' out HI Hstep)
        as [[-> _]|[(q & _ & _ & _ & _ & _ & _ & ->)
                   |(s & h & p & _ & _ & _ & _ & Hrest)]];
        cbn [history]; [by apply Hsame..|].
      cbv zeta in Hrest.
      destruct Hrest as [_ [(_ & _ & ->)
                           |(next & rest & q & m & h' & _ & _ & _ & _ & _ & _ & _ & ->)]];
        cbn [history].
      + exists [], (closeHistory c s now (history st)). split; [done|].
        split; [cbn; lia|]. split; [by intros t ?%elem_of_nil|].
        apply closeHistory_kept.
      + apply Hadd, closeHistory_kept.
    - unfold addMonthlyPass in Hstep. inv_opt; by apply Hsame.
    - unfold emergencyMode in Hstep. inv_opt; by apply Hsame.
    - unfold query in Hstep. inv_opt; by apply Hsame.
    - unfold query in Hstep. inv_opt; by apply Hsame.
    - unfold query in Hstep. inv_opt; by apply Hsame. }
  destruct Hmain as (new & old & Heq & Hlen & Hopen & Hkept).
  exists new, old. do 4 (split; [done|]).
  intros i c s e x Hline. unfold showHistory in *.
  rewrite list_lookup_fmap in Hline.
  destruct (history st !! i) as [t|] eqn:Ht; [|done].
  cbn in Hline. injection Hline as Hline.
  destruct (Forall2_lookup_l _ _ _ _ _ Hkept Ht) as (t' & Ht' & Hk).
  rewrite Heq, list_lookup_fmap, lookup_app_r by lia.
  replace (length new + i - length new)%nat with i by lia.
  rewrite Ht'. cbn. f_equal. rewrite <- Hline. apply histLine_kept; [done|].
  unfold histLine in Hline. by destruct (Z.eqb_spec (exitTime t) 0).
Qed.

Lemma history_append_only_witness :
  reachable st_three ∧
  ∃ st' out, step (OpExit 9 900 901 true) st_three = Some (st', out) ∧
    ∃ new old,
      history st' = new ++ old ∧ (length new ≤ 1)%nat ∧
      (∀ t, t ∈ new → exitTime t = 0) ∧
      Forall2 record_kept (history st_three) old ∧
      (∀ i c s e x,
         showHistory st_three !! i = Some (Closed c s e x) →
         showHistory st' !! (length new + i)%nat = Some (Closed c s e x)).
Proof.
  split; [exact st_three_reachable|].
  assert (Hstep : ∃ st' out, step (OpExit 9 900 901 true) st_three =
                               Some (st', out)).
  { vm_compute. do 2 eexists. reflexivity. }
  destruct Hstep as (st' & out & Hstep). exists st', out.
  split; [exact Hstep|].
  exact (history_append_only st_three _ st' out st_three_reachable Hstep).
Defined.

(** ** The fee *)

Lemma fee_of_in_range pass secs :
  0 ≤ secs ≤ MAX_BILLABLE_SECS →
  fee_of pass secs =
    if pass =? 0 then (secs + 3599) ÷ 3600 * FEE_PER_HOUR else 0.
Proof.
  unfold MAX_BILLABLE_SECS, fee_of, charged_hours, FEE_PER_HOUR.
  intros Hs. destruct (pass =? 0); [|done].
  assert (Hq : 0 ≤ (secs + 3599) ÷ 3600 ≤ 42949672) by lia.
  set (q := (secs + 3599) ÷ 3600) in *. clearbody q.
  rewrite (wrap32_id q) by (unfold INT_MIN, INT_MAX; lia).
  destruct (Z.ltb_spec q 0); [lia|].
  apply wrap32_id. unfold INT_MIN, INT_MAX. lia.
Qed.

(** X14.  For stays of at most 42949672 hours the fee never decreases
    with the duration and fits an [int]; a stay of no time costs
    nothing, any longer stay costs a payer at least one hour, a pass
    holder always pays 0, and an exit whose clock reading is not after
    the entry reading (clock skew) counts as a stay of no time. *)
Theorem fee_monotone (pass s1 s2 : Z) :
  0 ≤ s1 → s1 ≤ s2 → s2 ≤ MAX_BILLABLE_SECS →
  0 ≤ fee_of pass s1 ∧ fee_of pass s1 ≤ fee_of pass s2 ∧
  fee_of pass s2 ≤ INT_MAX ∧
  fee_of pass 0 = 0 ∧
  (pass = 0 → 0 < s1 → FEE_PER_HOUR ≤ fee_of pass s1) ∧
  (pass ≠ 0 → fee_of pass s2 = 0) ∧
  (∀ now entry, now ≤ entry →
     elapsed now entry = 0 ∧ fee_of pass (elapsed now entry) = 0).
Proof.
  intros H1 H12 H2.
  assert (H0 : fee_of pass 0 = 0).
  { rewrite fee_of_in_range by (unfold MAX_BILLABLE_SECS; lia).
    by destruct (pass =? 0). }
  assert (Hel : ∀ now entry, now ≤ entry → elapsed now entry = 0).
  { intros now entry Hle. unfold elapsed, difftime.
    destruct (Z.ltb_spec (now - entry) 0); lia. }
  rewrite !fee_of_in_range by lia.
  unfold MAX_BILLABLE_SECS, FEE_PER_HOUR, INT_MAX in *.
  destruct (Z.eqb_spec pass 0) as [Hp|Hp].
  - repeat split; intros; rewrite ?Hel by lia; lia || done.
  - repeat split; intros; rewrite ?Hel by lia; lia || done.
Qed.

Lemma fee_monotone_witness :
  0 ≤ 3600 ∧ 3600 ≤ 3601 ∧ 3601 ≤ MAX_BILLABLE_SECS ∧
  0 ≤ fee_of 0 3600 ∧ fee_of 0 3600 ≤ fee_of 0 3601 ∧
  fee_of 0 3601 ≤ INT_MAX.
Proof.
  assert (H1 : 0 ≤ 3600) by lia. assert (H2 : 3600 ≤ 3601) by lia.
  assert (H3 : 3601 ≤ MAX_BILLABLE_SECS) by (unfold MAX_BILLABLE_SECS; lia).
  do 3 (split; [done|]).
  destruct (fee_monotone 0 3600 3601 H1 H2 H3) as (Ha & Hb & Hc & _).
  split; [exact Ha|]. split; [exact Hb|exact Hc].
Defined.

(** ** How the operations compose *)

(** X15.  [addMonthlyPass] on a valid car sets its flag to 1 and touches
    nothing else, and registering twice is the same as once; an invalid
    id is refused with the state unchanged.  The flag is read only at
    Exit, so a car that registers while it is parked leaves for a fee of
    0 whatever the duration, and the revenue stays as it was. *)
Theorem pass_waives_fee (st : State) (c : Z) :
  reachable st →
  (¬ is_car c → addMonthlyPass c st = Some (st, InvalidVehicleId)) ∧
  (is_car c →
   ∃ st1, addMonthlyPass c st = Some (st1, PassRegistered c) ∧
     get (passUser st1) c = 1 ∧
     (∀ c', c' ≠ c → get (passUser st1) c' = get (passUser st) c') ∧
     heap st1 = heap st ∧ wq st1 = wq st ∧
     slotOfCar st1 = slotOfCar st ∧ slotToCar st1 = slotToCar st ∧
     entryTimeOfCar st1 = entryTimeOfCar st ∧
     history st1 = history st ∧ totalRevenue st1 = totalRevenue st ∧
     addMonthlyPass c st1 = Some (st1, PassRegistered c) ∧
     (∀ s now now2 mem,
        get (slotOfCar st) c = s → is_slot s →
        ∃ st2 secs p,
          vehicleExit c now now2 mem st1 = Some (st2, Exited c s 0 secs p) ∧
          totalRevenue st2 = totalRevenue st)).
Proof.
  intros Hreach. pose proof (reachable_Inv st Hreach) as HI.
  split; [apply addMonthlyPass_invalid|]. intros Hc.
  pose proof (Inv_lengths st HI) as (Hlsoc & Hlet & Hlpu & Hlstc).
  pose proof (addMonthlyPass_spec c st HI Hc) as Hpass.
  set (st1 := mkState (heap st) (wq st) (slotOfCar st) (entryTimeOfCar st)
                      (<[Z.to_nat c := 1]> (passUser st)) (slotToCar st)
                      (history st) (totalRevenue st)) in *.
  assert (Hreach1 : reachable st1).
  { by apply (reach_step st (OpPass c) st1 (PassRegistered c)). }
  pose proof (reachable_Inv st1 Hreach1) as HI1.
  assert (Hget : get (passUser st1) c = 1).
  { subst st1. cbn [passUser]. by rewrite get_upd_eq by in_bounds. }
  exists st1. split; [done|]. split; [done|]. split.
  { intros c' Hne. subst st1. cbn [passUser].
    apply get_upd_ne'; [unfold is_car in Hc; lia|done]. }
  do 7 (split; [done|]). split.
  { rewrite (addMonthlyPass_spec c st1 HI1 Hc). subst st1.
    cbn [heap wq slotOfCar entryTimeOfCar passUser slotToCar history totalRevenue].
    by rewrite list_insert_insert_eq. }
  intros s now now2 mem Hs Hslot.
  destruct (vehicleExit_parked c now now2 mem st1 s HI1 Hc Hs Hslot)
    as (h & _ & _ & _ & _ & _ & Hnone & Hsome).
  rewrite Hget in Hnone, Hsome.
  change (fee_of 1 _) with 0 in Hnone, Hsome.
  assert (Hrev : wrap32 (totalRevenue st1 + 0) = totalRevenue st).
  { subst st1. cbn [totalRevenue]. rewrite Z.add_0_r.
    apply wrap32_id. by apply reachable_revenue. }
  rewrite Hrev in Hnone, Hsome.
  destruct (decide (0 < waitCount (wq st1))) as [Hpos|Hzero].
  - destruct (Hsome Hpos)
      as (next & rest & q & m' & h' & _ & _ & _ & _ & _ & _ & _ & _ & _ & _ & _ & _ & _ & ->).
    do 3 eexists. split; done.
  - destruct HI1 as (L1 & _). pose proof (ok_wq _ _ _ _ L1) as (_ & ? & _).
    rewrite Hnone by lia. do 3 eexists. split; done.
Qed.

Lemma pass_waives_fee_witness :
  reachable st_full ∧ is_car 5 ∧
  ∃ st1, addMonthlyPass 5 st_full = Some (st1, PassRegistered 5) ∧
         get (passUser st1) 5 = 1 ∧
         addMonthlyPass 5 st1 = Some (st1, PassRegistered 5).
Proof.
  assert (Hcar : is_car 5) by (unfold is_car, MAX_CARS; lia).
  split; [exact st_full_reachable|]. split; [exact Hcar|].
  destruct (proj2 (pass_waives_fee st_full 5 st_full_reachable) Hcar)
    as (st1 & Hp & Hg & _ & _ & _ & _ & _ & _ & _ & _ & Hidem & _).
  exists st1. split; [exact Hp|]. split; [exact Hg|exact Hidem].
Defined.



(** X17.  Joining the queue and leaving it again changes nothing a
    listing shows: when an absent car enters a full facility whose queue
    has room, it is queued at position [waitCount + 1]; if it then
    exits, the queue holds the same cars in the same order as before,
    and the ledger, the heap, the revenue and the history are what they
    were. *)
Theorem queue_join_leave_round_trip (st : State) (c now now2 now3 : Z)
    (mem mem2 : bool) :
  reachable st → is_car c → status_of st c = Absent →
  heapSize (heap st) = 0 → waitCount (wq st) < WAIT_CAP →
  ∃ st1 st2,
    vehicleEntry c now mem st =
      Some (st1, Queued c (waitCount (wq st) + 1)) ∧
    queue_list (wq st1) = queue_list (wq st) ++ [c] ∧
    vehicleExit c now2 now3 mem2 st1 = Some (st2, RemovedFromQueue c) ∧
    queue_list (wq st2) = queue_list (wq st) ∧
    waitCount (wq st2) = waitCount (wq st) ∧
    slotOfCar st2 = slotOfCar st ∧ slotToCar st2 = slotToCar st ∧
    entryTimeOfCar st2 = entryTimeOfCar st ∧ passUser st2 = passUser st ∧
    heap st2 = heap st ∧ history st2 = history st ∧
    totalRevenue st2 = totalRevenue st.
Proof.
  intros Hreach Hc Habs Hh Hw. pose proof (reachable_Inv st Hreach) as HI.
  pose proof HI as (L & _).
  pose proof (Inv_lengths st HI) as (Hlsoc & Hlet & Hlpu & Hlstc).
  apply (status_of_cases st c) in Habs.
  destruct (vehicleEntry_queued c now mem st HI Hc Habs Hh Hw)
    as (q & _ & _ & Hql & Hcnt & Hentry).
  rewrite Hcnt in Hentry.
  match type of Hentry with _ = Some (?X, _) => set (st1 := X) in * end.
  assert (Hreach1 : reachable st1).
  { by apply (reach_step st (OpEntry c now mem) st1
                (Queued c (waitCount (wq st) + 1))). }
  pose proof (reachable_Inv st1 Hreach1) as HI1.
  assert (Hs1 : get (slotOfCar st1) c = -2).
  { subst st1. cbn [slotOfCar]. by rewrite get_upd_eq by in_bounds. }
  destruct (vehicleExit_waiting c now2 now3 mem2 st1 HI1 Hc Hs1)
    as (q2 & l1 & l2 & Hexit & _ & _ & _ & Hfilter & Hcnt2).
  assert (Hnot : c ∉ queue_list (wq st)).
  { rewrite (ok_wait _ _ _ _ L). lia. }
  exists st1. eexists. split; [done|]. split; [done|]. split; [exact Hexit|].
  subst st1.
  cbn [heap wq slotOfCar entryTimeOfCar passUser slotToCar history
       totalRevenue] in *.
  split.
  { rewrite Hfilter, Hql, filter_app, filter_keep_all by done.
    rewrite filter_cons_False by (intros ?; done). apply app_nil_r. }
  split; [lia|].
  rewrite list_insert_insert_eq. rewrite <- Habs at 1.
  by rewrite upd_same by in_bounds.
Qed.

Lemma queue_join_leave_round_trip_witness :
  reachable st_full ∧ is_car 50 ∧ status_of st_full 50 = Absent ∧
  heapSize (heap st_full) = 0 ∧ waitCount (wq st_full) < WAIT_CAP ∧
  ∃ st1 st2,
    vehicleEntry 50 3000 true st_full =
      Some (st1, Queued 50 (waitCount (wq st_full) + 1)) ∧
    queue_list (wq st1) = queue_list (wq st_full) ++ [50] ∧
    vehicleExit 50 3001 3002 true st1 = Some (st2, RemovedFromQueue 50) ∧
    queue_list (wq st2) = queue_list (wq st_full) ∧
    waitCount (wq st2) = waitCount (wq st_full) ∧
    slotOfCar st2 = slotOfCar st_full ∧ slotToCar st2 = slotToCar st_full ∧
    entryTimeOfCar st2 = entryTimeOfCar st_full ∧
    passUser st2 = passUser st_full ∧
    heap st2 = heap st_full ∧ history st2 = history st_full ∧
    totalRevenue st2 = totalRevenue st_full.
Proof.
  assert (Hcar : is_car 50) by (unfold is_car, MAX_CARS; lia).
  assert (Habs : status_of st_full 50 = Absent) by (vm_compute; reflexivity).
  assert (Hh : heapSize (heap st_full) = 0) by (vm_compute; reflexivity).
  assert (Hw : waitCount (wq st_full) < WAIT_CAP) by (vm_compute; reflexivity).
  split; [exact st_full_reachable|]. do 4 (split; [done|]).
  exact (queue_join_leave_round_trip st_full 50 3000 3001 3002 true true
           st_full_reachable Hcar Habs Hh Hw).
Defined.
